(** * New Yale sparse storage (ext/nmatrix/storage/yale.cpp)

    A shallow embedding of the storage engine of [yale.cpp] and the
    properties of its specification that can be settled on it.

    Conventions of the embedding.
    - The functions of [nm::yale_storage] are templates over [DType] and
      [IType].  They are embedded at the 64-bit index type, so that [IType]
      and [size_t] values are both integers of [Z] below [2^64]; wrap-around
      is written out ([wrap64]) at every subtraction, which is where these
      functions can leave the range.  Values of [DType] are exact integers.
    - [ija] and [a] are lists whose length is the allocated length.  An access
      outside the allocated length is undefined behaviour in the source and
      stops the model with [Undefined].
    - [ALLOC_N] does not initialise memory: the contents of a fresh buffer
      are given by an arbitrary function of the position
      ([junk_ija], [junk_a]).
    - Allocation succeeds: the failure branch of [NM_CHECK_ALLOC] is not
      modelled.
    - [rb_raise] leaves the function with an exception; the state at the
      time of the raise is kept in the outcome. *)

From stdpp Require Import base list.
From Stdlib Require Import ZArith Lia Ascii.

Local Open Scope Z_scope.

(** ** Outcomes, exceptions and the two monads *)

Inductive exn : Set :=
| ArgError      (* rb_eArgError *)
| NoMemError    (* rb_eNoMemError *)
| NotImpError   (* rb_eNotImpError *)
| Undefined     (* access outside a buffer, or through a freed buffer *)
| OutOfFuel.    (* the model's bound on a loop or recursion was reached *)

(** Results of code that reads but does not write a descriptor. *)
Inductive res (A : Type) : Type :=
| Ok (x : A)
| Err (e : exn).
Arguments Ok {A} x.
Arguments Err {A} e.

(** Results of code that updates a state of type [St] in place. *)
Inductive outcome (St A : Type) : Type :=
| Done (x : A) (s : St)
| Raise (e : exn) (s : St).
Arguments Done {St A} x s.
Arguments Raise {St A} e s.

Definition M (St A : Type) : Type := St -> outcome St A.

#[global] Instance res_ret : MRet res := fun A x => Ok x.
#[global] Instance res_bind : MBind res := fun A B f m =>
  match m with
  | Ok x => f x
  | Err e => Err e
  end.

#[global] Instance M_ret {St} : MRet (M St) := fun A x s => Done x s.
#[global] Instance M_bind {St} : MBind (M St) := fun A B f m s =>
  match m s with
  | Done x s' => f x s'
  | Raise e s' => Raise e s'
  end.

Definition get {St} : M St St := fun s => Done s s.
Definition put {St} (s : St) : M St unit := fun _ => Done tt s.
Definition modify {St} (f : St -> St) : M St unit := fun s => Done tt (f s).
Definition rb_raise {St A} (e : exn) : M St A := fun s => Raise e s.
Definition lift {St A} (r : res A) : M St A := fun s =>
  match r with
  | Ok x => Done x s
  | Err e => Raise e s
  end.

(** [for (i = lo; i < hi; ++i) body(i)], for a bound [hi] that the body does
    not change. *)
Fixpoint for_count {St} (k : nat) (i : Z) (body : Z -> M St unit) : M St unit :=
  match k with
  | O => mret tt
  | S k' => _ ← body i; for_count k' (i + 1) body
  end.

Definition for_range {St} (lo hi : Z) (body : Z -> M St unit) : M St unit :=
  for_count (Z.to_nat (hi - lo)) lo body.

(** ** Machine integers and buffers *)

Definition wrap64 (x : Z) : Z := Z.modulo x (2 ^ 64).

(** Conversion of an index to [int], as done by [return mid] in
    [binary_search]. *)
Definition to_int (x : Z) : Z :=
  let y := Z.modulo x (2 ^ 32) in
  if y <? 2 ^ 31 then y else y - 2 ^ 32.

Definition NM_MAX (x y : Z) : Z := if y <? x then x else y.
Definition NM_MIN (x y : Z) : Z := if x <? y then x else y.

(** [buf[i]] as an rvalue. *)
Definition rd (buf : list Z) (i : Z) : res Z :=
  if i <? 0 then Err Undefined
  else match buf !! Z.to_nat i with
       | Some x => Ok x
       | None => Err Undefined
       end.

(** [buf[i] = v]. *)
Definition wr (buf : list Z) (i v : Z) : res (list Z) :=
  if i <? 0 then Err Undefined
  else match buf !! Z.to_nat i with
       | Some _ => Ok (<[Z.to_nat i := v]> buf)
       | None => Err Undefined
       end.

(** [ALLOC_N(T, n)]: [n] cells whose contents are whatever the allocator
    hands out. *)
Definition ALLOC_N (junk : nat -> Z) (n : Z) : list Z :=
  junk <$> seq 0 (Z.to_nat n).

(** ** The descriptor *)

(** [YALE_STORAGE].  [dtype] and [itype] are fixed by the embedding.
    [epoch] is not a field of the source: it counts how often the buffers of
    the descriptor were replaced, and stands for the value of the pointer
    [s->ija], which [create_merged] keeps in a local across insertions. *)
Record YALE_STORAGE : Type := mkYale {
  dim : Z;
  shape : Z * Z;
  capacity : Z;
  ndnz : Z;
  ija : list Z;
  a : list Z;
  epoch : nat
}.

Definition set_capacity (c : Z) (s : YALE_STORAGE) : YALE_STORAGE :=
  mkYale (dim s) (shape s) c (ndnz s) (ija s) (a s) (epoch s).
Definition set_ndnz (n : Z) (s : YALE_STORAGE) : YALE_STORAGE :=
  mkYale (dim s) (shape s) (capacity s) n (ija s) (a s) (epoch s).
Definition set_ija (l : list Z) (s : YALE_STORAGE) : YALE_STORAGE :=
  mkYale (dim s) (shape s) (capacity s) (ndnz s) l (a s) (epoch s).
Definition set_a (l : list Z) (s : YALE_STORAGE) : YALE_STORAGE :=
  mkYale (dim s) (shape s) (capacity s) (ndnz s) (ija s) l (epoch s).

(** Accesses through [s->ija] and [s->a]. *)
Definition rd_ija (i : Z) : M YALE_STORAGE Z :=
  fun s => lift (rd (ija s) i) s.
Definition rd_a (i : Z) : M YALE_STORAGE Z :=
  fun s => lift (rd (a s) i) s.
Definition wr_ija (i v : Z) : M YALE_STORAGE unit :=
  fun s => match wr (ija s) i v with
           | Ok l => Done tt (set_ija l s)
           | Err e => Raise e s
           end.
Definition wr_a (i v : Z) : M YALE_STORAGE unit :=
  fun s => match wr (a s) i v with
           | Ok l => Done tt (set_a l s)
           | Err e => Raise e s
           end.

(** Modelled from the spec: [NM_YALE_MAX_SIZE] is a macro of [yale.h], which
    is not among the sources.  Sections 4.2 and 7 of the specification, and
    the header comment of [yale.cpp], give the maximum size as
    [rows*cols + 1]. *)
Definition NM_YALE_MAX_SIZE (s : YALE_STORAGE) : Z :=
  (shape s).1 * (shape s).2 + 1.

(** [get_size]: the in-use length [ija[shape[0]]]. *)
Definition get_size (s : YALE_STORAGE) : res Z :=
  rd (ija s) (shape s).1.

(** ** Index search *)

(** [binary_search]: the recursion of the source, with fuel for one pass over
    the range [left..right].  The result is the [int] of the source, [-1]
    for not found. *)
Fixpoint binary_search_rec (fuel : nat) (s : YALE_STORAGE)
    (left right key : Z) : res Z :=
  match fuel with
  | O => Err OutOfFuel
  | S fuel' =>
    if right <? left then Ok (-1)
    else
      let mid := (left + right) / 2 in
      mid_j ← rd (ija s) mid;
      if mid_j =? key then Ok (to_int mid)
      else if key <? mid_j then
        binary_search_rec fuel' s left (wrap64 (mid - 1)) key
      else
        binary_search_rec fuel' s (mid + 1) right key
  end.

Definition binary_search (s : YALE_STORAGE) (left right key : Z) : res Z :=
  binary_search_rec (S (Z.to_nat (right + 1 - left))) s left right key.

(** [insert_search]: returns the position and the value written to
    [*found]. *)
Fixpoint insert_search_rec (fuel : nat) (s : YALE_STORAGE)
    (left right key : Z) : res (Z * bool) :=
  match fuel with
  | O => Err OutOfFuel
  | S fuel' =>
    if right <? left then Ok (left, false)
    else
      let mid := (left + right) / 2 in
      mid_j ← rd (ija s) mid;
      if mid_j =? key then Ok (mid, true)
      else if key <? mid_j then
        insert_search_rec fuel' s left (wrap64 (mid - 1)) key
      else
        insert_search_rec fuel' s (mid + 1) right key
  end.

Definition insert_search (s : YALE_STORAGE) (left right key : Z)
    : res (Z * bool) :=
  insert_search_rec (S (Z.to_nat (right + 1 - left))) s left right key.

(** ** Insertion, resize and row accounting *)

Section Engine.

(** [GROWTH c] is [(size_t)(c * GROWTH_CONSTANT)]; the constant is declared in
    [yale.h], which is not among the sources. *)
Variable GROWTH : Z -> Z.

(** Contents of freshly allocated index and value buffers. *)
Variable junk_ija : nat -> Z.
Variable junk_a : nat -> Z.

(** The two buffers under construction in [vector_insert_resize]. *)
Definition new_bufs : Type := list Z * list Z.

Definition wr_new_ija (i v : Z) : M new_bufs unit :=
  fun b => match wr b.1 i v with
           | Ok l => Done tt (l, b.2)
           | Err e => Raise e b
           end.
Definition wr_new_a (i v : Z) : M new_bufs unit :=
  fun b => match wr b.2 i v with
           | Ok l => Done tt (b.1, l)
           | Err e => Raise e b
           end.

(** The two copy loops of [vector_insert_resize], run on the new buffers. *)
Definition resize_copy (old_ija old_a : list Z)
    (current_size pos n : Z) (struct_only : bool) : M new_bufs unit :=
  (if struct_only then
     for_range 0 pos (fun i =>
       x ← lift (rd old_ija i); wr_new_ija i x)
   else
     for_range 0 pos (fun i =>
       x ← lift (rd old_ija i); wr_new_ija i x;;
       y ← lift (rd old_a i); wr_new_a i y));;
  (if struct_only then
     for_range pos (wrap64 (current_size - pos + n - 1)) (fun i =>
       x ← lift (rd old_ija i); wr_new_ija (i + n) x)
   else
     for_range pos (wrap64 (current_size - pos + n - 1)) (fun i =>
       x ← lift (rd old_ija i); wr_new_ija (i + n) x;;
       y ← lift (rd old_a i); wr_new_a (i + n) y)).

(** [vector_insert_resize]. *)
Definition vector_insert_resize (current_size pos : Z) (j : list Z) (n : Z)
    (struct_only : bool) : M YALE_STORAGE ascii :=
  s ← get;
  let new_capacity := GROWTH (capacity s) in
  new_capacity ←
    (if NM_YALE_MAX_SIZE s <? new_capacity then
       if NM_YALE_MAX_SIZE s <? current_size + n then rb_raise NoMemError
       else mret (NM_YALE_MAX_SIZE s)
     else mret new_capacity);
  let new_capacity :=
    if new_capacity <? current_size + n then current_size + n
    else new_capacity in
  let new_ija := ALLOC_N junk_ija new_capacity in
  let new_a := ALLOC_N junk_a new_capacity in
  let old_ija := ija s in
  let old_a := a s in
  match resize_copy old_ija old_a current_size pos n struct_only
          (new_ija, new_a) with
  | Raise e _ => rb_raise e
  | Done _ (new_ija, new_a) =>
    put (mkYale (dim s) (shape s) new_capacity (ndnz s) new_ija new_a
           (S (epoch s)));;
    mret "i"%char
  end.

(** [vector_insert].  [j] and [val] are the arrays behind the pointers of
    the source; [val] is [NULL] (here the empty list) in structural
    insertions. *)
Definition vector_insert (pos : Z) (j val : list Z) (n : Z)
    (struct_only : bool) : M YALE_STORAGE ascii :=
  s ← get;
  if pos <? (shape s).1 then rb_raise ArgError
  else
    size ← lift (get_size s);
    (if capacity s <? size + n then
       vector_insert_resize size pos j n struct_only;; mret tt
     else if struct_only then
       for_range 0 (wrap64 (size - pos)) (fun i =>
         x ← rd_ija (wrap64 (size - 1 - i));
         wr_ija (wrap64 (size + n - 1 - i)) x)
     else
       for_range 0 (wrap64 (size - pos)) (fun i =>
         x ← rd_ija (wrap64 (size - 1 - i));
         wr_ija (wrap64 (size + n - 1 - i)) x;;
         y ← rd_a (wrap64 (size - 1 - i));
         wr_a (wrap64 (size + n - 1 - i)) y));;
    (if struct_only then
       for_range 0 n (fun i =>
         c ← lift (rd j i); wr_ija (pos + i) c)
     else
       for_range 0 n (fun i =>
         c ← lift (rd j i); wr_ija (pos + i) c;;
         v ← lift (rd val i); wr_a (pos + i) v));;
    mret "i"%char.

(** [increment_ia_after]. *)
Definition increment_ia_after (ija_size i n : Z) : M YALE_STORAGE unit :=
  for_range (i + 1) (ija_size + 1) (fun k =>
    x ← rd_ija k; wr_ija k (x + n)).

(** [storage->ndnz++] and [++(s->ndnz)]. *)
Definition incr_ndnz : M YALE_STORAGE unit :=
  modify (fun s => set_ndnz (ndnz s + 1) s).

(** ** Accessors *)

(** [ref]: the returned pointer [&a[k]] is given by its index [k]. *)
Definition ref (storage : YALE_STORAGE) (coords : Z * Z) : res Z :=
  if coords.1 =? coords.2 then Ok coords.1
  else
    ija_r ← rd (ija storage) coords.1;
    ija_r1 ← rd (ija storage) (coords.1 + 1);
    if ija_r =? ija_r1 then Ok (shape storage).1
    else
      pos ← binary_search storage ija_r (wrap64 (ija_r1 - 1)) coords.2;
      if pos =? -1 then Ok (shape storage).1
      else
        c ← rd (ija storage) pos;
        if c =? coords.2 then Ok pos else Ok (shape storage).1.

(** The value behind a handle returned by [ref]. *)
Definition deref (storage : YALE_STORAGE) (k : Z) : res Z :=
  rd (a storage) k.

(** [set]. *)
Definition set (coords : Z * Z) (v : Z) : M YALE_STORAGE ascii :=
  if coords.1 =? coords.2 then
    wr_a coords.1 v;; mret "r"%char
  else
    ija_r ← rd_ija coords.1;
    ija_r1 ← rd_ija (coords.1 + 1);
    if ija_r =? ija_r1 then
      ins_type ← vector_insert ija_r [coords.2] [v] 1 false;
      s ← get;
      increment_ia_after (shape s).1 coords.1 1;;
      incr_ndnz;;
      mret ins_type
    else
      s ← get;
      '(pos, found) ← lift (insert_search s ija_r (wrap64 (ija_r1 - 1))
                              coords.2);
      if (found : bool) then
        wr_ija pos coords.2;; wr_a pos v;; mret "r"%char
      else
        ins_type ← vector_insert pos [coords.2] [v] 1 false;
        s ← get;
        increment_ia_after (shape s).1 coords.1 1;;
        incr_ndnz;;
        mret ins_type.

(** ** Lifecycle *)

(** [alloc]: the basic struct.  The source leaves [capacity], [ija] and [a]
    unset here; every caller assigns them before use. *)
Definition alloc (shape : Z * Z) (dim : Z) : YALE_STORAGE :=
  mkYale dim shape 0 0 [] [] 0.

(** [NM_YALE_MINIMUM] is a macro of [yale.h] and
    [nm_storage_count_max_elements] a function of the common storage code;
    neither is among the sources. *)
Variable NM_YALE_MINIMUM : YALE_STORAGE -> Z.
Variable nm_storage_count_max_elements : YALE_STORAGE -> Z.

(** [nm_yale_storage_create]. *)
Definition nm_yale_storage_create (shape : Z * Z) (dim init_capacity : Z)
    : res YALE_STORAGE :=
  if negb (dim =? 2) then Err NotImpError
  else
    let s := alloc shape dim in
    let max_capacity :=
      wrap64 (nm_storage_count_max_elements s - (shape).1 + 1) in
    let s :=
      if init_capacity <? NM_YALE_MINIMUM s then
        set_capacity (NM_YALE_MINIMUM s) s
      else if max_capacity <? init_capacity then
        set_capacity max_capacity s
      else
        set_capacity init_capacity s in
    Ok (set_a (ALLOC_N junk_a (capacity s))
          (set_ija (ALLOC_N junk_ija (capacity s)) s)).

(** Modelled from the spec: [clear_diagonal_and_zero] is defined in [yale.h],
    which is not among the sources.  Section 3.4 of the specification:
    initialization clears the diagonal to the zero of the value type and
    writes the canonical zero at [a[R]]. *)
Definition clear_diagonal_and_zero : M YALE_STORAGE unit :=
  s ← get;
  for_range 0 ((shape s).1 + 1) (fun i => wr_a i 0).

(** [init]. *)
Definition init : M YALE_STORAGE unit :=
  s ← get;
  let IA_INIT := (shape s).1 + 1 in
  for_range 0 IA_INIT (fun i => wr_ija i IA_INIT);;
  clear_diagonal_and_zero.

End Engine.

(** The final state of an in-place computation. *)
Definition exec {St A} (m : M St A) (s : St) : res St :=
  match m s with
  | Done _ s' => Ok s'
  | Raise e _ => Err e
  end.

(** ** Equality *)

(** [ndrow_is_empty]: [k] counts the remaining iterations of the loop. *)
Fixpoint ndrow_all_zero (k : nat) (s : YALE_STORAGE) (ija : Z) : res bool :=
  match k with
  | O => Ok true
  | S k' =>
    x ← rd (a s) ija;
    if negb (x =? 0) then Ok false
    else ndrow_all_zero k' s (ija + 1)
  end.

Definition ndrow_is_empty (s : YALE_STORAGE) (ija ija_next : Z) : res bool :=
  if ija =? ija_next then Ok true
  else ndrow_all_zero (Z.to_nat (ija_next - ija)) s ija.

(** The variables of the loop of [ndrow_eqeq_ndrow]. *)
Record walk : Type := mkWalk {
  l_ija : Z; r_ija : Z;
  l_ja : Z; r_ja : Z; ja : Z;
  l_no_more : bool; r_no_more : bool
}.

(** One iteration of the loop of [ndrow_eqeq_ndrow]: [inl b] is [return b],
    [inr w] the variables at the end of the iteration. *)
Definition ndrow_step (l r : YALE_STORAGE) (l_ija_next r_ija_next : Z)
    (w : walk) : res (bool + walk) :=
  if l_ja w =? r_ja w then
    x ← rd (a r) (r_ija w);
    y ← rd (a l) (l_ija w);
    if negb (x =? y) then Ok (inl false)
    else
      let l_ija' := l_ija w + 1 in
      let r_ija' := r_ija w + 1 in
      '(l_ja', l_no_more') ←
        (if l_ija' <? l_ija_next then
           c ← rd (ija l) l_ija'; Ok (c, l_no_more w)
         else Ok (l_ja w, true));
      '(r_ja', r_no_more') ←
        (if r_ija' <? r_ija_next then
           c ← rd (ija r) r_ija'; Ok (c, r_no_more w)
         else Ok (r_ja w, true));
      Ok (inr (mkWalk l_ija' r_ija' l_ja' r_ja' (NM_MIN l_ja' r_ja')
                 l_no_more' r_no_more'))
  else if l_no_more w || (ja w <? l_ja w) then
    x ← rd (a r) (r_ija w);
    if negb (x =? 0) then Ok (inl false)
    else
      let r_ija' := r_ija w + 1 in
      if r_ija' <? r_ija_next then
        c ← rd (ija r) r_ija';
        Ok (inr (mkWalk (l_ija w) r_ija' (l_ja w) c (NM_MIN (l_ja w) c)
                   (l_no_more w) (r_no_more w)))
      else
        Ok (inr (mkWalk (l_ija w) r_ija' (l_ja w) (r_ja w) (ja w)
                   true (r_no_more w)))
  else if r_no_more w || (ja w <? r_ja w) then
    y ← rd (a l) (l_ija w);
    if negb (y =? 0) then Ok (inl false)
    else
      let l_ija' := l_ija w + 1 in
      if l_ija' <? l_ija_next then
        c ← rd (ija l) l_ija';
        Ok (inr (mkWalk l_ija' (r_ija w) c (r_ja w) (NM_MIN c (r_ja w))
                   (l_no_more w) (r_no_more w)))
      else
        Ok (inr (mkWalk l_ija' (r_ija w) (l_ja w) (r_ja w) (ja w)
                   true (r_no_more w)))
  else
    (* fprintf(stderr, "Unhandled in eqeq ...") *)
    Ok (inr w).

(** The [while] loop of [ndrow_eqeq_ndrow]. *)
Fixpoint ndrow_loop (fuel : nat) (l r : YALE_STORAGE)
    (l_ija_next r_ija_next : Z) (w : walk) : res bool :=
  match fuel with
  | O => Err OutOfFuel
  | S fuel' =>
    if negb (l_no_more w && r_no_more w) then
      x ← ndrow_step l r l_ija_next r_ija_next w;
      match x with
      | inl b => Ok b
      | inr w' => ndrow_loop fuel' l r l_ija_next r_ija_next w'
      end
    else Ok true
  end.

(** [ndrow_eqeq_ndrow].  Every iteration but the unhandled one advances
    [l_ija] or [r_ija] after a read at that position, so that
    [length (a l) + length (a r)] iterations are enough for every run that
    ends. *)
Definition ndrow_eqeq_ndrow (l r : YALE_STORAGE)
    (l_ija l_ija_next r_ija r_ija_next : Z) : res bool :=
  l_ja ← rd (ija l) l_ija;
  r_ja ← rd (ija r) r_ija;
  ndrow_loop (S (length (a l) + length (a r))) l r l_ija_next r_ija_next
    (mkWalk l_ija r_ija l_ja r_ja (NM_MIN l_ja r_ja) false false).

(** The first loop of [eqeq], over the diagonal. *)
Fixpoint eqeq_diag (k : nat) (left right : YALE_STORAGE) (index : Z)
    : res bool :=
  match k with
  | O => Ok true
  | S k' =>
    x ← rd (a left) index;
    y ← rd (a right) index;
    if negb (x =? y) then Ok false
    else eqeq_diag k' left right (index + 1)
  end.

(** The second loop of [eqeq], over the rows. *)
Fixpoint eqeq_rows (k : nat) (left right : YALE_STORAGE) (i : Z)
    : res bool :=
  match k with
  | O => Ok true
  | S k' =>
    l_ija ← rd (ija left) i;
    l_ija_next ← rd (ija left) (i + 1);
    r_ija ← rd (ija right) i;
    r_ija_next ← rd (ija right) (i + 1);
    l_empty ← ndrow_is_empty left l_ija l_ija_next;
    if (l_empty : bool) then
      r_empty ← ndrow_is_empty right r_ija r_ija_next;
      if negb r_empty then Ok false
      else eqeq_rows k' left right (i + 1)
    else
      r_empty ← ndrow_is_empty right r_ija r_ija_next;
      if (r_empty : bool) then Ok false
      else
        same ← ndrow_eqeq_ndrow left right l_ija l_ija_next r_ija r_ija_next;
        if negb same then Ok false
        else eqeq_rows k' left right (i + 1)
  end.

(** [eqeq]. *)
Definition eqeq (left right : YALE_STORAGE) : res bool :=
  d ← eqeq_diag (Z.to_nat (shape left).1) left right 0;
  if negb d then Ok false
  else eqeq_rows (Z.to_nat (shape left).1) left right 0.

(** ** Copying, merging and import *)

Section Construction.

Variable GROWTH : Z -> Z.
Variable junk_ija : nat -> Z.
Variable junk_a : nat -> Z.

(** [copy_alloc_struct].  [new_size] is not used by the source: the loop
    runs to [get_size(rhs)]. *)
Definition copy_alloc_struct (rhs : YALE_STORAGE) (new_capacity new_size : Z)
    : res YALE_STORAGE :=
  let lhs :=
    mkYale (dim rhs) (shape rhs) new_capacity (ndnz rhs)
      (ALLOC_N junk_ija new_capacity) (ALLOC_N junk_a new_capacity) 0 in
  size ← get_size rhs;
  exec (for_range 0 size (fun i =>
          x ← lift (rd (ija rhs) i); wr_ija i x)) lhs.

(** The second argument of [create_merged]: a null pointer, the pointer
    [left] itself, or a pointer to another descriptor. *)
Inductive right_ptr : Type :=
| RNull
| RLeft
| ROther (right : YALE_STORAGE).

Definition deref_right (left : YALE_STORAGE) (right : right_ptr)
    : res YALE_STORAGE :=
  match right with
  | RNull => Err Undefined
  | RLeft => Ok left
  | ROther r => Ok r
  end.

(** The variables that the loops of [create_merged] update: the result [s]
    and the locals [ija], [ija_next] and [ins_type]. *)
Record merge_state : Type := mkMerge {
  m_s : YALE_STORAGE;
  m_ija : Z;
  m_ija_next : Z;
  m_ins_type : ascii
}.

Definition on_s {A} (m : M YALE_STORAGE A) : M merge_state A :=
  fun st =>
    match m (m_s st) with
    | Done x s' =>
      Done x (mkMerge s' (m_ija st) (m_ija_next st) (m_ins_type st))
    | Raise e s' =>
      Raise e (mkMerge s' (m_ija st) (m_ija_next st) (m_ins_type st))
    end.

Definition set_locals (ija ija_next : Z) (ins_type : ascii)
    : M merge_state unit :=
  fun st => Done tt (mkMerge (m_s st) ija ija_next ins_type).

(** [sija[k]]: [sija] is the pointer [s->ija] taken before the loops; once
    an insertion has replaced the buffers it points to freed memory. *)
Definition rd_sija (epoch0 : nat) (k : Z) : M merge_state Z :=
  fun st =>
    if Nat.eqb (epoch (m_s st)) epoch0 then lift (rd (ija (m_s st)) k) st
    else Raise Undefined st.

(** The body of the inner loop of [create_merged], for row [i]. *)
Definition merge_entry (epoch0 : nat) (i : Z) : M merge_state unit :=
  st ← get;
  let ija := m_ija st in
  let ija_next := m_ija_next st in
  let ins_type := m_ins_type st in
  let shape0 := (shape (m_s st)).1 in
  ja ← rd_sija epoch0 ija;
  if ija =? ija_next then
    ins_type ← on_s (vector_insert GROWTH junk_ija junk_a ija [ja] [] 1 true);
    on_s (increment_ia_after shape0 i 1);;
    on_s incr_ndnz;;
    let ija := ija + 1 in
    if Ascii.eqb ins_type "i" then set_locals ija (ija_next + 1) ins_type
    else set_locals ija ija_next ins_type
  else
    key ← rd_sija epoch0 ija;
    '(pos, found) ← lift (insert_search (m_s st) ija (wrap64 (ija_next - 1))
                            key);
    ija_next ←
      (if negb found then
         on_s (vector_insert GROWTH junk_ija junk_a pos [ja] [] 1 true);;
         on_s (increment_ia_after shape0 i 1);;
         on_s incr_ndnz;;
         if Ascii.eqb ins_type "i" then mret (ija_next + 1)
         else mret ija_next
       else mret ija_next);
    set_locals (pos + 1) ija_next ins_type.

(** The outer loop of [create_merged]. *)
Definition merge_rows (epoch0 : nat) (right : YALE_STORAGE)
    : M merge_state unit :=
  st ← get;
  for_range 0 (shape (m_s st)).1 (fun i =>
    st ← get;
    ija_i ← rd_sija epoch0 i;
    ija_next ← rd_sija epoch0 (i + 1);
    set_locals ija_i ija_next (m_ins_type st);;
    r_ija ← lift (rd (ija right) i);
    r_ija_end ← lift (rd (ija right) (i + 1));
    for_range r_ija r_ija_end (fun _ => merge_entry epoch0 i)).

(** [create_merged].  [ins_type0] is the indeterminate initial value of the
    local [ins_type]. *)
Definition create_merged (ins_type0 : ascii) (left : YALE_STORAGE)
    (right : right_ptr) : res YALE_STORAGE :=
  size ← get_size left;
  r ← deref_right left right;
  s ← copy_alloc_struct left (NM_MAX (capacity left) (capacity r)) size;
  z ← rd (a left) (shape left).1;
  new_a ← wr (a s) (shape s).1 z;
  let s := set_a new_a s in
  match right with
  | ROther other =>
    st ← exec (merge_rows (epoch s) other) (mkMerge s 0 0 ins_type0);
    Ok (m_s st)
  | _ => Ok s
  end.

(** The variables that the second pass of [create_from_old_yale] updates:
    the new descriptor and the write position [pp]. *)
Definition import_state : Type := YALE_STORAGE * Z.

Definition on_fst {A} (m : M YALE_STORAGE A) : M import_state A :=
  fun st =>
    match m st.1 with
    | Done x s' => Done x (s', st.2)
    | Raise e s' => Raise e (s', st.2)
    end.

Definition set_pp (pp : Z) : M import_state unit :=
  fun st => Done tt (st.1, pp).

(** First pass of [create_from_old_yale]: count the entries off the
    diagonal.  The state is the counter [ndnz]. *)
Definition count_ndnz (shape : Z * Z) (ir jr : list Z) : M Z unit :=
  for_range 0 shape.1 (fun i =>
    p0 ← lift (rd ir i);
    p_next ← lift (rd ir (i + 1));
    for_range p0 p_next (fun p =>
      c ← lift (rd jr p);
      if negb (i =? c) then modify (fun ndnz => ndnz + 1)
      else mret tt)).

(** Second pass of [create_from_old_yale]: fill the arrays. *)
Definition fill_arrays (shape : Z * Z) (ir jr ar : list Z)
    : M import_state unit :=
  for_range 0 shape.1 (fun i =>
    p0 ← lift (rd ir i);
    p_next ← lift (rd ir (i + 1));
    for_range p0 p_next (fun p =>
      st ← get;
      let pp := st.2 in
      c ← lift (rd jr p);
      (if i =? c then
         v ← lift (rd ar p);
         on_fst (wr_a i v);;
         set_pp (wrap64 (pp - 1))
       else
         on_fst (wr_ija pp c);;
         v ← lift (rd ar p);
         on_fst (wr_a pp v));;
      st ← get;
      set_pp (st.2 + 1))).

(** [create_from_old_yale]. *)
Definition create_from_old_yale (shape : Z * Z) (ir jr ar : list Z)
    : res YALE_STORAGE :=
  ndnz ← exec (count_ndnz shape ir jr) 0;
  let s := alloc shape 2 in
  let s := set_ndnz ndnz (set_capacity (shape.1 + ndnz + 1) s) in
  let s := set_a (ALLOC_N junk_a (capacity s))
             (set_ija (ALLOC_N junk_ija (capacity s)) s) in
  let pp := shape.1 + 1 in
  st ← exec (fill_arrays shape ir jr ar) (s, pp);
  let i := shape.1 in
  st ← exec (on_fst (wr_ija i st.2);; on_fst (wr_a i 0)) st;
  Ok st.1.

End Construction.

(** ** Concrete parameters and observations used by the scenarios *)

(** Modelled from the spec: [GROWTH_CONSTANT] is declared in [yale.h], which
    is not among the sources.  Section 3.4 of the specification gives the
    growth factor as 1.5 by default; the product is truncated to
    [size_t]. *)
Definition growth_1_5 (c : Z) : Z := c * 3 / 2.

(** An allocator that hands out zero-filled memory. *)
Definition zero_page (_ : nat) : Z := 0.

(** An instance of the two parameters of [nm_yale_storage_create]: the
    minimum [2*rows + 1], and the number of cells of the dense shape for
    [nm_storage_count_max_elements]. *)
Definition minimum_2r1 (s : YALE_STORAGE) : Z := (shape s).1 * 2 + 1.
Definition dense_cells (s : YALE_STORAGE) : Z := (shape s).1 * (shape s).2.

(** The off-diagonal column indices of row [i]: the slice
    [ija[ija[i] .. ija[i+1])]. *)
Definition row_cols (s : YALE_STORAGE) (i : Z) : res (list Z) :=
  lo ← rd (ija s) i;
  hi ← rd (ija s) (i + 1);
  Ok (take (Z.to_nat (hi - lo)) (drop (Z.to_nat lo) (ija s))).

(** Invariant I1 on a list of column indices. *)
Fixpoint strictly_increasing (l : list Z) : bool :=
  match l with
  | x :: ((y :: _) as l') => (x <? y) && strictly_increasing l'
  | _ => true
  end.

(** The matrix that a descriptor denotes, as a function of the cell: the
    diagonal slot, the value stored with column [j] in row [i], or zero. *)
Fixpoint stored_at (cols vals : list Z) (j : Z) : option Z :=
  match cols, vals with
  | c :: cols', v :: vals' => if c =? j then Some v else stored_at cols' vals' j
  | _, _ => None
  end.

Definition cell (s : YALE_STORAGE) (i j : Z) : res Z :=
  if i =? j then rd (a s) i
  else
    lo ← rd (ija s) i;
    hi ← rd (ija s) (i + 1);
    let cols := take (Z.to_nat (hi - lo)) (drop (Z.to_nat lo) (ija s)) in
    let vals := take (Z.to_nat (hi - lo)) (drop (Z.to_nat lo) (a s)) in
    Ok (default 0 (stored_at cols vals j)).

(** All cells of the two descriptors agree, by enumeration of the shape of
    the first. *)
Definition same_cells (l r : YALE_STORAGE) : bool :=
  forallb (fun i =>
    forallb (fun j =>
      match cell l i j, cell r i j with
      | Ok x, Ok y => x =? y
      | _, _ => false
      end) (seqZ 0 (shape l).2)) (seqZ 0 (shape l).1).

(** [ref] followed by a read through the returned handle. *)
Definition read_cell (s : YALE_STORAGE) (coords : Z * Z) : res Z :=
  k ← ref s coords; deref s k.

(** A sequence of [set] calls. *)
Fixpoint set_all (GROWTH : Z -> Z) (junk_ija junk_a : nat -> Z)
    (writes : list (Z * Z * Z)) : M YALE_STORAGE unit :=
  match writes with
  | [] => mret tt
  | (coords, v) :: rest =>
    set GROWTH junk_ija junk_a coords v;;
    set_all GROWTH junk_ija junk_a rest
  end.

(** An empty 2x1 matrix whose capacity, 5, is above the maximum size 3. *)
Definition empty_2x1 : YALE_STORAGE :=
  mkYale 2 (2, 1) 5 0 [3; 3; 3; 0; 0] [0; 0; 0; 0; 0] 0.

(** A full 2x2 matrix: its in-use length is the capacity and the maximum
    size, 5. *)
Definition full_2x2 : YALE_STORAGE :=
  mkYale 2 (2, 2) 5 2 [3; 4; 5; 1; 0] [1; 2; 0; 7; 8] 0.

(** The two descriptors of the equality scenarios, of shape 2x4 with
    diagonal (1,1).  Both store (0,1) = 5 and (1,0) = 7; the first also
    stores an explicit zero at (0,3). *)
Definition with_stored_zero : YALE_STORAGE :=
  mkYale 2 (2, 4) 6 3 [3; 5; 6; 1; 3; 0] [1; 1; 0; 5; 0; 7] 0.
Definition without_stored_zero : YALE_STORAGE :=
  mkYale 2 (2, 4) 6 2 [3; 4; 5; 1; 0; 0] [1; 1; 0; 5; 7; 0] 0.

(** Two descriptors of shape 2x4 that differ at the cell (0,3), which holds 9
    in the first and is not stored in the second; row 1 of both is an
    explicit zero at (1,0). *)
Definition with_nine : YALE_STORAGE :=
  mkYale 2 (2, 4) 6 3 [3; 5; 6; 1; 3; 0] [1; 1; 0; 5; 9; 0] 0.
Definition without_nine : YALE_STORAGE :=
  mkYale 2 (2, 4) 6 2 [3; 4; 5; 1; 0; 0] [1; 1; 0; 5; 0; 0] 0.

(** A 1x4 matrix with diagonal 11 and the entries (0,2) = 22 and (0,3) = 33,
    whose buffers are full: capacity and in-use length are 4. *)
Definition full_1x4 : YALE_STORAGE :=
  mkYale 2 (1, 4) 4 2 [2; 4; 2; 3] [11; 0; 22; 33] 0.

(** Whether row [i] of an old-Yale input [(IA, JA)] has an explicit entry on
    the diagonal. *)
Definition row_has_diagonal (ir jr : list Z) (i : Z) : bool :=
  match rd ir i, rd ir (i + 1) with
  | Ok p0, Ok p_next =>
    existsb (fun p => match rd jr p with
                      | Ok c => c =? i
                      | Err _ => false
                      end)
            (seqZ p0 (p_next - p0))
  | _, _ => false
  end.

(** An allocator whose fresh cell [n] holds [base + n]. *)
Definition marked (base : Z) (n : nat) : Z := base + Z.of_nat n.

(** Well-formed descriptors: the capacity is a [size_t] and the buffers have
    that length, the in-use length fits in it, [ndnz] counts the entries
    behind the zero slot, and every row [i] has its pointers in order behind
    the zero slot and within the in-use length (I2), strictly increasing
    columns (I1) that are columns of the shape and not [i] (I4). *)
Definition well_formed_row (s : YALE_STORAGE) (size i : Z) : bool :=
  match rd (ija s) i, rd (ija s) (i + 1), row_cols s i with
  | Ok lo, Ok hi, Ok cols =>
    ((shape s).1 + 1 <=? lo) && (lo <=? hi) && (hi <=? size) &&
    strictly_increasing cols &&
    forallb (fun c => (0 <=? c) && (c <? (shape s).2) && negb (c =? i)) cols
  | _, _, _ => false
  end.

Definition well_formed (s : YALE_STORAGE) : bool :=
  (0 <=? (shape s).1) && (0 <=? (shape s).2) &&
  (capacity s <=? 2 ^ 64) &&
  Nat.eqb (length (ija s)) (Z.to_nat (capacity s)) &&
  Nat.eqb (length (a s)) (Z.to_nat (capacity s)) &&
  match get_size s with
  | Ok size =>
    ((shape s).1 + 1 <=? size) && (size <=? capacity s) &&
    (ndnz s =? size - (shape s).1 - 1) &&
    forallb (well_formed_row s size) (seqZ 0 (shape s).1)
  | Err _ => false
  end.

(** No row stores an off-diagonal entry. *)
Definition no_off_diagonal (s : YALE_STORAGE) : bool :=
  forallb (fun i => match row_cols s i with
                    | Ok [] => true
                    | _ => false
                    end) (seqZ 0 (shape s).1).

(** The operand [right] of [create_merged] adds no column to [left]: it is
    [left] itself, or a well-formed descriptor of the same shape without
    off-diagonal entries. *)
Definition adds_no_column (left : YALE_STORAGE) (right : right_ptr) : bool :=
  match right with
  | RNull => false
  | RLeft => true
  | ROther r =>
    well_formed r && no_off_diagonal r &&
    ((shape r).1 =? (shape left).1) && ((shape r).2 =? (shape left).2)
  end.

(** The two operands of the merge scenarios, of shape 2x3 with diagonal
    (1,2): the left one stores (0,1) = 5, the right one stores nothing off
    the diagonal. *)
Definition merge_left : YALE_STORAGE :=
  mkYale 2 (2, 3) 5 1 [3; 4; 4; 1; 0] [1; 2; 0; 5; 0] 0.
Definition merge_right : YALE_STORAGE :=
  mkYale 2 (2, 3) 5 0 [3; 3; 3; 0; 0] [1; 2; 0; 0; 0] 0.

(** A right operand of shape 2x3 that stores (0,2) = 7. *)
Definition merge_right_col2 : YALE_STORAGE :=
  mkYale 2 (2, 3) 5 1 [3; 4; 4; 2; 0] [1; 2; 0; 7; 0] 0.

(** The states of the scenarios S2 and S3 of the specification in buffers of
    [c] cells: the in-use cells, followed by what the allocator left in the
    rest. *)
Definition scenario_S2 (junk_ija junk_a : nat -> Z) (c : Z) (e : nat)
    : YALE_STORAGE :=
  mkYale 2 (3, 3) c 1
    ([4; 5; 5; 5; 2] ++ drop 5 (ALLOC_N junk_ija c))
    ([1; 2; 3; 0; 7] ++ drop 5 (ALLOC_N junk_a c)) e.

Definition scenario_S3 (junk_ija junk_a : nat -> Z) (c : Z) (e : nat)
    : YALE_STORAGE :=
  mkYale 2 (3, 3) c 2
    ([4; 6; 6; 6; 1; 2] ++ drop 6 (ALLOC_N junk_ija c))
    ([1; 2; 3; 0; 5; 7] ++ drop 6 (ALLOC_N junk_a c)) e.

(** Strictly increasing entries of a buffer between two positions. *)
Definition sorted_range (l : list Z) (lo hi : Z) : Prop :=
  forall i j x y,
    lo <= i -> i < j -> j < hi -> rd l i = Ok x -> rd l j = Ok y -> x < y.

(** The fields that an insertion in place leaves alone. *)
Definition same_frame (s s' : YALE_STORAGE) : Prop :=
  dim s' = dim s /\ shape s' = shape s /\ capacity s' = capacity s /\
  ndnz s' = ndnz s /\ epoch s' = epoch s /\
  length (ija s') = length (ija s) /\ length (a s') = length (a s).

(** The invariants of the layout, position by position: I2 on the row
    pointers, I1 and I4 on the entries of every row. *)
Record layout (s : YALE_STORAGE) (size : Z) : Prop := mkLayout {
  lay_rows : 0 <= (shape s).1;
  lay_cap : capacity s <= 2 ^ 64;
  lay_len_ija : length (ija s) = Z.to_nat (capacity s);
  lay_len_a : length (a s) = Z.to_nat (capacity s);
  lay_size : get_size s = Ok size;
  lay_bounds : (shape s).1 + 1 <= size <= capacity s;
  lay_ndnz : ndnz s = size - (shape s).1 - 1;
  lay_ptr : forall i, 0 <= i <= (shape s).1 ->
    exists p, rd (ija s) i = Ok p /\ (shape s).1 + 1 <= p <= size;
  lay_mono : forall i p q, 0 <= i < (shape s).1 ->
    rd (ija s) i = Ok p -> rd (ija s) (i + 1) = Ok q -> p <= q;
  lay_sorted : forall i p q, 0 <= i < (shape s).1 ->
    rd (ija s) i = Ok p -> rd (ija s) (i + 1) = Ok q ->
    sorted_range (ija s) p q;
  lay_cols : forall i p q k x, 0 <= i < (shape s).1 ->
    rd (ija s) i = Ok p -> rd (ija s) (i + 1) = Ok q ->
    p <= k < q -> rd (ija s) k = Ok x ->
    0 <= x < (shape s).2 /\ x <> i
}.

(** The descriptor after the insertion of column [c] with value [v] at
    position [pos] of row [r], position by position. *)
Definition inserted (s s' : YALE_STORAGE) (r pos c v size : Z) : Prop :=
  dim s' = dim s /\ shape s' = shape s /\ capacity s' = capacity s /\
  ndnz s' = ndnz s + 1 /\
  length (ija s') = length (ija s) /\ length (a s') = length (a s) /\
  (forall k, 0 <= k ->
     rd (ija s') k =
     if k <=? r then rd (ija s) k
     else if k <=? (shape s).1 then x ← rd (ija s) k; Ok (x + 1)
     else if k <? pos then rd (ija s) k
     else if k =? pos then Ok c
     else if k <=? size then rd (ija s) (k - 1)
     else rd (ija s) k) /\
  (forall k, 0 <= k ->
     rd (a s') k =
     if k =? pos then Ok v
     else if (pos + 1 <=? k) && (k <=? size) then rd (a s) (k - 1)
     else rd (a s) k).

(** The cells of a write are cells of the matrix. *)
Definition in_bounds (s : YALE_STORAGE) (w : Z * Z * Z) : Prop :=
  0 <= w.1.1 < (shape s).1 /\ 0 <= w.1.2 < (shape s).2.

(** ** Copy with a change of value type *)


Section Copying.

Variable junk_ija : nat -> Z.
Variable junk_a : nat -> Z.


End Copying.

(** ** Ruby accessors *)

(** Ruby values, as far as the accessors build them: [nil] and integers.
    [rubyobj_from_cval] and [rubyobj_from_cval_by_itype] are declared in
    [data/data.h], which is not among the sources; on the exact integers of
    the embedding both give the Ruby integer. *)
Inductive VALUE : Set :=
| Qnil
| Integer (x : Z).

Definition rubyobj_from_cval (x : Z) : VALUE := Integer x.
Definition rubyobj_from_cval_by_itype (x : Z) : VALUE := Integer x.

(** [vals[i] = v] on a scratch buffer of [VALUE]s. *)
Definition wr_vals (i : Z) (v : VALUE) : M (list VALUE) unit :=
  fun vals =>
    if i <? 0 then Raise Undefined vals
    else match vals !! Z.to_nat i with
         | Some _ => Done tt (<[Z.to_nat i := v]> vals)
         | None => Raise Undefined vals
         end.

(** [rb_ary_new4(n, vals)]: a new array with the first [n] values of
    [vals]. *)
Definition rb_ary_new4 (n : Z) (vals : list VALUE) : res (list VALUE) :=
  if n <=? Z.of_nat (length vals) then Ok (take (Z.to_nat n) vals)
  else Err Undefined.

(** [rb_ary_push(ary, v)]. *)
Definition rb_ary_push (v : VALUE) : M (list VALUE) unit :=
  modify (fun ary => ary ++ [v]).

Section Accessors.

(** Contents of the memory that [ALLOCA_N] hands out. *)
Variable junk_vals : nat -> VALUE.

Definition ALLOCA_N (n : Z) : list VALUE :=
  junk_vals <$> seq 0 (Z.to_nat n).

(** [nm_size]. *)
Definition nm_size (s : YALE_STORAGE) : res VALUE :=
  x ← rd (ija s) (shape s).1;
  Ok (rubyobj_from_cval_by_itype x).

(** [nm_a]. *)
Definition nm_a (s : YALE_STORAGE) : res (list VALUE) :=
  size ← get_size s;
  let vals := ALLOCA_N size in
  vals ← exec (for_range 0 size (fun i =>
                 x ← lift (rd (a s) i);
                 wr_vals i (rubyobj_from_cval x))) vals;
  ary ← rb_ary_new4 size vals;
  exec (for_range size (capacity s) (fun _ => rb_ary_push Qnil)) ary.

(** [nm_d]. *)
Definition nm_d (s : YALE_STORAGE) : res (list VALUE) :=
  let vals := ALLOCA_N (shape s).1 in
  vals ← exec (for_range 0 (shape s).1 (fun i =>
                 x ← lift (rd (a s) i);
                 wr_vals i (rubyobj_from_cval x))) vals;
  rb_ary_new4 (shape s).1 vals.

(** [nm_lu]. *)
Definition nm_lu (s : YALE_STORAGE) : res (list VALUE) :=
  size ← get_size s;
  let vals := ALLOCA_N (wrap64 (capacity s - (shape s).1)) in
  vals ← exec (for_range 0 (wrap64 (size - (shape s).1 - 1)) (fun i =>
                 x ← lift (rd (a s) ((shape s).1 + 1 + i));
                 wr_vals i (rubyobj_from_cval x))) vals;
  ary ← rb_ary_new4 (wrap64 (size - (shape s).1 - 1)) vals;
  exec (for_range size (capacity s) (fun _ => rb_ary_push Qnil)) ary.

(** [nm_ia]. *)
Definition nm_ia (s : YALE_STORAGE) : res (list VALUE) :=
  let vals := ALLOCA_N (wrap64 (capacity s - (shape s).1)) in
  vals ← exec (for_range 0 ((shape s).1 + 1) (fun i =>
                 x ← lift (rd (ija s) i);
                 wr_vals i (rubyobj_from_cval_by_itype x))) vals;
  rb_ary_new4 ((shape s).1 + 1) vals.

(** [nm_ja]. *)
Definition nm_ja (s : YALE_STORAGE) : res (list VALUE) :=
  size ← get_size s;
  let vals := ALLOCA_N (wrap64 (capacity s - (shape s).1)) in
  vals ← exec (for_range 0 (wrap64 (size - (shape s).1 - 1)) (fun i =>
                 x ← lift (rd (ija s) ((shape s).1 + 1 + i));
                 wr_vals i (rubyobj_from_cval_by_itype x))) vals;
  ary ← rb_ary_new4 (wrap64 (size - (shape s).1 - 1)) vals;
  exec (for_range size (capacity s) (fun _ => rb_ary_push Qnil)) ary.

(** [nm_ija]. *)
Definition nm_ija (s : YALE_STORAGE) : res (list VALUE) :=
  size ← get_size s;
  let vals := ALLOCA_N (wrap64 (capacity s - (shape s).1)) in
  vals ← exec (for_range 0 size (fun i =>
                 x ← lift (rd (ija s) i);
                 wr_vals i (rubyobj_from_cval_by_itype x))) vals;
  ary ← rb_ary_new4 size vals;
  exec (for_range size (capacity s) (fun _ => rb_ary_push Qnil)) ary.

End Accessors.

(** Allocator of scratch memory that hands out [nil]. *)
Definition nil_page (_ : nat) : VALUE := Qnil.

(** ** Observations used by the further properties *)

(** The matrix after a sequence of writes to the matrix [m]: at every cell
    the last value written there, and the value of [m] at a cell that was not
    written. *)
Fixpoint written (writes : list (Z * Z * Z)) (m : Z -> Z -> Z) (i j : Z)
    : Z :=
  match writes with
  | [] => m i j
  | (coords, v) :: rest =>
    written rest
      (fun i' j' =>
         if (i' =? coords.1) && (j' =? coords.2) then v else m i' j') i j
  end.

(** ** Old-Yale inputs *)

(** The entries of an old-Yale input [(IA, JA, A)] at the positions
    [p0 .. p) of row [i], as triples (row, column, value) in input order. *)
Definition old_row_part (jr ar : list Z) (i p0 p : Z) : list (Z * Z * Z) :=
  omap (fun q => match rd jr q, rd ar q with
                 | Ok c, Ok v => Some (i, c, v)
                 | _, _ => None
                 end) (seqZ p0 (p - p0)).

(** The entries of row [i]: the positions [IA[i] .. IA[i+1]). *)
Definition old_row (ir jr ar : list Z) (i : Z) : list (Z * Z * Z) :=
  match rd ir i, rd ir (i + 1) with
  | Ok p0, Ok p_next => old_row_part jr ar i p0 p_next
  | _, _ => []
  end.

(** The entries of the rows [0 .. n). *)
Definition old_rows (ir jr ar : list Z) (n : Z) : list (Z * Z * Z) :=
  flat_map (old_row ir jr ar) (seqZ 0 n).

(** The entries off the diagonal, in order. *)
Definition off_diagonal (es : list (Z * Z * Z)) : list (Z * Z * Z) :=
  List.filter (fun e => negb (e.1.1 =? e.1.2)) es.

(** The values of the entries at the diagonal cell of row [i], in order. *)
Definition diagonal_values (i : Z) (es : list (Z * Z * Z)) : list Z :=
  omap (fun e => if (e.1.1 =? i) && (e.1.2 =? i) then Some e.2 else None) es.

(** An old-Yale input whose positions are inside the arrays: [IA] has an
    entry for every row and one more, and the positions of every row are
    positions of [JA] and of [A]. *)
Definition old_yale_ok (rows : Z) (ir jr ar : list Z) : bool :=
  (0 <=? rows) &&
  forallb (fun i =>
    match rd ir i, rd ir (i + 1) with
    | Ok p0, Ok p_next =>
      (0 <=? p0) && (p_next <=? Z.of_nat (length jr)) &&
      (p_next <=? Z.of_nat (length ar))
    | _, _ => false
    end) (seqZ 0 rows).

(** * Properties *)

(** ** Basic facts about the monads and the loops *)

Lemma for_range_nil {St} (lo hi : Z) (body : Z -> M St unit) (s : St) :
  hi <= lo -> for_range lo hi body s = Done tt s.
Proof.
  intros H. unfold for_range.
  replace (Z.to_nat (hi - lo)) with O by lia. reflexivity.
Qed.

Lemma for_count_S {St} (k : nat) (i : Z) (body : Z -> M St unit) (s : St) :
  for_count (S k) i body s =
  match body i s with
  | Done _ s' => for_count k (i + 1) body s'
  | Raise e s' => Raise e s'
  end.
Proof. reflexivity. Qed.

(** An invariant of a loop that ends normally. *)
Lemma for_count_invariant {St} (P : Z -> St -> Prop) (body : Z -> M St unit) :
  (forall i s s', P i s -> body i s = Done tt s' -> P (i + 1) s') ->
  forall k i s s',
    P i s -> for_count k i body s = Done tt s' -> P (i + Z.of_nat k) s'.
Proof.
  intros Hstep k. induction k as [|k IH]; intros i s s' HP Hrun.
  - simpl in Hrun. inversion Hrun; subst.
    replace (i + Z.of_nat 0) with i by lia. exact HP.
  - rewrite for_count_S in Hrun.
    destruct (body i s) as [[] s1|e s1] eqn:Hb; [|discriminate].
    replace (i + Z.of_nat (S k)) with (i + 1 + Z.of_nat k) by lia.
    eapply IH; [|exact Hrun]. eapply Hstep; eauto.
Qed.

(** A loop raises only what its body raises. *)
Lemma for_count_raise {St} (body : Z -> M St unit) (k : nat) :
  forall i s e s',
    for_count k i body s = Raise e s' ->
    exists i0 s0, body i0 s0 = Raise e s'.
Proof.
  induction k as [|k IH]; intros i s e s' Hrun.
  - discriminate.
  - rewrite for_count_S in Hrun.
    destruct (body i s) as [[] s1|e1 s1] eqn:Hb.
    + eapply IH; eauto.
    + inversion Hrun; subst. eauto.
Qed.

Lemma rd_Ok (buf : list Z) (i x : Z) :
  rd buf i = Ok x <-> 0 <= i /\ buf !! Z.to_nat i = Some x.
Proof.
  unfold rd. destruct (i <? 0) eqn:Hi.
  - split; [discriminate|]. intros [H _]. lia.
  - apply Z.ltb_ge in Hi. destruct (buf !! Z.to_nat i) eqn:Hl.
    + split; [intros [= ->]; auto | intros [_ [= ->]]; auto].
    + split; [discriminate | intros [_ [=]]].
Qed.

Lemma rd_Err (buf : list Z) (i : Z) (e : exn) :
  rd buf i = Err e -> e = Undefined.
Proof.
  unfold rd. destruct (i <? 0); [congruence|].
  destruct (buf !! Z.to_nat i); congruence.
Qed.

Lemma wr_Ok (buf : list Z) (i v : Z) (l : list Z) :
  wr buf i v = Ok l <->
  0 <= i < Z.of_nat (length buf) /\ l = <[Z.to_nat i := v]> buf.
Proof.
  unfold wr. destruct (i <? 0) eqn:Hi.
  - split; [discriminate|]. intros [H _]. lia.
  - apply Z.ltb_ge in Hi. destruct (buf !! Z.to_nat i) eqn:Hl.
    + apply lookup_lt_Some in Hl.
      split; [intros [= <-]; split; [lia|auto] | intros [_ ->]; auto].
    + apply lookup_ge_None in Hl.
      split; [discriminate | intros [H _]; lia].
Qed.

Lemma wr_Err (buf : list Z) (i v : Z) (e : exn) :
  wr buf i v = Err e -> e = Undefined.
Proof.
  unfold wr. destruct (i <? 0); [congruence|].
  destruct (buf !! Z.to_nat i); congruence.
Qed.

Lemma rd_in_range (buf : list Z) (i : Z) :
  0 <= i < Z.of_nat (length buf) -> exists x, rd buf i = Ok x.
Proof.
  intros H. destruct (lookup_lt_is_Some_2 buf (Z.to_nat i)) as [x Hx]; [lia|].
  exists x. apply rd_Ok. split; [lia|exact Hx].
Qed.

Lemma length_ALLOC_N (junk : nat -> Z) (n : Z) :
  length (ALLOC_N junk n) = Z.to_nat n.
Proof. unfold ALLOC_N. rewrite length_fmap, length_seq. reflexivity. Qed.

Lemma lookup_ALLOC_N (junk : nat -> Z) (n : Z) (i : nat) :
  (i < Z.to_nat n)%nat -> ALLOC_N junk n !! i = Some (junk i).
Proof.
  intros H. unfold ALLOC_N. rewrite list_lookup_fmap, lookup_seq_lt by lia.
  reflexivity.
Qed.

(** Code that raises no Ruby exception: whatever stops it is an access
    outside a buffer. *)
Definition only_undefined {St A} (m : M St A) : Prop :=
  forall s e s', m s = Raise e s' -> e = Undefined.

Create HintDb undef.

Lemma only_undefined_ret {St A} (x : A) : only_undefined (mret x : M St A).
Proof. intros s e s' H. discriminate. Qed.

Lemma only_undefined_bind {St A B} (m : M St A) (f : A -> M St B) :
  only_undefined m -> (forall x, only_undefined (f x)) ->
  only_undefined (m ≫= f).
Proof.
  intros Hm Hf s e s' H. unfold mbind, M_bind in H.
  destruct (m s) as [x s1|e1 s1] eqn:E.
  - eapply Hf; eauto.
  - inversion H; subst. eapply Hm; eauto.
Qed.

Lemma only_undefined_get {St} : only_undefined (get : M St St).
Proof. intros s e s' H. discriminate. Qed.

Lemma only_undefined_lift_rd {St} (buf : list Z) (i : Z) :
  only_undefined (lift (rd buf i) : M St Z).
Proof.
  intros s e s' H. unfold lift in H.
  destruct (rd buf i) eqn:E; [discriminate|].
  inversion H; subst. eapply rd_Err; eauto.
Qed.

Lemma only_undefined_rd_ija (i : Z) : only_undefined (rd_ija i).
Proof. intros s e s' H. eapply (only_undefined_lift_rd (ija s) i); eauto. Qed.

Lemma only_undefined_rd_a (i : Z) : only_undefined (rd_a i).
Proof. intros s e s' H. eapply (only_undefined_lift_rd (a s) i); eauto. Qed.

Lemma only_undefined_wr_ija (i v : Z) : only_undefined (wr_ija i v).
Proof.
  intros s e s' H. unfold wr_ija in H.
  destruct (wr (ija s) i v) eqn:E; [discriminate|].
  inversion H; subst. eapply wr_Err; eauto.
Qed.

Lemma only_undefined_wr_a (i v : Z) : only_undefined (wr_a i v).
Proof.
  intros s e s' H. unfold wr_a in H.
  destruct (wr (a s) i v) eqn:E; [discriminate|].
  inversion H; subst. eapply wr_Err; eauto.
Qed.

Lemma only_undefined_wr_new_ija (i v : Z) : only_undefined (wr_new_ija i v).
Proof.
  intros s e s' H. unfold wr_new_ija in H.
  destruct (wr s.1 i v) eqn:E; [discriminate|].
  inversion H; subst. eapply wr_Err; eauto.
Qed.

Lemma only_undefined_wr_new_a (i v : Z) : only_undefined (wr_new_a i v).
Proof.
  intros s e s' H. unfold wr_new_a in H.
  destruct (wr s.2 i v) eqn:E; [discriminate|].
  inversion H; subst. eapply wr_Err; eauto.
Qed.

Lemma only_undefined_for_range {St} (lo hi : Z) (body : Z -> M St unit) :
  (forall i, only_undefined (body i)) -> only_undefined (for_range lo hi body).
Proof.
  intros Hb s e s' H. unfold for_range in H.
  apply for_count_raise in H. destruct H as (i0 & s0 & H).
  eapply Hb; eauto.
Qed.

Lemma only_undefined_if {St A} (b : bool) (m1 m2 : M St A) :
  only_undefined m1 -> only_undefined m2 ->
  only_undefined (if b then m1 else m2).
Proof. destruct b; auto. Qed.

#[global] Hint Resolve only_undefined_ret only_undefined_get
  only_undefined_lift_rd only_undefined_rd_ija only_undefined_rd_a
  only_undefined_wr_ija only_undefined_wr_a only_undefined_wr_new_ija
  only_undefined_wr_new_a : undef.

Ltac undef :=
  repeat first
    [ apply only_undefined_bind; [|intros ?]
    | apply only_undefined_for_range; intros ?
    | apply only_undefined_if
    | solve [auto with undef] ].

Lemma only_undefined_resize_copy old_ija old_a current_size pos n so :
  only_undefined (resize_copy old_ija old_a current_size pos n so).
Proof. unfold resize_copy. undef. Qed.

Lemma only_undefined_shift_loop (size pos n : Z) (so : bool) :
  only_undefined
    (if so then
       for_range 0 (wrap64 (size - pos)) (fun i =>
         x ← rd_ija (wrap64 (size - 1 - i));
         wr_ija (wrap64 (size + n - 1 - i)) x)
     else
       for_range 0 (wrap64 (size - pos)) (fun i =>
         x ← rd_ija (wrap64 (size - 1 - i));
         wr_ija (wrap64 (size + n - 1 - i)) x;;
         y ← rd_a (wrap64 (size - 1 - i));
         wr_a (wrap64 (size + n - 1 - i)) y)).
Proof. undef. Qed.

Lemma only_undefined_write_loop (pos n : Z) (j val : list Z) (so : bool) :
  only_undefined
    (if so then
       for_range 0 n (fun i =>
         c ← lift (rd j i); wr_ija (pos + i) c)
     else
       for_range 0 n (fun i =>
         c ← lift (rd j i); wr_ija (pos + i) c;;
         v ← lift (rd val i); wr_a (pos + i) v)).
Proof. undef. Qed.

(** ** Capacity checks of the insertion (claim C8) *)

(** [vector_insert_resize] leaves the descriptor as it was whenever it
    raises, and raises [NoMemError] only after both of its tests. *)
Lemma vector_insert_resize_raise GROWTH junk_ija junk_a s size pos j n so e s' :
  vector_insert_resize GROWTH junk_ija junk_a size pos j n so s = Raise e s' ->
  s' = s /\
  (e = NoMemError /\ NM_YALE_MAX_SIZE s < GROWTH (capacity s)
     /\ NM_YALE_MAX_SIZE s < size + n
   \/ e = Undefined).
Proof.
  unfold vector_insert_resize, mbind, M_bind, get. 
  destruct (NM_YALE_MAX_SIZE s <? GROWTH (capacity s)) eqn:E1.
  - destruct (NM_YALE_MAX_SIZE s <? size + n) eqn:E2.
    + unfold rb_raise. intros [= <- <-]. split; [reflexivity|]. left.
      apply Z.ltb_lt in E1, E2. auto.
    + simpl.
      match goal with |- context [resize_copy ?a ?b ?c ?d ?e ?f ?g] =>
        destruct (resize_copy a b c d e f g) as [[] [ni na]|e1 b1] eqn:Hc end.
      * discriminate.
      * unfold rb_raise. intros [= <- <-]. split; [reflexivity|]. right.
        eapply only_undefined_resize_copy; eauto.
  - simpl.
    match goal with |- context [resize_copy ?a ?b ?c ?d ?e ?f ?g] =>
      destruct (resize_copy a b c d e f g) as [[] [ni na]|e1 b1] eqn:Hc end.
    * discriminate.
    * unfold rb_raise. intros [= <- <-]. split; [reflexivity|]. right.
      eapply only_undefined_resize_copy; eauto.
Qed.

(** Claim C8, as amended.  For an insertion of [n] entries at a position
    [pos >= rows] into a descriptor of in-use length [size]: the insertion
    fails with CapacityExceeded ([NoMemError]) exactly when it needs a resize
    ([size + n > capacity]), the grown capacity exceeds the maximum size
    [rows*cols + 1], and [size + n] exceeds the maximum size; the descriptor
    is then unchanged.  In particular CapacityExceeded is not raised when
    [size + n] does not exceed the maximum size. *)
Theorem vector_insert_NoMemError GROWTH junk_ija junk_a s pos j val n so size :
  get_size s = Ok size ->
  (shape s).1 <= pos ->
  (capacity s < size + n ->
   NM_YALE_MAX_SIZE s < GROWTH (capacity s) ->
   NM_YALE_MAX_SIZE s < size + n ->
   vector_insert GROWTH junk_ija junk_a pos j val n so s = Raise NoMemError s)
  /\
  (forall s',
     vector_insert GROWTH junk_ija junk_a pos j val n so s
       = Raise NoMemError s' ->
     s' = s /\ capacity s < size + n
     /\ NM_YALE_MAX_SIZE s < GROWTH (capacity s)
     /\ NM_YALE_MAX_SIZE s < size + n)
  /\
  (size + n <= NM_YALE_MAX_SIZE s ->
   forall s',
     vector_insert GROWTH junk_ija junk_a pos j val n so s
       <> Raise NoMemError s').
Proof.
  intros Hsize Hpos.
  assert (Hshape : (pos <? (shape s).1) = false) by (apply Z.ltb_ge; lia).
  assert (Hii : forall s',
     vector_insert GROWTH junk_ija junk_a pos j val n so s
       = Raise NoMemError s' ->
     s' = s /\ capacity s < size + n
     /\ NM_YALE_MAX_SIZE s < GROWTH (capacity s)
     /\ NM_YALE_MAX_SIZE s < size + n).
  { intros s'. unfold vector_insert.
    unfold mbind at 1, M_bind at 1, get at 1. rewrite Hshape.
    unfold mbind at 1, M_bind at 1. rewrite Hsize. unfold lift at 1.
    destruct (capacity s <? size + n) eqn:Hcap.
    - unfold mbind at 1, M_bind at 1. unfold mbind at 1, M_bind at 1.
      destruct (vector_insert_resize GROWTH junk_ija junk_a size pos j n so s)
        as [c s1|e s1] eqn:Hr.
      + simpl. unfold mbind at 1, M_bind at 1.
        match goal with |- context [match ?m s1 with _ => _ end] =>
          destruct (m s1) as [[] s2|e2 s2] eqn:Hw end.
        * discriminate.
        * intros [= -> <-].
          apply (only_undefined_write_loop pos n j val so) in Hw. discriminate.
      + intros [= -> <-].
        apply vector_insert_resize_raise in Hr.
        destruct Hr as [-> [(_ & H1 & H2)|?]]; [|discriminate].
        apply Z.ltb_lt in Hcap. auto.
    - unfold mbind at 1, M_bind at 1.
      match goal with |- context [match ?m s with _ => _ end] =>
        destruct (m s) as [[] s1|e1 s1] eqn:Hsh end.
      + unfold mbind at 1, M_bind at 1.
        match goal with |- context [match ?m s1 with _ => _ end] =>
          destruct (m s1) as [[] s2|e2 s2] eqn:Hw end.
        * discriminate.
        * intros [= -> <-].
          apply (only_undefined_write_loop pos n j val so) in Hw. discriminate.
      + intros [= -> <-].
        apply (only_undefined_shift_loop size pos n so) in Hsh. discriminate. }
  split; [|split].
  - intros H1 H2 H3. unfold vector_insert.
    unfold mbind at 1, M_bind at 1, get at 1. rewrite Hshape.
    unfold mbind at 1, M_bind at 1. rewrite Hsize. unfold lift at 1.
    apply Z.ltb_lt in H1, H2, H3. rewrite H1.
    unfold vector_insert_resize, mbind, M_bind, get. rewrite H2, H3.
    reflexivity.
  - exact Hii.
  - intros Hle s' H. apply Hii in H. lia.
Qed.

(** Witness of [vector_insert_NoMemError]: one more entry in the full 2x2
    matrix. *)
Lemma vector_insert_NoMemError_witness :
  get_size full_2x2 = Ok 5 /\ (shape full_2x2).1 <= 5 /\
  vector_insert growth_1_5 zero_page zero_page 5 [0] [9] 1 false full_2x2
    = Raise NoMemError full_2x2.
Proof.
  split; [reflexivity|]. split; [simpl; lia|].
  apply (vector_insert_NoMemError growth_1_5 zero_page zero_page
           full_2x2 5 [0] [9] 1 false 5);
    [reflexivity | simpl; lia | simpl; lia | vm_compute; reflexivity
    | vm_compute; reflexivity].
Defined.

(** [empty_2x1] is reached through the interface: creation with a request
    of 4 cells, which is raised to the minimum 5, and initialization. *)
Lemma empty_2x1_reached :
  (s ← nm_yale_storage_create zero_page zero_page minimum_2r1 dense_cells
         (2, 1) 2 4;
   exec init s)
  = Ok empty_2x1.
Proof. vm_compute. reflexivity. Qed.

(** Claim C8 as stated fails: in the 2x1 matrix of capacity 5 the cell (1,0)
    is written although [size + 1 = 4] exceeds the maximum size 3, because no
    resize is needed and the test is never reached. *)
Lemma capacity_check_skipped_without_resize :
  get_size empty_2x1 = Ok 3 /\
  NM_YALE_MAX_SIZE empty_2x1 < 3 + 1 /\
  set growth_1_5 zero_page zero_page (1, 0) 9 empty_2x1
    = Done "i"%char
        (mkYale 2 (2, 1) 5 1 [3; 3; 4; 0; 0] [0; 0; 0; 9; 0] 0) /\
  ~ (NM_YALE_MAX_SIZE empty_2x1 < 3 + 1 ->
     exists s', set growth_1_5 zero_page zero_page (1, 0) 9 empty_2x1
                = Raise NoMemError s').
Proof.
  split; [reflexivity|]. split; [vm_compute; reflexivity|].
  split; [vm_compute; reflexivity|].
  intros H. destruct H as [s' H]; [vm_compute; reflexivity|].
  vm_compute in H. discriminate.
Qed.

(** ** Creation (claim C9) *)

(** What [nm_yale_storage_create] computes for a rank-2 shape, whatever the
    two missing parameters are: the request, raised to the minimum when it is
    below it, and otherwise cut at
    [nm_storage_count_max_elements(s) - rows + 1]. *)
Lemma create_capacity junk_ija junk_a MIN count shape0 init_capacity :
  exists s,
    nm_yale_storage_create junk_ija junk_a MIN count shape0 2 init_capacity
      = Ok s /\
    shape s = shape0 /\
    Z.of_nat (length (ija s)) = Z.max 0 (capacity s) /\
    Z.of_nat (length (a s)) = Z.max 0 (capacity s) /\
    capacity s =
      (let s0 := alloc shape0 2 in
       let max_capacity := wrap64 (count s0 - shape0.1 + 1) in
       if init_capacity <? MIN s0 then MIN s0
       else if max_capacity <? init_capacity then max_capacity
       else init_capacity).
Proof.
  unfold nm_yale_storage_create. simpl.
  eexists. split; [reflexivity|].
  destruct (init_capacity <? MIN (alloc shape0 2));
    [|destruct (wrap64 (count (alloc shape0 2) - shape0.1 + 1)
               <? init_capacity)];
    simpl; rewrite !length_ALLOC_N; repeat split; lia.
Qed.

(** Claim C9 at a 4x4 shape with a request of 100 cells: the capacity is
    [16 - 4 + 1 = 13], above the minimum 9 and below the maximum size
    [4*4 + 1 = 17] of the header comment of the file and of
    [vector_insert_resize]. *)
Theorem create_caps_below_max_size :
  exists s,
    nm_yale_storage_create zero_page zero_page minimum_2r1 dense_cells
      (4, 4) 2 100 = Ok s /\
    capacity s = 13 /\
    minimum_2r1 s = 9 /\
    NM_YALE_MAX_SIZE s = 17.
Proof. eexists. split; [reflexivity|]. repeat split; reflexivity. Qed.

(** ** Equality (claims C5 and C6) *)

(** Claim C5 at the pair [with_stored_zero], [without_stored_zero]: the two
    descriptors denote the same function of the cell, and [eqeq] returns
    false in both orders.  With the stored zero on the left, the walk takes
    the branch for a smaller right column after the right row has ended and
    reads the first value of the next row; with the stored zero on the right,
    the end of the right row sets [l_no_more] and the walk reads on. *)
Theorem eqeq_rejects_same_function :
  well_formed with_stored_zero = true /\
  well_formed without_stored_zero = true /\
  same_cells with_stored_zero without_stored_zero = true /\
  eqeq with_stored_zero without_stored_zero = Ok false /\
  eqeq without_stored_zero with_stored_zero = Ok false.
Proof. repeat split; vm_compute; reflexivity. Qed.

(** [without_stored_zero] is reached through the interface: creation with a
    request of 6 cells, initialization and four writes. *)
Lemma without_stored_zero_reached :
  (s ← nm_yale_storage_create zero_page zero_page minimum_2r1 dense_cells
         (2, 4) 2 6;
   exec (init;;
         set_all growth_1_5 zero_page zero_page
           [((0, 0), 1); ((1, 1), 1); ((0, 1), 5); ((1, 0), 7)]) s)
  = Ok without_stored_zero.
Proof. vm_compute. reflexivity. Qed.

(** When the longer row is the last one and the buffers are full, the walk
    reads past the end of the value buffer: [eqeq] has no defined result on
    two well-formed 1x4 descriptors that denote the same function. *)
Lemma eqeq_reads_outside_buffer :
  let L := mkYale 2 (1, 4) 4 2 [2; 4; 1; 3] [1; 0; 5; 0] 0 in
  let R := mkYale 2 (1, 4) 3 1 [2; 3; 1] [1; 0; 5] 0 in
  well_formed L = true /\ well_formed R = true /\
  same_cells L R = true /\
  eqeq L R = Err Undefined /\ eqeq R L = Err Undefined.
Proof. repeat split; vm_compute; reflexivity. Qed.

(** The converse direction fails as well: [eqeq] accepts two descriptors that
    differ at the cell (0,3). *)
Lemma eqeq_accepts_different_functions :
  cell with_nine 0 3 = Ok 9 /\
  cell without_nine 0 3 = Ok 0 /\
  eqeq with_nine without_nine = Ok true.
Proof. repeat split; vm_compute; reflexivity. Qed.

(** Claim C6 at the cell (0,3) of [without_stored_zero]: writing the numeric
    zero there stores an explicit zero, and [eqeq] between the matrix so
    obtained and the matrix in which the cell was never set returns false. *)
Theorem eqeq_rejects_stored_zero :
  set growth_1_5 zero_page zero_page (0, 3) 0 without_stored_zero
    = Done "i"%char with_stored_zero /\
  eqeq with_stored_zero without_stored_zero = Ok false.
Proof. split; vm_compute; reflexivity. Qed.

(** The scenario S6 of the specification itself holds: a stored zero at (0,1)
    is the first entry of its row, where the walk handles it. *)
Lemma eqeq_stored_zero_at_0_1 :
  let B := mkYale 2 (2, 4) 6 2 [3; 4; 5; 2; 0; 0] [1; 1; 0; 5; 7; 0] 0 in
  let A := mkYale 2 (2, 4) 6 3 [3; 5; 6; 1; 2; 0] [1; 1; 0; 0; 5; 7] 0 in
  set growth_1_5 zero_page zero_page (0, 1) 0 B = Done "i"%char A /\
  eqeq A B = Ok true /\ eqeq B A = Ok true.
Proof. repeat split; vm_compute; reflexivity. Qed.

(** ** Round trip and row order under a resize (claims C1 and C2) *)

(** [full_1x4] is reached through the interface: creation with a request of
    4 cells, initialization and three writes. *)
Lemma full_1x4_reached :
  (s ← nm_yale_storage_create zero_page zero_page minimum_2r1 dense_cells
         (1, 4) 2 4;
   exec (init;;
         set_all growth_1_5 zero_page zero_page
           [((0, 0), 11); ((0, 2), 22); ((0, 3), 33)]) s)
  = Ok full_1x4.
Proof. vm_compute. reflexivity. Qed.

(** The resize of [vector_insert_resize] loses the entries behind the
    insertion position: whatever the growth function and the fresh memory
    are, after [set((0,1), 9)] on [full_1x4] the columns 2 and 3 and their
    values are gone and the fresh memory shows in their place. *)
Lemma resize_drops_tail (GROWTH : Z -> Z) (junk_ija junk_a : nat -> Z) :
  set GROWTH junk_ija junk_a (0, 1) 9 full_1x4
  = Done "i"%char
      (mkYale 2 (1, 4) 5 3
         [2; 5; 1; junk_ija 3%nat; junk_ija 4%nat]
         [11; 0; 9; junk_a 3%nat; junk_a 4%nat] 1).
Proof.
  unfold set, vector_insert, vector_insert_resize. simpl.
  unfold mbind, M_bind. simpl.
  change (NM_YALE_MAX_SIZE full_1x4) with 5.
  destruct (5 <? GROWTH 4) eqn:E; simpl.
  - reflexivity.
  - apply Z.ltb_ge in E. change (4 + 1) with 5.
    destruct (GROWTH 4 <? 5) eqn:E2; simpl; [reflexivity|].
    apply Z.ltb_ge in E2. assert (GROWTH 4 = 5) as -> by lia. reflexivity.
Qed.

(** Claim C1 at [full_1x4], with zero-filled fresh memory: [set((0,1), 9)]
    returns ['i'], and [ref((0,1))] then yields the handle of the zero slot
    [a[1]], whose value is 0. *)
Theorem set_ref_broken_by_resize :
  well_formed full_1x4 = true /\
  exists s,
    set growth_1_5 zero_page zero_page (0, 1) 9 full_1x4 = Done "i"%char s /\
    ref s (0, 1) = Ok 1 /\
    read_cell s (0, 1) = Ok 0.
Proof.
  split; [vm_compute; reflexivity|].
  eexists. split; [vm_compute; reflexivity|]. split; reflexivity.
Qed.

(** Claim C2 on a fresh 1x4 descriptor, with zero-filled fresh memory: after
    four writes at in-bounds cells the column indices of row 0 are
    [1; 0; 0]. *)
Theorem rows_unsorted_after_resize :
  exists s0 s,
    nm_yale_storage_create zero_page zero_page minimum_2r1 dense_cells
      (1, 4) 2 4 = Ok s0 /\
    exec (init;;
          set_all growth_1_5 zero_page zero_page
            [((0, 0), 11); ((0, 2), 22); ((0, 3), 33); ((0, 1), 9)]) s0
      = Ok s /\
    (cols ← row_cols s 0; Ok (strictly_increasing cols)) = Ok false /\
    row_cols s 0 = Ok [1; 0; 0].
Proof.
  eexists. eexists. split; [reflexivity|].
  split; [vm_compute; reflexivity|]. split; reflexivity.
Qed.

(** ** What the resize copies (claim C3) *)

Lemma rd_wr_eq (buf l : list Z) (i v : Z) :
  wr buf i v = Ok l -> rd l i = Ok v.
Proof.
  intros H. apply wr_Ok in H. destruct H as [Hi ->].
  apply rd_Ok. split; [lia|]. apply list_lookup_insert_eq. lia.
Qed.

Lemma rd_wr_ne (buf l : list Z) (i v k : Z) :
  wr buf i v = Ok l -> 0 <= k -> k <> i -> rd l k = rd buf k.
Proof.
  intros H Hk Hne. apply wr_Ok in H. destruct H as [Hi ->].
  unfold rd. destruct (k <? 0); [reflexivity|].
  rewrite list_lookup_insert_ne by lia. reflexivity.
Qed.

Lemma wr_new_ija_Done (i v : Z) (b b' : new_bufs) :
  wr_new_ija i v b = Done tt b' -> wr b.1 i v = Ok b'.1 /\ b'.2 = b.2.
Proof.
  unfold wr_new_ija. destruct (wr b.1 i v); [|discriminate].
  intros [= <-]. auto.
Qed.

Lemma wr_new_a_Done (i v : Z) (b b' : new_bufs) :
  wr_new_a i v b = Done tt b' -> wr b.2 i v = Ok b'.2 /\ b'.1 = b.1.
Proof.
  unfold wr_new_a. destruct (wr b.2 i v); [|discriminate].
  intros [= <-]. auto.
Qed.

(** One iteration of a copy loop of the resize: [new_ija[k] = old_ija[i]],
    and with values [new_a[k] = old_a[i]]. *)
Lemma copy_step_ija (old_ija : list Z) (i k : Z) (b b' : new_bufs) :
  (x ← lift (rd old_ija i); wr_new_ija k x) b = Done tt b' ->
  exists x, rd old_ija i = Ok x /\ wr b.1 k x = Ok b'.1 /\ b'.2 = b.2.
Proof.
  unfold mbind, M_bind, lift. destruct (rd old_ija i) as [x|]; [|discriminate].
  intros H. apply wr_new_ija_Done in H. eauto.
Qed.

Lemma copy_step_both (old_ija old_a : list Z) (i k : Z) (b b' : new_bufs) :
  (x ← lift (rd old_ija i); wr_new_ija k x;;
   y ← lift (rd old_a i); wr_new_a k y) b = Done tt b' ->
  exists x y,
    rd old_ija i = Ok x /\ wr b.1 k x = Ok b'.1 /\
    rd old_a i = Ok y /\ wr b.2 k y = Ok b'.2.
Proof.
  unfold mbind, M_bind, lift. destruct (rd old_ija i) as [x|]; [|discriminate].
  destruct (wr_new_ija k x b) as [[] b1|] eqn:H1; [|discriminate].
  apply wr_new_ija_Done in H1. destruct H1 as [H1 H1'].
  destruct (rd old_a i) as [y|]; [|discriminate].
  intros H2. apply wr_new_a_Done in H2. destruct H2 as [H2 H2'].
  exists x, y. rewrite H1' in H2. rewrite H2'. auto.
Qed.

(** The prefix that the two loops of the resize leave in the new buffers. *)
Lemma resize_copy_prefix (old_ija old_a : list Z) (current_size pos n : Z)
    (struct_only : bool) (b b' : new_bufs) :
  0 <= n ->
  resize_copy old_ija old_a current_size pos n struct_only b = Done tt b' ->
  (forall i, 0 <= i < pos -> rd b'.1 i = rd old_ija i) /\
  (struct_only = false -> forall i, 0 <= i < pos -> rd b'.2 i = rd old_a i) /\
  (struct_only = true -> b'.2 = b.2).
Proof.
  intros Hn. unfold resize_copy. unfold mbind at 1, M_bind at 1.
  destruct struct_only.
  - (* structure only *)
    destruct (for_range 0 pos _ b) as [[] b1|] eqn:H1; [|discriminate].
    intros H2.
    pose (P := fun (k : Z) (st : new_bufs) =>
      (forall i, 0 <= i < k -> rd st.1 i = rd old_ija i) /\ st.2 = b.2).
    assert (P1 : P (0 + Z.of_nat (Z.to_nat (pos - 0))) b1).
    { unfold for_range in H1.
      eapply (for_count_invariant P);
        [|split; [intros; lia|reflexivity]|exact H1].
      intros k st st' [HP Hs] Hb. apply copy_step_ija in Hb.
      destruct Hb as (x & Hx & Hw & Hs'). split; [|congruence].
      intros i Hi. destruct (decide (i = k)) as [->|Hne].
      - rewrite Hx. eapply rd_wr_eq; eauto.
      - rewrite (rd_wr_ne _ _ _ _ _ Hw) by lia. apply HP. lia. }
    pose (Q := fun (k : Z) (st : new_bufs) =>
      pos <= k /\
      (forall i, 0 <= i < pos -> rd st.1 i = rd old_ija i) /\ st.2 = b.2).
    assert (Q1 : Q (pos + Z.of_nat (Z.to_nat
                      (wrap64 (current_size - pos + n - 1) - pos))) b').
    { unfold for_range in H2.
      eapply (for_count_invariant Q); [| |exact H2].
      - intros k st st' (Hk & HP & Hs) Hb. apply copy_step_ija in Hb.
        destruct Hb as (x & Hx & Hw & Hs'). split; [lia|]. split; [|congruence].
        intros i Hi. rewrite (rd_wr_ne _ _ _ _ _ Hw) by lia. apply HP. lia.
      - destruct P1 as [HP Hs]. split; [lia|]. split; [|exact Hs].
        intros i Hi. apply HP. lia. }
    destruct Q1 as (_ & HQ & Hs). split; [exact HQ|]. split; [discriminate|].
    intros _. exact Hs.
  - (* structure and values *)
    destruct (for_range 0 pos _ b) as [[] b1|] eqn:H1; [|discriminate].
    intros H2.
    pose (P := fun (k : Z) (st : new_bufs) =>
      (forall i, 0 <= i < k -> rd st.1 i = rd old_ija i) /\
      (forall i, 0 <= i < k -> rd st.2 i = rd old_a i)).
    assert (P1 : P (0 + Z.of_nat (Z.to_nat (pos - 0))) b1).
    { unfold for_range in H1.
      eapply (for_count_invariant P); [|split; intros; lia|exact H1].
      intros k st st' [HP HPa] Hb. apply copy_step_both in Hb.
      destruct Hb as (x & y & Hx & Hw & Hy & Hwa).
      split; intros i Hi; (destruct (decide (i = k)) as [->|Hne]).
      - rewrite Hx. eapply rd_wr_eq; eauto.
      - rewrite (rd_wr_ne _ _ _ _ _ Hw) by lia. apply HP. lia.
      - rewrite Hy. eapply rd_wr_eq; eauto.
      - rewrite (rd_wr_ne _ _ _ _ _ Hwa) by lia. apply HPa. lia. }
    pose (Q := fun (k : Z) (st : new_bufs) =>
      pos <= k /\
      (forall i, 0 <= i < pos -> rd st.1 i = rd old_ija i) /\
      (forall i, 0 <= i < pos -> rd st.2 i = rd old_a i)).
    assert (Q1 : Q (pos + Z.of_nat (Z.to_nat
                      (wrap64 (current_size - pos + n - 1) - pos))) b').
    { unfold for_range in H2.
      eapply (for_count_invariant Q); [| |exact H2].
      - intros k st st' (Hk & HP & HPa) Hb. apply copy_step_both in Hb.
        destruct Hb as (x & y & Hx & Hw & Hy & Hwa). split; [lia|].
        split; intros i Hi.
        + rewrite (rd_wr_ne _ _ _ _ _ Hw) by lia. apply HP. lia.
        + rewrite (rd_wr_ne _ _ _ _ _ Hwa) by lia. apply HPa. lia.
      - destruct P1 as [HP HPa]. split; [lia|].
        split; intros i Hi; [apply HP|apply HPa]; lia. }
    destruct Q1 as (_ & HQ & HQa). split; [exact HQ|].
    split; [intros _; exact HQa|discriminate].
Qed.

(** The shape of a normal return of [vector_insert_resize]. *)
Lemma vector_insert_resize_Done GROWTH junk_ija junk_a s size pos j n so c s' :
  vector_insert_resize GROWTH junk_ija junk_a size pos j n so s = Done c s' ->
  c = "i"%char /\
  size + n <= capacity s' /\
  shape s' = shape s /\ dim s' = dim s /\ ndnz s' = ndnz s /\
  epoch s' = S (epoch s) /\
  resize_copy (ija s) (a s) size pos n so
    (ALLOC_N junk_ija (capacity s'), ALLOC_N junk_a (capacity s'))
    = Done tt (ija s', a s').
Proof.
  unfold vector_insert_resize. unfold mbind at 1, M_bind at 1, get at 1.
  unfold mbind at 1, M_bind at 1.
  assert (Hgen : forall nc0,
    match
      resize_copy (ija s) (a s) size pos n so
        (ALLOC_N junk_ija (if nc0 <? size + n then size + n else nc0),
         ALLOC_N junk_a (if nc0 <? size + n then size + n else nc0))
    with
    | Done _ (new_ija, new_a) =>
      put (mkYale (dim s) (shape s)
             (if nc0 <? size + n then size + n else nc0) (ndnz s)
             new_ija new_a (S (epoch s)));;
      mret "i"%char
    | Raise e _ => rb_raise e
    end s = Done c s' ->
    c = "i"%char /\ size + n <= capacity s' /\
    shape s' = shape s /\ dim s' = dim s /\ ndnz s' = ndnz s /\
    epoch s' = S (epoch s) /\
    resize_copy (ija s) (a s) size pos n so
      (ALLOC_N junk_ija (capacity s'), ALLOC_N junk_a (capacity s'))
      = Done tt (ija s', a s')).
  { intros nc0.
    destruct (resize_copy _ _ _ _ _ _ _) as [[] [ni na]|] eqn:Hc;
      [|discriminate].
    unfold mbind, M_bind, put, mret, M_ret. intros [= <- <-]. simpl.
    repeat split; auto.
    destruct (nc0 <? size + n) eqn:E; [lia|apply Z.ltb_ge in E; lia]. }
  destruct (NM_YALE_MAX_SIZE s <? GROWTH (capacity s)).
  - destruct (NM_YALE_MAX_SIZE s <? size + n); [discriminate|].
    apply Hgen.
  - apply Hgen.
Qed.

(** Claim C3, as amended.  When [vector_insert_resize] returns, the new index
    buffer holds [ija[0..pos)] verbatim; with [struct_only = false] the new
    value buffer holds [a[0..pos)] verbatim; with [struct_only = true] no
    value is copied and the new value buffer is as the allocator left it. *)
Theorem resize_copies_prefix GROWTH junk_ija junk_a s size pos j n so c s' :
  0 <= n ->
  vector_insert_resize GROWTH junk_ija junk_a size pos j n so s = Done c s' ->
  (forall i, 0 <= i < pos -> rd (ija s') i = rd (ija s) i) /\
  (so = false -> forall i, 0 <= i < pos -> rd (a s') i = rd (a s) i) /\
  (so = true -> a s' = ALLOC_N junk_a (capacity s')).
Proof.
  intros Hn H. apply vector_insert_resize_Done in H.
  destruct H as (_ & _ & _ & _ & _ & _ & Hc).
  apply (resize_copy_prefix _ _ _ _ _ _ _ _ Hn) in Hc. exact Hc.
Qed.

(** Witness of [resize_copies_prefix]: the resize for an insertion at
    position 2 of [full_1x4]. *)
Lemma resize_copies_prefix_witness :
  let s' := mkYale 2 (1, 4) 5 2 [2; 4; 0; 0; 0] [11; 0; 0; 0; 0] 1 in
  0 <= 1 /\
  vector_insert_resize growth_1_5 zero_page zero_page 4 2 [1] 1 false
    full_1x4 = Done "i"%char s' /\
  (forall i, 0 <= i < 2 -> rd (ija s') i = rd (ija full_1x4) i) /\
  (false = false ->
   forall i, 0 <= i < 2 -> rd (a s') i = rd (a full_1x4) i) /\
  (false = true -> a s' = ALLOC_N zero_page (capacity s')).
Proof.
  intros s'. split; [lia|]. split; [vm_compute; reflexivity|].
  apply (resize_copies_prefix growth_1_5 zero_page zero_page full_1x4
           4 2 [1] 1 false "i"%char s');
    [lia | vm_compute; reflexivity].
Defined.

(** Claim C3 as stated fails for [struct_only = true]: the resize for an
    insertion at position 2 of [full_1x4] copies no value, so that the
    diagonal slot [a[0]] of the new buffer is not the 11 of the old one. *)
Lemma resize_struct_only_copies_no_value :
  exists s',
    vector_insert_resize growth_1_5 zero_page zero_page 4 2 [1] 1 true
      full_1x4 = Done "i"%char s' /\
    rd (a full_1x4) 0 = Ok 11 /\
    rd (a s') 0 = Ok 0 /\
    ~ (forall i, 0 <= i < 2 -> rd (a s') i = rd (a full_1x4) i).
Proof.
  eexists. split; [vm_compute; reflexivity|].
  split; [reflexivity|]. split; [reflexivity|].
  intros H. specialize (H 0 ltac:(lia)). vm_compute in H. discriminate.
Qed.

(** The copy of the entries behind the insertion position stops at
    [current_size - pos + n - 1] instead of [current_size]: in the resize
    for an insertion at position 2 of [full_1x4] the loop runs from 2 to
    [4 - 2 + 1 - 1 = 2], and the columns 2 and 3 of the old buffer do not
    reach the positions 3 and 4 of the new one, whatever the mode. *)
Lemma resize_drops_entries_behind_pos (struct_only : bool) :
  exists s',
    vector_insert_resize growth_1_5 (marked 100) (marked 200) 4 2 [1] 1
      struct_only full_1x4 = Done "i"%char s' /\
    rd (ija full_1x4) 2 = Ok 2 /\ rd (ija s') 3 = Ok 103 /\
    rd (ija full_1x4) 3 = Ok 3 /\ rd (ija s') 4 = Ok 104.
Proof.
  destruct struct_only; eexists;
    (split; [vm_compute; reflexivity|repeat split; reflexivity]).
Qed.

(** ** Import from old Yale (claim C10) *)

(** An invariant of a loop that ends normally, with the bounds of the loop
    variable available in the step. *)
Lemma for_count_invariant_bounded {St} (P : Z -> St -> Prop)
    (body : Z -> M St unit) (hi : Z) :
  forall k i,
    i + Z.of_nat k = hi ->
    (forall j s s',
       i <= j < hi -> P j s -> body j s = Done tt s' -> P (j + 1) s') ->
    forall s s', P i s -> for_count k i body s = Done tt s' -> P hi s'.
Proof.
  induction k as [|k IH]; intros i Hk Hstep s s' HP Hrun.
  - simpl in Hrun. inversion Hrun; subst.
    replace (i + Z.of_nat 0) with i by lia. exact HP.
  - rewrite for_count_S in Hrun.
    destruct (body i s) as [[] s1|e s1] eqn:Hb; [|discriminate].
    eapply (IH (i + 1)); [lia| |eapply Hstep; eauto; lia|exact Hrun].
    intros j s2 s3 Hj. apply Hstep. lia.
Qed.

Lemma for_range_invariant {St} (P : St -> Prop) (body : Z -> M St unit)
    (lo hi : Z) :
  (forall j s s', lo <= j < hi -> P s -> body j s = Done tt s' -> P s') ->
  forall s s', P s -> for_range lo hi body s = Done tt s' -> P s'.
Proof.
  intros Hstep s s' HP Hrun. unfold for_range in Hrun.
  destruct (Z_le_gt_dec hi lo) as [Hle|Hgt].
  - replace (Z.to_nat (hi - lo)) with O in Hrun by lia.
    simpl in Hrun. inversion Hrun; subst. exact HP.
  - eapply (for_count_invariant_bounded (fun _ => P) body hi
              (Z.to_nat (hi - lo)) lo); [lia| |exact HP|exact Hrun].
    intros j s1 s2 Hj. apply Hstep. exact Hj.
Qed.

(** Inversion of a run that ended normally: every step it is made of ended
    normally. *)
Ltac monad_inv H :=
  unfold mbind, M_bind, mret, M_ret, lift, get, put, modify in H;
  repeat match type of H with
         | context [match ?x with _ => _ end] =>
           let E := fresh "E" in destruct x eqn:E; try discriminate H
         end.

Lemma row_has_diagonal_intro (ir jr : list Z) (i p0 p_next p : Z) :
  rd ir i = Ok p0 -> rd ir (i + 1) = Ok p_next ->
  p0 <= p < p_next -> rd jr p = Ok i ->
  row_has_diagonal ir jr i = true.
Proof.
  intros H0 H1 Hp Hj. unfold row_has_diagonal. rewrite H0, H1.
  apply existsb_exists. exists p. split.
  - apply list_elem_of_In, elem_of_seqZ. lia.
  - rewrite Hj. apply Z.eqb_refl.
Qed.

Section OldYale.

Variable junk_a : nat -> Z.
Variables (shape0 : Z * Z) (ir jr ar : list Z).
Variable cap : Z.
Hypothesis rows_range : shape0.1 < 2 ^ 64.

(** What the second pass keeps true: the capacity and the length of the
    value buffer do not change and, for a capacity in the range of [size_t],
    the write position stays behind the diagonal and the zero slot, and the
    diagonal slot of a row without diagonal entry holds what the allocator
    left there. *)
Definition import_inv (st : import_state) : Prop :=
  capacity st.1 = cap /\
  length (a st.1) = Z.to_nat cap /\
  (cap < 2 ^ 64 ->
   shape0.1 + 1 <= st.2 <= Z.max (shape0.1 + 1) cap /\
   forall k, 0 <= k < shape0.1 -> k < cap ->
             row_has_diagonal ir jr k = false ->
             rd (a st.1) k = Ok (junk_a (Z.to_nat k))).

Lemma fill_entry_inv (i p0 p_next p : Z) (st st' : import_state) :
  0 <= i < shape0.1 ->
  rd ir i = Ok p0 -> rd ir (i + 1) = Ok p_next -> p0 <= p < p_next ->
  import_inv st ->
  (st ← get;
   let pp := st.2 in
   c ← lift (rd jr p);
   (if i =? c then
      v ← lift (rd ar p);
      on_fst (wr_a i v);;
      set_pp (wrap64 (pp - 1))
    else
      on_fst (wr_ija pp c);;
      v ← lift (rd ar p);
      on_fst (wr_a pp v));;
   st ← get;
   set_pp (st.2 + 1)) st = Done tt st' ->
  import_inv st'.
Proof.
  intros Hi H0 H1 Hp (Hcap & Hlen & Hrest) Hrun.
  destruct st as [s pp]. simpl in *.
  unfold mbind at 1, M_bind at 1, get at 1 in Hrun. simpl in Hrun.
  unfold mbind at 1, M_bind at 1, lift at 1 in Hrun.
  destruct (rd jr p) as [c|] eqn:Hc; [|discriminate].
  destruct (i =? c) eqn:Hic.
  - (* an entry on the diagonal *)
    apply Z.eqb_eq in Hic. subst c.
    unfold mbind, M_bind, lift, get, set_pp, on_fst, wr_a in Hrun.
    destruct (rd ar p) as [v|]; [|discriminate].
    cbn [fst snd] in Hrun.
    destruct (wr (a s) i v) as [l|] eqn:Hw; [|discriminate].
    cbn [fst snd] in Hrun. inversion Hrun; subst st'; clear Hrun. simpl.
    apply wr_Ok in Hw. destruct Hw as [Hwi ->].
    unfold import_inv. simpl. rewrite length_insert.
    split; [exact Hcap|]. split; [exact Hlen|].
    intros Hr. destruct (Hrest Hr) as [Hpp Hdiag].
    assert (Hwrap : wrap64 (pp - 1) = pp - 1).
    { unfold wrap64. apply Z.mod_small. lia. }
    rewrite Hwrap. split; [lia|].
    intros k Hk Hkc Hnd.
    assert (k <> i).
    { intros ->. rewrite (row_has_diagonal_intro _ _ _ _ _ _ H0 H1 Hp Hc)
        in Hnd. discriminate. }
    rewrite <- (Hdiag k Hk Hkc Hnd). unfold rd.
    destruct (k <? 0); [reflexivity|].
    rewrite list_lookup_insert_ne by lia. reflexivity.
  - (* an entry off the diagonal *)
    unfold mbind, M_bind, lift, get, set_pp, on_fst, wr_a, wr_ija in Hrun.
    cbn [fst snd] in Hrun.
    destruct (wr (ija s) pp c) as [l1|] eqn:Hw1; [|discriminate].
    cbn [fst snd set_ija a] in Hrun.
    destruct (rd ar p) as [v|]; [|discriminate].
    cbn [fst snd set_ija a] in Hrun.
    destruct (wr (a s) pp v) as [l2|] eqn:Hw2; [|discriminate].
    cbn [fst snd] in Hrun. inversion Hrun; subst st'; clear Hrun. simpl.
    apply wr_Ok in Hw2. destruct Hw2 as [Hwi ->].
    unfold import_inv. simpl. rewrite length_insert.
    split; [exact Hcap|]. split; [exact Hlen|].
    intros Hr. destruct (Hrest Hr) as [Hpp Hdiag]. split; [lia|].
    intros k Hk Hkc Hnd. rewrite <- (Hdiag k Hk Hkc Hnd). unfold rd.
    destruct (k <? 0); [reflexivity|].
    rewrite list_lookup_insert_ne by lia. reflexivity.
Qed.

Lemma fill_arrays_inv (st st' : import_state) :
  import_inv st ->
  fill_arrays shape0 ir jr ar st = Done tt st' ->
  import_inv st'.
Proof.
  intros Hinv Hrun. unfold fill_arrays in Hrun.
  eapply (for_range_invariant import_inv); [|exact Hinv|exact Hrun].
  clear st st' Hinv Hrun. intros i st st' Hi Hinv Hrun.
  unfold mbind at 1, M_bind at 1, lift at 1 in Hrun.
  destruct (rd ir i) as [p0|] eqn:H0; [|discriminate].
  unfold mbind at 1, M_bind at 1, lift at 1 in Hrun.
  destruct (rd ir (i + 1)) as [p_next|] eqn:H1; [|discriminate].
  eapply (for_range_invariant import_inv); [|exact Hinv|exact Hrun].
  intros p s1 s2 Hp Hinv1 Hstep.
  eapply fill_entry_inv; eauto.
Qed.

End OldYale.

(** Claim C10.  In the descriptor that [create_from_old_yale] returns, the
    diagonal slot [a[i]] of every row [i] whose input row has no entry with
    column [i] holds what the allocator left there: the import does not write
    it.  The zero slot [a[rows]] is set to zero.  The number of rows and the
    capacity are [size_t] values. *)
Theorem import_leaves_diagonal_unset junk_ija junk_a shape0 ir jr ar s :
  create_from_old_yale junk_ija junk_a shape0 ir jr ar = Ok s ->
  shape0.1 < 2 ^ 64 ->
  capacity s < 2 ^ 64 ->
  (forall i, 0 <= i < shape0.1 -> row_has_diagonal ir jr i = false ->
             rd (a s) i = Ok (junk_a (Z.to_nat i))) /\
  rd (a s) shape0.1 = Ok 0.
Proof.
  unfold create_from_old_yale. intros Hrun Hrows Hcap.
  unfold mbind at 1, res_bind at 1 in Hrun.
  destruct (exec (count_ndnz shape0 ir jr) 0) as [n|]; [|discriminate].
  unfold mbind at 1, res_bind at 1 in Hrun.
  destruct (exec (fill_arrays shape0 ir jr ar) _) as [st1|] eqn:Hfill;
    [|discriminate].
  unfold mbind at 1, res_bind at 1 in Hrun.
  destruct (exec _ st1) as [st2|] eqn:Hend; [|discriminate].
  injection Hrun as <-.
  unfold exec in Hfill.
  destruct (fill_arrays shape0 ir jr ar _) as [[] st1'|] eqn:Hfill';
    [|discriminate].
  injection Hfill as ->.
  pose (cap := shape0.1 + n + 1).
  assert (Hinv : import_inv junk_a shape0 ir jr cap st1).
  { eapply (fill_arrays_inv junk_a shape0 ir jr ar cap); [| |exact Hfill'].
    - exact Hrows.
    - unfold import_inv. simpl. rewrite length_ALLOC_N.
      split; [reflexivity|]. split; [reflexivity|]. intros _. split; [lia|].
      intros k Hk Hkc _. apply rd_Ok. split; [lia|].
      apply lookup_ALLOC_N. lia. }
  destruct Hinv as (Hc1 & Hlen & Hrest).
  destruct st1 as [s1 pp1]. simpl in *.
  unfold exec, mbind, M_bind, on_fst, wr_ija, wr_a in Hend.
  cbn [fst snd] in Hend.
  destruct (wr (ija s1) shape0.1 pp1) as [l1|]; [|discriminate].
  cbn [fst snd set_ija a] in Hend.
  destruct (wr (a s1) shape0.1 0) as [l2|] eqn:Hw; [|discriminate].
  cbn [fst snd] in Hend. injection Hend as <-. simpl in *.
  rewrite Hc1 in Hcap. destruct (Hrest Hcap) as [Hpp Hdiag].
  split.
  - intros i Hi Hnd.
    pose proof Hw as Hw'. apply wr_Ok in Hw'. destruct Hw' as [Hr _].
    rewrite (rd_wr_ne _ _ _ _ _ Hw) by lia.
    apply Hdiag; [lia|lia|exact Hnd].
  - eapply rd_wr_eq; eauto.
Qed.

(** Witness of [import_leaves_diagonal_unset]: the 2x2 matrix with rows
    (0 5) and (6 7) in old Yale form.  Row 0 has no diagonal entry, and
    [a[0]] of the import is the fresh cell. *)
Lemma import_leaves_diagonal_unset_witness :
  let s := mkYale 2 (2, 2) 5 2
             [marked 100 0; marked 100 1; 5; 1; 0]
             [marked 200 0; 7; 0; 5; 6] 0 in
  create_from_old_yale (marked 100) (marked 200) (2, 2)
    [0; 1; 3] [1; 0; 1] [5; 6; 7] = Ok s /\
  (2, 2).1 < 2 ^ 64 /\
  capacity s < 2 ^ 64 /\
  (forall i, 0 <= i < (2, 2).1 ->
             row_has_diagonal [0; 1; 3] [1; 0; 1] i = false ->
             rd (a s) i = Ok (marked 200 (Z.to_nat i))) /\
  rd (a s) (2, 2).1 = Ok 0.
Proof.
  intros s. split; [vm_compute; reflexivity|].
  split; [simpl; lia|]. split; [simpl; lia|].
  apply (import_leaves_diagonal_unset (marked 100) (marked 200) (2, 2)
           [0; 1; 3] [1; 0; 1] [5; 6; 7] s);
    [vm_compute; reflexivity | simpl; lia | simpl; lia].
Defined.

(** ** Merge (claim C7) *)

(** A loop whose body always ends normally ends normally. *)
Lemma for_count_total {St} (P : Z -> St -> Prop) (body : Z -> M St unit) :
  forall k i s,
    P i s ->
    (forall j s, i <= j < i + Z.of_nat k -> P j s ->
                 exists s', body j s = Done tt s' /\ P (j + 1) s') ->
    exists s', for_count k i body s = Done tt s' /\ P (i + Z.of_nat k) s'.
Proof.
  induction k as [|k IH]; intros i s HP Hstep.
  - exists s. split; [reflexivity|].
    replace (i + Z.of_nat 0) with i by lia. exact HP.
  - destruct (Hstep i s ltac:(lia) HP) as (s1 & Hb & HP1).
    destruct (IH (i + 1) s1 HP1) as (s' & Hrun & HP').
    { intros j s2 Hj. apply Hstep. lia. }
    exists s'. rewrite for_count_S, Hb. split; [exact Hrun|].
    replace (i + Z.of_nat (S k)) with (i + 1 + Z.of_nat k) by lia. exact HP'.
Qed.

Lemma rd_eq_lookup (b b' : list Z) (i : Z) :
  0 <= i -> rd b i = rd b' i -> b !! Z.to_nat i = b' !! Z.to_nat i.
Proof.
  unfold rd. intros Hi. replace (i <? 0) with false by lia.
  destruct (b !! Z.to_nat i), (b' !! Z.to_nat i); congruence.
Qed.

(** Slices of two buffers that agree below [n] agree. *)
Lemma slice_agree (b b' : list Z) (n lo hi : Z) :
  (forall k, 0 <= k < n -> rd b k = rd b' k) ->
  0 <= lo -> hi <= n ->
  take (Z.to_nat (hi - lo)) (drop (Z.to_nat lo) b)
  = take (Z.to_nat (hi - lo)) (drop (Z.to_nat lo) b').
Proof.
  intros Hag Hlo Hhi. apply list_eq. intros k.
  destruct (decide (k < Z.to_nat (hi - lo))%nat) as [Hk|Hk].
  - rewrite !lookup_take_lt, !lookup_drop by lia.
    replace (Z.to_nat lo + k)%nat with (Z.to_nat (lo + Z.of_nat k)) by lia.
    apply rd_eq_lookup; [lia|]. apply Hag. lia.
  - rewrite !lookup_take_ge by lia. reflexivity.
Qed.

Lemma well_formed_facts (s : YALE_STORAGE) :
  well_formed s = true ->
  exists size,
    get_size s = Ok size /\
    0 <= (shape s).1 /\
    length (ija s) = Z.to_nat (capacity s) /\
    length (a s) = Z.to_nat (capacity s) /\
    (shape s).1 + 1 <= size <= capacity s /\
    ndnz s = size - (shape s).1 - 1 /\
    capacity s <= 2 ^ 64 /\
    forall i, 0 <= i < (shape s).1 -> well_formed_row s size i = true.
Proof.
  unfold well_formed. intros H.
  destruct (get_size s) as [size|]; [|rewrite andb_false_r in H; discriminate].
  repeat match goal with
         | H : _ && _ = true |- _ => apply andb_true_iff in H; destruct H
         end.
  exists size. split; [reflexivity|].
  repeat match goal with
         | H : (_ <=? _) = true |- _ => apply Z.leb_le in H
         | H : (_ =? _) = true |- _ => apply Z.eqb_eq in H
         | H : Nat.eqb _ _ = true |- _ => apply Nat.eqb_eq in H
         end.
  repeat split; try assumption.
  intros i Hi.
  match goal with H : forallb _ _ = true |- _ =>
    rewrite forallb_forall in H; apply H end.
  apply list_elem_of_In, elem_of_seqZ. lia.
Qed.

Lemma well_formed_row_facts (s : YALE_STORAGE) (size i : Z) :
  well_formed_row s size i = true ->
  exists lo hi cols,
    rd (ija s) i = Ok lo /\ rd (ija s) (i + 1) = Ok hi /\
    row_cols s i = Ok cols /\
    (shape s).1 + 1 <= lo /\ lo <= hi /\ hi <= size /\
    strictly_increasing cols = true.
Proof.
  unfold well_formed_row. intros H.
  destruct (rd (ija s) i) as [lo|]; [|discriminate].
  destruct (rd (ija s) (i + 1)) as [hi|]; [|discriminate].
  destruct (row_cols s i) as [cols|]; [|discriminate].
  repeat match goal with
         | H : _ && _ = true |- _ => apply andb_true_iff in H; destruct H
         end.
  exists lo, hi, cols.
  repeat match goal with
         | H : (_ <=? _) = true |- _ => apply Z.leb_le in H
         end.
  repeat split; auto.
Qed.

Lemma wr_ija_Done (i v : Z) (s : YALE_STORAGE) :
  0 <= i < Z.of_nat (length (ija s)) ->
  wr_ija i v s = Done tt (set_ija (<[Z.to_nat i := v]> (ija s)) s).
Proof.
  intros Hi. unfold wr_ija.
  destruct (wr (ija s) i v) as [l|e] eqn:Hw.
  - apply wr_Ok in Hw. destruct Hw as [_ ->]. reflexivity.
  - unfold wr in Hw. replace (i <? 0) with false in Hw by lia.
    destruct (lookup_lt_is_Some_2 (ija s) (Z.to_nat i)) as [x Hx]; [lia|].
    rewrite Hx in Hw. discriminate.
Qed.

(** [copy_alloc_struct] on a descriptor whose in-use length fits in its
    index buffer and in the new capacity. *)
Lemma copy_alloc_struct_spec junk_ija junk_a rhs new_capacity new_size size :
  get_size rhs = Ok size ->
  size <= Z.of_nat (length (ija rhs)) ->
  size <= new_capacity ->
  exists lhs,
    copy_alloc_struct junk_ija junk_a rhs new_capacity new_size = Ok lhs /\
    dim lhs = dim rhs /\ shape lhs = shape rhs /\ ndnz lhs = ndnz rhs /\
    capacity lhs = new_capacity /\ epoch lhs = O /\
    a lhs = ALLOC_N junk_a new_capacity /\
    length (ija lhs) = Z.to_nat new_capacity /\
    forall i, 0 <= i < size -> rd (ija lhs) i = rd (ija rhs) i.
Proof.
  intros Hsize Hlen Hcap. unfold copy_alloc_struct.
  rewrite Hsize. unfold mbind at 1, res_bind at 1.
  set (lhs0 := mkYale (dim rhs) (shape rhs) new_capacity (ndnz rhs)
                 (ALLOC_N junk_ija new_capacity)
                 (ALLOC_N junk_a new_capacity) 0).
  pose (P := fun (k : Z) (s : YALE_STORAGE) =>
    dim s = dim rhs /\ shape s = shape rhs /\ ndnz s = ndnz rhs /\
    capacity s = new_capacity /\ epoch s = O /\
    a s = ALLOC_N junk_a new_capacity /\
    length (ija s) = Z.to_nat new_capacity /\
    forall i, 0 <= i < k -> rd (ija s) i = rd (ija rhs) i).
  destruct (for_count_total P
              (fun i => x ← lift (rd (ija rhs) i); wr_ija i x)
              (Z.to_nat (size - 0)) 0 lhs0) as (lhs & Hrun & HP).
  - unfold P, lhs0. simpl. rewrite length_ALLOC_N.
    repeat split; try reflexivity. intros i Hi. lia.
  - intros j s Hj (H1 & H2 & H3 & H4 & H5 & H6 & H7 & H8).
    destruct (rd_in_range (ija rhs) j) as [x Hx]; [lia|].
    unfold mbind, M_bind, lift. rewrite Hx.
    rewrite wr_ija_Done by lia.
    eexists. split; [reflexivity|]. unfold P. simpl.
    rewrite length_insert. repeat split; try assumption.
    intros i Hi. destruct (decide (i = j)) as [->|Hne].
    + rewrite Hx. apply rd_Ok. split; [lia|].
      apply list_lookup_insert_eq. lia.
    + unfold rd. destruct (i <? 0); [reflexivity|].
      rewrite list_lookup_insert_ne by lia.
      specialize (H8 i ltac:(lia)). unfold rd in H8.
      replace (i <? 0) with false in H8 by lia. exact H8.
  - exists lhs. unfold exec, for_range. rewrite Hrun. split; [reflexivity|].
    destruct HP as (H1 & H2 & H3 & H4 & H5 & H6 & H7 & H8).
    repeat split; try assumption. intros i Hi. apply H8. lia.
Qed.

Lemma rd_sija_Done (epoch0 : nat) (k x : Z) (st : merge_state) :
  epoch (m_s st) = epoch0 -> rd (ija (m_s st)) k = Ok x ->
  rd_sija epoch0 k st = Done x st.
Proof.
  intros He Hx. unfold rd_sija. rewrite He, Nat.eqb_refl.
  unfold lift. rewrite Hx. reflexivity.
Qed.

(** A row without off-diagonal entries in a well-formed descriptor: its two
    row pointers are equal. *)
Lemma empty_row_pointers (r : YALE_STORAGE) (i : Z) :
  well_formed r = true -> no_off_diagonal r = true ->
  0 <= i < (shape r).1 ->
  exists p, rd (ija r) i = Ok p /\ rd (ija r) (i + 1) = Ok p.
Proof.
  intros Hwf Hno Hi.
  destruct (well_formed_facts r Hwf)
    as (size & Hsz & HR & Hl1 & Hl2 & Hb & Hnd & H64 & Hrows).
  destruct (well_formed_row_facts r size i (Hrows i Hi))
    as (lo & hi & cols & Hlo & Hhi & Hcols & H1 & H2 & H3 & _).
  unfold no_off_diagonal in Hno. rewrite forallb_forall in Hno.
  specialize (Hno i). rewrite Hcols in Hno.
  assert (Hnil : cols = []).
  { destruct cols; [reflexivity|].
    assert (false = true) by (apply Hno, list_elem_of_In, elem_of_seqZ; lia).
    discriminate. }
  subst cols. unfold row_cols in Hcols. rewrite Hlo, Hhi in Hcols.
  unfold mbind, res_bind in Hcols. injection Hcols as Hcols.
  apply (f_equal length) in Hcols. rewrite length_take, length_drop in Hcols.
  simpl in Hcols. exists lo. split; [exact Hlo|].
  rewrite Hhi. f_equal. lia.
Qed.

(** With an operand that has no off-diagonal entries the loops of
    [create_merged] change nothing in the result. *)
Lemma merge_rows_no_op (GROWTH : Z -> Z) (junk_ija junk_a : nat -> Z)
    (r s : YALE_STORAGE) (ins0 : ascii) :
  well_formed r = true -> no_off_diagonal r = true ->
  (shape r).1 = (shape s).1 ->
  (shape s).1 < Z.of_nat (length (ija s)) ->
  exists st,
    merge_rows GROWTH junk_ija junk_a (epoch s) r (mkMerge s 0 0 ins0)
      = Done tt st /\ m_s st = s.
Proof.
  intros Hwf Hno Hshape Hlen. unfold merge_rows.
  unfold mbind at 1, M_bind at 1, get at 1. simpl. unfold for_range.
  destruct (for_count_total (fun _ st => m_s st = s)
    (fun i =>
       st ← get;
       ija_i ← rd_sija (epoch s) i;
       ija_next ← rd_sija (epoch s) (i + 1);
       set_locals ija_i ija_next (m_ins_type st);;
       r_ija ← lift (rd (ija r) i);
       r_ija_end ← lift (rd (ija r) (i + 1));
       for_range r_ija r_ija_end
         (fun _ => merge_entry GROWTH junk_ija junk_a (epoch s) i))
    (Z.to_nat ((shape s).1 - 0)) 0 (mkMerge s 0 0 ins0))
    as (st & Hrun & HP).
  - reflexivity.
  - intros j st Hj Hst.
    destruct (rd_in_range (ija s) j) as [x Hx]; [lia|].
    destruct (rd_in_range (ija s) (j + 1)) as [y Hy]; [lia|].
    destruct (empty_row_pointers r j Hwf Hno) as (p & Hp & Hp'); [lia|].
    unfold mbind at 1, M_bind at 1, get at 1.
    unfold mbind at 1, M_bind at 1.
    rewrite (rd_sija_Done (epoch s) j x st) by (rewrite Hst; auto).
    unfold mbind at 1, M_bind at 1.
    rewrite (rd_sija_Done (epoch s) (j + 1) y st) by (rewrite Hst; auto).
    unfold mbind at 1, M_bind at 1, set_locals at 1.
    unfold mbind at 1, M_bind at 1, lift at 1. rewrite Hp.
    unfold mbind at 1, M_bind at 1, lift at 1. rewrite Hp'.
    rewrite for_range_nil by lia.
    eexists. split; [reflexivity|]. simpl. exact Hst.
  - exists st. split; [exact Hrun|exact HP].
Qed.

(** Claim C7, as amended.  For a well-formed [left] and an operand [right]
    that is [left] itself or a well-formed descriptor of the same shape
    without off-diagonal entries, [create_merged] returns a descriptor with
    the shape, the in-use length and the [ndnz] of [left], which is the
    number of its stored entries, whose column indices in every row are
    those of [left], which is the union of the two patterns, and whose zero
    slot is that of [left].  No other value is
    copied: every other slot of the value buffer, the diagonal included,
    holds what the allocator left there. *)
Theorem create_merged_structure GROWTH junk_ija junk_a ins0 left right :
  well_formed left = true ->
  adds_no_column left right = true ->
  exists S size,
    create_merged GROWTH junk_ija junk_a ins0 left right = Ok S /\
    get_size left = Ok size /\ get_size S = Ok size /\
    shape S = shape left /\
    ndnz S = ndnz left /\ ndnz S = size - (shape left).1 - 1 /\
    (forall i, 0 <= i < (shape left).1 -> row_cols S i = row_cols left i) /\
    rd (a S) (shape left).1 = rd (a left) (shape left).1 /\
    (forall k, 0 <= k < capacity S -> k <> (shape left).1 ->
               rd (a S) k = Ok (junk_a (Z.to_nat k))).
Proof.
  intros Hwf Hright.
  destruct (well_formed_facts left Hwf)
    as (size & Hsz & HR & Hl1 & Hl2 & Hb & Hnd & H64 & Hrows).
  assert (Hr : exists r, deref_right left right = Ok r).
  { destruct right; [discriminate|eauto|eauto]. }
  destruct Hr as [r Hr].
  set (new_capacity := NM_MAX (capacity left) (capacity r)).
  assert (Hnc : capacity left <= new_capacity).
  { unfold new_capacity, NM_MAX.
    destruct (capacity r <? capacity left) eqn:E; lia. }
  destruct (copy_alloc_struct_spec junk_ija junk_a left new_capacity size size
              Hsz ltac:(lia) ltac:(lia))
    as (lhs & Hcopy & Hdim & Hshape & Hndnz & Hcap & Hep & Ha & Hlen & Hija).
  destruct (rd_in_range (a left) (shape left).1) as [z Hz]; [lia|].
  assert (Hw : wr (a lhs) (shape lhs).1 z
               = Ok (<[Z.to_nat (shape left).1 := z]> (a lhs))).
  { rewrite Hshape. apply wr_Ok. split; [|reflexivity].
    rewrite Ha, length_ALLOC_N. lia. }
  set (S0 := set_a (<[Z.to_nat (shape left).1 := z]> (a lhs)) lhs).
  assert (Hrun : create_merged GROWTH junk_ija junk_a ins0 left right
                 = Ok S0).
  { unfold create_merged. rewrite Hsz. unfold mbind at 1, res_bind at 1.
    rewrite Hr. unfold mbind at 1, res_bind at 1. fold new_capacity.
    rewrite Hcopy. unfold mbind at 1, res_bind at 1.
    rewrite Hz. unfold mbind at 1, res_bind at 1.
    rewrite Hw. unfold mbind at 1, res_bind at 1. fold S0.
    destruct right as [| |other]; [discriminate|reflexivity|].
    simpl in Hr. injection Hr as ->. simpl in Hright.
    repeat match type of Hright with
           | _ && _ = true =>
             apply andb_true_iff in Hright; destruct Hright as [Hright ?]
           end.
    destruct (merge_rows_no_op GROWTH junk_ija junk_a r S0 ins0)
      as (st & Hst & Hs); try assumption.
    - unfold S0. simpl. rewrite Hshape. lia.
    - unfold S0. simpl. rewrite Hshape, Hlen. lia.
    - unfold exec. rewrite Hst. unfold mbind, res_bind. rewrite Hs.
      reflexivity. }
  exists S0, size. split; [exact Hrun|]. split; [exact Hsz|].
  assert (Hsize' : get_size S0 = Ok size).
  { unfold get_size, S0. simpl. rewrite Hshape, Hija by lia. exact Hsz. }
  split; [exact Hsize'|]. split; [exact Hshape|]. split; [exact Hndnz|].
  split; [rewrite <- Hnd; exact Hndnz|]. split; [|split].
  - intros i Hi.
    destruct (well_formed_row_facts left size i (Hrows i Hi))
      as (lo & hi & cols & Hlo & Hhi & Hcols & H1 & H2 & H3 & _).
    unfold row_cols, S0. simpl. rewrite !Hija by lia. rewrite Hlo, Hhi.
    unfold mbind, res_bind. f_equal.
    apply (slice_agree _ _ size); [exact Hija|lia|lia].
  - unfold S0. simpl. rewrite Hz. apply rd_Ok. split; [lia|].
    apply list_lookup_insert_eq. rewrite Ha, length_ALLOC_N. lia.
  - intros k Hk Hne. unfold S0 in Hk |- *. simpl in Hk |- *.
    apply rd_Ok. split; [lia|].
    rewrite list_lookup_insert_ne by lia.
    rewrite Ha. apply lookup_ALLOC_N. lia.
Qed.

(** Witness of [create_merged_structure]: [merge_left] merged with
    [merge_right], which stores nothing off the diagonal. *)
Lemma create_merged_structure_witness :
  well_formed merge_left = true /\
  adds_no_column merge_left (ROther merge_right) = true /\
  exists S size,
    create_merged growth_1_5 zero_page zero_page "i"%char merge_left
      (ROther merge_right) = Ok S /\
    get_size merge_left = Ok size /\ get_size S = Ok size /\
    shape S = shape merge_left /\
    ndnz S = ndnz merge_left /\ ndnz S = size - (shape merge_left).1 - 1 /\
    (forall i, 0 <= i < (shape merge_left).1 ->
               row_cols S i = row_cols merge_left i) /\
    rd (a S) (shape merge_left).1 = rd (a merge_left) (shape merge_left).1 /\
    (forall k, 0 <= k < capacity S -> k <> (shape merge_left).1 ->
               rd (a S) k = Ok (zero_page (Z.to_nat k))).
Proof.
  split; [vm_compute; reflexivity|]. split; [vm_compute; reflexivity|].
  apply (create_merged_structure growth_1_5 zero_page zero_page "i"%char
           merge_left (ROther merge_right));
    vm_compute; reflexivity.
Defined.

(** Claim C7 as stated fails on the diagonal: the merge of [merge_left] and
    [merge_right] has the fresh cell in [a[0]], not the 1 of the diagonal of
    [merge_left]. *)
Lemma create_merged_drops_diagonal :
  exists S,
    create_merged growth_1_5 zero_page zero_page "i"%char merge_left
      (ROther merge_right) = Ok S /\
    rd (a merge_left) 0 = Ok 1 /\
    rd (a S) 0 = Ok 0 /\
    rd (a S) 0 <> rd (a merge_left) 0.
Proof.
  eexists. split; [vm_compute; reflexivity|].
  split; [reflexivity|]. split; [reflexivity|]. discriminate.
Qed.

(** The loops of [create_merged] take the column to insert from the result
    ([sija[ija]]) and not from the right operand: merging [merge_left], whose
    row 0 stores column 1, with [merge_right_col2], whose row 0 stores column
    2, leaves row 0 of the result at column 1 alone. *)
Lemma create_merged_misses_right_column (junk_ija junk_a : nat -> Z) :
  exists S,
    create_merged growth_1_5 junk_ija junk_a "i"%char merge_left
      (ROther merge_right_col2) = Ok S /\
    row_cols merge_left 0 = Ok [1] /\
    row_cols merge_right_col2 0 = Ok [2] /\
    row_cols S 0 = Ok [1].
Proof.
  eexists. split; [vm_compute; reflexivity|]. repeat split; reflexivity.
Qed.

(** ** The scenario S3 (claim C4) *)

(** The descriptor that [nm_yale_storage_create] returns is determined by its
    capacity. *)
Lemma create_descriptor junk_ija junk_a MIN count shape0 init_capacity s :
  nm_yale_storage_create junk_ija junk_a MIN count shape0 2 init_capacity
    = Ok s ->
  s = mkYale 2 shape0 (capacity s) 0
        (ALLOC_N junk_ija (capacity s)) (ALLOC_N junk_a (capacity s)) 0.
Proof.
  unfold nm_yale_storage_create. simpl. intros [= <-].
  destruct (init_capacity <? MIN (alloc shape0 2));
    [|destruct (wrap64 (count (alloc shape0 2) - shape0.1 + 1)
               <? init_capacity)]; reflexivity.
Qed.

(** Case analysis on a capacity between 6 and 10. *)
Ltac small_cases c :=
  let H := fresh in
  assert (H : c = 6 \/ c = 7 \/ c = 8 \/ c = 9 \/ c = 10) by lia;
  destruct H as [->|[->|[->|[->| ->]]]].

Lemma scenario_S3_step GROWTH junk_ija junk_a c e :
  6 <= c <= 10 ->
  set GROWTH junk_ija junk_a (0, 1) 5 (scenario_S2 junk_ija junk_a c e)
  = Done "i"%char (scenario_S3 junk_ija junk_a c e).
Proof.
  intros Hc. small_cases c; vm_compute; reflexivity.
Qed.

Lemma scenario_S2_in_place GROWTH junk_ija junk_a c :
  6 <= c <= 10 ->
  exec (init;;
        set_all GROWTH junk_ija junk_a
          [((0, 0), 1); ((1, 1), 2); ((2, 2), 3); ((0, 2), 7)])
    (mkYale 2 (3, 3) c 0 (ALLOC_N junk_ija c) (ALLOC_N junk_a c) 0)
  = Ok (scenario_S2 junk_ija junk_a c 0).
Proof.
  intros Hc. small_cases c; vm_compute; reflexivity.
Qed.

Lemma scenario_S2_resized GROWTH junk_ija junk_a :
  6 <= GROWTH 4 ->
  exec (init;;
        set_all GROWTH junk_ija junk_a
          [((0, 0), 1); ((1, 1), 2); ((2, 2), 3); ((0, 2), 7)])
    (mkYale 2 (3, 3) 4 0 (ALLOC_N junk_ija 4) (ALLOC_N junk_a 4) 0)
  = Ok (scenario_S2 junk_ija junk_a (Z.min (GROWTH 4) 10) 1).
Proof.
  intros Hg. unfold exec, set_all, set, vector_insert, vector_insert_resize.
  simpl. unfold mbind, M_bind. simpl.
  change (NM_YALE_MAX_SIZE _) with 10.
  destruct (Z.ltb_spec 10 (GROWTH 4)) as [Hlt|Hle].
  - rewrite Z.min_r by lia. vm_compute. reflexivity.
  - rewrite Z.min_l by lia.
    assert (H : GROWTH 4 = 6 \/ GROWTH 4 = 7 \/ GROWTH 4 = 8 \/
                GROWTH 4 = 9 \/ GROWTH 4 = 10) by lia.
    destruct H as [E|[E|[E|[E|E]]]]; rewrite E; vm_compute; reflexivity.
Qed.

(** Claim C4.  From a 3x3 descriptor created with a request of 4 cells, the
    writes (0,0) = 1, (1,1) = 2, (2,2) = 3 and (0,2) = 7 reach
    [ija[0..5) = [4,5,5,5,2]], [a[4] = 7] and size 5; the write (0,1) = 5
    then finds the insertion position 4 and returns ['i'] with
    [ija[0..4) = [4,6,6,6]], [ija[4..6) = [1,2]] and [a[4..6) = [5,7]].
    [NM_YALE_MINIMUM], [nm_storage_count_max_elements] and the growth
    function are parameters; the creation must leave 6 to 10 cells, or 4
    cells that the first resize grows to at least 6. *)
Theorem set_0_1_shifts_0_2 MIN count GROWTH junk_ija junk_a s0 :
  nm_yale_storage_create junk_ija junk_a MIN count (3, 3) 2 4 = Ok s0 ->
  6 <= capacity s0 <= 10 \/ capacity s0 = 4 /\ 6 <= GROWTH 4 ->
  exists s2 s3,
    exec (init;;
          set_all GROWTH junk_ija junk_a
            [((0, 0), 1); ((1, 1), 2); ((2, 2), 3); ((0, 2), 7)]) s0
      = Ok s2 /\
    take 5 (ija s2) = [4; 5; 5; 5; 2] /\
    rd (a s2) 4 = Ok 7 /\
    get_size s2 = Ok 5 /\
    insert_search s2 4 (wrap64 (5 - 1)) 1 = Ok (4, false) /\
    set GROWTH junk_ija junk_a (0, 1) 5 s2 = Done "i"%char s3 /\
    take 4 (ija s3) = [4; 6; 6; 6] /\
    take 2 (drop 4 (ija s3)) = [1; 2] /\
    take 2 (drop 4 (a s3)) = [5; 7].
Proof.
  intros Hcreate Hcap.
  apply create_descriptor in Hcreate. rewrite Hcreate. clear Hcreate.
  set (c0 := capacity s0) in *. clearbody c0.
  assert (Hs2 : exists c e, 6 <= c <= 10 /\
    exec (init;;
          set_all GROWTH junk_ija junk_a
            [((0, 0), 1); ((1, 1), 2); ((2, 2), 3); ((0, 2), 7)])
      (mkYale 2 (3, 3) c0 0 (ALLOC_N junk_ija c0) (ALLOC_N junk_a c0) 0)
    = Ok (scenario_S2 junk_ija junk_a c e)).
  { destruct Hcap as [Hc|[-> Hg]].
    - exists c0, O. split; [exact Hc|]. apply scenario_S2_in_place. exact Hc.
    - exists (Z.min (GROWTH 4) 10), 1%nat. split; [lia|].
      apply scenario_S2_resized. exact Hg. }
  destruct Hs2 as (c & e & Hc & Hs2).
  exists (scenario_S2 junk_ija junk_a c e), (scenario_S3 junk_ija junk_a c e).
  split; [exact Hs2|].
  split; [reflexivity|]. split; [reflexivity|]. split; [reflexivity|].
  split; [reflexivity|].
  split; [apply scenario_S3_step; exact Hc|].
  repeat split; reflexivity.
Qed.

(** Witness of [set_0_1_shifts_0_2]: the minimum [2*rows + 1] gives 7
    cells. *)
Lemma set_0_1_shifts_0_2_witness :
  let s0 := mkYale 2 (3, 3) 7 0 (ALLOC_N zero_page 7) (ALLOC_N zero_page 7) 0 in
  nm_yale_storage_create zero_page zero_page minimum_2r1 dense_cells
    (3, 3) 2 4 = Ok s0 /\
  (6 <= capacity s0 <= 10 \/ capacity s0 = 4 /\ 6 <= growth_1_5 4) /\
  exists s2 s3,
    exec (init;;
          set_all growth_1_5 zero_page zero_page
            [((0, 0), 1); ((1, 1), 2); ((2, 2), 3); ((0, 2), 7)]) s0
      = Ok s2 /\
    take 5 (ija s2) = [4; 5; 5; 5; 2] /\
    rd (a s2) 4 = Ok 7 /\
    get_size s2 = Ok 5 /\
    insert_search s2 4 (wrap64 (5 - 1)) 1 = Ok (4, false) /\
    set growth_1_5 zero_page zero_page (0, 1) 5 s2 = Done "i"%char s3 /\
    take 4 (ija s3) = [4; 6; 6; 6] /\
    take 2 (drop 4 (ija s3)) = [1; 2] /\
    take 2 (drop 4 (a s3)) = [5; 7].
Proof.
  intros s0. split; [reflexivity|]. split; [left; simpl; lia|].
  apply (set_0_1_shifts_0_2 minimum_2r1 dense_cells growth_1_5
           zero_page zero_page s0);
    [reflexivity | left; simpl; lia].
Defined.

(** With a capacity of exactly 5 cells after the write of (0,2), the write of
    (0,1) resizes and the entry (0,2) is lost. *)
Lemma set_0_1_loses_0_2_at_capacity_5 (junk_ija junk_a : nat -> Z) :
  let s2 := mkYale 2 (3, 3) 5 1 [4; 5; 5; 5; 2] [1; 2; 3; 0; 7] 0 in
  exists s3,
    set growth_1_5 junk_ija junk_a (0, 1) 5 s2 = Done "i"%char s3 /\
    take 2 (drop 4 (ija s3)) = [1; junk_ija 5%nat] /\
    take 2 (drop 4 (a s3)) = [5; junk_a 5%nat].
Proof.
  intros s2. eexists. split; [vm_compute; reflexivity|].
  split; reflexivity.
Qed.

(** ** The in-place path of [set] *)


Lemma wrap64_small (x : Z) : 0 <= x < 2 ^ 64 -> wrap64 x = x.
Proof. intros H. unfold wrap64. apply Z.mod_small. exact H. Qed.

(** [insert_search] on a sorted range inside the buffer. *)
Lemma insert_search_rec_spec (s : YALE_STORAGE) (key : Z) :
  Z.of_nat (length (ija s)) <= 2 ^ 64 ->
  forall fuel left right,
    (Z.to_nat (right + 1 - left) < fuel)%nat ->
    1 <= left -> left <= right + 1 ->
    right < Z.of_nat (length (ija s)) ->
    sorted_range (ija s) left (right + 1) ->
    exists pos found,
      insert_search_rec fuel s left right key = Ok (pos, found) /\
      left <= pos <= right + 1 /\
      (found = true -> rd (ija s) pos = Ok key /\ pos <= right) /\
      (found = false ->
       (forall k x, left <= k < pos -> rd (ija s) k = Ok x -> x < key) /\
       (forall k x, pos <= k <= right -> rd (ija s) k = Ok x -> key < x)).
Proof.
  intros Hlen. induction fuel as [|fuel IH];
    intros left right Hfuel Hl Hlr Hr Hs.
  - lia.
  - simpl. destruct (right <? left) eqn:E.
    + apply Z.ltb_lt in E. exists left, false. split; [reflexivity|].
      split; [lia|]. split; [discriminate|]. intros _. split; intros; lia.
    + apply Z.ltb_ge in E.
      set (mid := (left + right) / 2).
      assert (Hmid : left <= mid <= right).
      { unfold mid. split.
        - apply Z.div_le_lower_bound; lia.
        - apply Z.div_le_upper_bound; lia. }
      destruct (rd_in_range (ija s) mid) as [m Hm]; [lia|].
      rewrite Hm. unfold mbind, res_bind.
      destruct (m =? key) eqn:Em.
      * apply Z.eqb_eq in Em. subst m. exists mid, true.
        split; [reflexivity|]. split; [lia|]. split; [split; [assumption|lia]|].
        discriminate.
      * apply Z.eqb_neq in Em. destruct (key <? m) eqn:El.
        -- apply Z.ltb_lt in El. rewrite wrap64_small by lia.
           destruct (IH left (mid - 1))
             as (pos & found & Hrun & Hpos & Hf & Hnf);
             [lia|lia|lia|lia| |].
           { intros i j x y Hi Hij Hj. apply Hs; lia. }
           exists pos, found. split; [exact Hrun|]. split; [lia|].
           split.
           ++ intros Ht. destruct (Hf Ht). split; [assumption|lia].
           ++ intros Ht. destruct (Hnf Ht) as [Hb Ha]. split; [exact Hb|].
              intros k x Hk Hx.
              destruct (Z_lt_le_dec k mid) as [Hlt|Hge].
              ** apply (Ha k x); [lia|exact Hx].
              ** destruct (Z.eq_dec k mid) as [->|Hne].
                 --- rewrite Hm in Hx. injection Hx as <-. exact El.
                 --- assert (m < x) by (apply (Hs mid k m x); auto; lia). lia.
        -- apply Z.ltb_ge in El.
           destruct (IH (mid + 1) right)
             as (pos & found & Hrun & Hpos & Hf & Hnf);
             [lia|lia|lia|lia| |].
           { intros i j x y Hi Hij Hj. apply Hs; lia. }
           exists pos, found. split; [exact Hrun|]. split; [lia|].
           split; [exact Hf|].
           intros Ht. destruct (Hnf Ht) as [Hb Ha]. split; [|exact Ha].
           intros k x Hk Hx.
           destruct (Z_lt_le_dec mid k) as [Hlt|Hge].
           ** apply (Hb k x); [lia|exact Hx].
           ** destruct (Z.eq_dec k mid) as [->|Hne].
              --- rewrite Hm in Hx. injection Hx as <-. lia.
              --- assert (x < m) by (apply (Hs k mid x m); auto; lia). lia.
Qed.

(** [binary_search] on a sorted range that holds the key. *)
Lemma binary_search_rec_finds (s : YALE_STORAGE) (key pos : Z) :
  Z.of_nat (length (ija s)) <= 2 ^ 64 ->
  rd (ija s) pos = Ok key ->
  forall fuel left right,
    (Z.to_nat (right + 1 - left) < fuel)%nat ->
    1 <= left -> left <= pos <= right ->
    right < Z.of_nat (length (ija s)) ->
    sorted_range (ija s) left (right + 1) ->
    binary_search_rec fuel s left right key = Ok (to_int pos).
Proof.
  intros Hlen Hpos. induction fuel as [|fuel IH];
    intros left right Hfuel Hl Hlr Hr Hs.
  - lia.
  - simpl. destruct (right <? left) eqn:E; [apply Z.ltb_lt in E; lia|].
    set (mid := (left + right) / 2).
    assert (Hmid : left <= mid <= right).
    { unfold mid. split.
      - apply Z.div_le_lower_bound; lia.
      - apply Z.div_le_upper_bound; lia. }
    destruct (rd_in_range (ija s) mid) as [m Hm]; [lia|].
    rewrite Hm. unfold mbind, res_bind.
    destruct (m =? key) eqn:Em.
    + apply Z.eqb_eq in Em. subst m.
      assert (mid = pos).
      { destruct (Z.lt_trichotomy mid pos) as [H|[H|H]]; [|exact H|].
        - assert (key < key) by (apply (Hs mid pos key key); auto; lia). lia.
        - assert (key < key) by (apply (Hs pos mid key key); auto; lia). lia. }
      subst. reflexivity.
    + apply Z.eqb_neq in Em. destruct (key <? m) eqn:El.
      * apply Z.ltb_lt in El. rewrite wrap64_small by lia.
        assert (pos < mid).
        { destruct (Z_lt_le_dec pos mid) as [H|H]; [exact H|].
          destruct (Z.eq_dec pos mid) as [->|Hne]; [congruence|].
          assert (m < key) by (apply (Hs mid pos m key); auto; lia). lia. }
        apply IH; [lia|lia|lia|lia|].
        intros i j x y Hi Hij Hj. apply Hs; lia.
      * apply Z.ltb_ge in El.
        assert (mid < pos).
        { destruct (Z_lt_le_dec mid pos) as [H|H]; [exact H|].
          destruct (Z.eq_dec pos mid) as [->|Hne]; [congruence|].
          assert (key < m) by (apply (Hs pos mid key m); auto; lia). lia. }
        apply IH; [lia|lia|lia|lia|].
        intros i j x y Hi Hij Hj. apply Hs; lia.
Qed.

Lemma rd_insert (l : list Z) (q x k : Z) :
  0 <= q < Z.of_nat (length l) -> 0 <= k ->
  rd (<[Z.to_nat q := x]> l) k = if k =? q then Ok x else rd l k.
Proof.
  intros Hq Hk. destruct (k =? q) eqn:E.
  - apply Z.eqb_eq in E. subst k. apply rd_Ok. split; [lia|].
    apply list_lookup_insert_eq. lia.
  - apply Z.eqb_neq in E. unfold rd. destruct (k <? 0); [reflexivity|].
    rewrite list_lookup_insert_ne by lia. reflexivity.
Qed.

Lemma wr_a_Done (i v : Z) (s : YALE_STORAGE) :
  0 <= i < Z.of_nat (length (a s)) ->
  wr_a i v s = Done tt (set_a (<[Z.to_nat i := v]> (a s)) s).
Proof.
  intros Hi. unfold wr_a.
  destruct (wr (a s) i v) as [l|e] eqn:Hw.
  - apply wr_Ok in Hw. destruct Hw as [_ ->]. reflexivity.
  - unfold wr in Hw. replace (i <? 0) with false in Hw by lia.
    destruct (lookup_lt_is_Some_2 (a s) (Z.to_nat i)) as [x Hx]; [lia|].
    rewrite Hx in Hw. discriminate.
Qed.

Lemma same_frame_refl (s : YALE_STORAGE) : same_frame s s.
Proof. repeat split. Qed.

(** [ija[q] = ija[p]; a[q] = a[p]]. *)
Lemma copy_cell_Done (p q x y : Z) (s : YALE_STORAGE) :
  rd (ija s) p = Ok x -> rd (a s) p = Ok y ->
  0 <= q < Z.of_nat (length (ija s)) -> 0 <= q < Z.of_nat (length (a s)) ->
  (x ← rd_ija p; wr_ija q x;; y ← rd_a p; wr_a q y) s
  = Done tt (set_a (<[Z.to_nat q := y]> (a s))
               (set_ija (<[Z.to_nat q := x]> (ija s)) s)).
Proof.
  intros Hx Hy Hq Hq'. unfold mbind, M_bind, rd_ija, rd_a, lift.
  rewrite Hx. rewrite wr_ija_Done by lia. simpl. rewrite Hy.
  rewrite wr_a_Done by (simpl; lia). reflexivity.
Qed.

(** The loop of [vector_insert] that moves the entries [pos..size) up by
    [n], from the last one down. *)
Lemma shift_loop_spec (size pos n : Z) (s : YALE_STORAGE) :
  1 <= n -> 0 <= pos <= size ->
  size + n <= Z.of_nat (length (ija s)) ->
  size + n <= Z.of_nat (length (a s)) ->
  size + n <= 2 ^ 64 ->
  exists s',
    for_range 0 (wrap64 (size - pos)) (fun i =>
      x ← rd_ija (wrap64 (size - 1 - i));
      wr_ija (wrap64 (size + n - 1 - i)) x;;
      y ← rd_a (wrap64 (size - 1 - i));
      wr_a (wrap64 (size + n - 1 - i)) y) s = Done tt s' /\
    same_frame s s' /\
    (forall k, 0 <= k ->
       rd (ija s') k =
       if (pos + n <=? k) && (k <? size + n) then rd (ija s) (k - n)
       else rd (ija s) k) /\
    (forall k, 0 <= k ->
       rd (a s') k =
       if (pos + n <=? k) && (k <? size + n) then rd (a s) (k - n)
       else rd (a s) k).
Proof.
  intros Hn Hpos Hli Hla H64. rewrite wrap64_small by lia. unfold for_range.
  pose (P := fun (i : Z) (st : YALE_STORAGE) =>
    same_frame s st /\
    (forall k, 0 <= k ->
       rd (ija st) k =
       if (size + n - i <=? k) && (k <? size + n) then rd (ija s) (k - n)
       else rd (ija s) k) /\
    (forall k, 0 <= k ->
       rd (a st) k =
       if (size + n - i <=? k) && (k <? size + n) then rd (a s) (k - n)
       else rd (a s) k)).
  destruct (for_count_total P
    (fun i =>
      x ← rd_ija (wrap64 (size - 1 - i));
      wr_ija (wrap64 (size + n - 1 - i)) x;;
      y ← rd_a (wrap64 (size - 1 - i));
      wr_a (wrap64 (size + n - 1 - i)) y)
    (Z.to_nat (size - pos - 0)) 0 s) as (s' & Hrun & HP).
  - unfold P. split; [apply same_frame_refl|].
    split; intros k Hk;
      (replace ((size + n - 0 <=? k) && (k <? size + n)) with false by lia);
      reflexivity.
  - intros i st Hi (Hf & Hij & Ha).
    destruct Hf as (F1 & F2 & F3 & F4 & F5 & F6 & F7).
    rewrite !wrap64_small by lia.
    destruct (rd_in_range (ija s) (size - 1 - i)) as [x Hx]; [lia|].
    destruct (rd_in_range (a s) (size - 1 - i)) as [y Hy]; [lia|].
    assert (Hx' : rd (ija st) (size - 1 - i) = Ok x).
    { rewrite Hij by lia.
      replace ((size + n - i <=? size - 1 - i) && (size - 1 - i <? size + n))
        with false by lia. exact Hx. }
    assert (Hy' : rd (a st) (size - 1 - i) = Ok y).
    { rewrite Ha by lia.
      replace ((size + n - i <=? size - 1 - i) && (size - 1 - i <? size + n))
        with false by lia. exact Hy. }
    rewrite (copy_cell_Done _ _ x y) by (auto; lia).
    eexists. split; [reflexivity|]. unfold P, same_frame. simpl.
    rewrite !length_insert. split; [repeat split; assumption|].
    split; intros k Hk.
    + rewrite rd_insert by lia. rewrite Hij by lia.
      destruct (k =? size + n - 1 - i) eqn:E.
      * apply Z.eqb_eq in E. subst k.
        replace ((size + n - (i + 1) <=? size + n - 1 - i)
                 && (size + n - 1 - i <? size + n)) with true by lia.
        replace (size + n - 1 - i - n) with (size - 1 - i) by lia.
        symmetry. exact Hx.
      * apply Z.eqb_neq in E.
        replace ((size + n - (i + 1) <=? k) && (k <? size + n))
          with ((size + n - i <=? k) && (k <? size + n)) by lia.
        reflexivity.
    + rewrite rd_insert by lia. rewrite Ha by lia.
      destruct (k =? size + n - 1 - i) eqn:E.
      * apply Z.eqb_eq in E. subst k.
        replace ((size + n - (i + 1) <=? size + n - 1 - i)
                 && (size + n - 1 - i <? size + n)) with true by lia.
        replace (size + n - 1 - i - n) with (size - 1 - i) by lia.
        symmetry. exact Hy.
      * apply Z.eqb_neq in E.
        replace ((size + n - (i + 1) <=? k) && (k <? size + n))
          with ((size + n - i <=? k) && (k <? size + n)) by lia.
        reflexivity.
  - exists s'. split; [exact Hrun|]. destruct HP as (Hf & Hij & Ha).
    split; [exact Hf|].
    split; intros k Hk; [rewrite Hij by lia|rewrite Ha by lia];
      (replace (size + n - (0 + Z.of_nat (Z.to_nat (size - pos - 0))))
         with (pos + n) by lia); reflexivity.
Qed.

(** [ija[q] = j[0]; a[q] = val[0]]. *)
Lemma write_cell_Done (q c v : Z) (s : YALE_STORAGE) :
  0 <= q < Z.of_nat (length (ija s)) -> 0 <= q < Z.of_nat (length (a s)) ->
  (x ← lift (rd [c] 0); wr_ija (q + 0) x;;
   y ← lift (rd [v] 0); wr_a (q + 0) y) s
  = Done tt (set_a (<[Z.to_nat q := v]> (a s))
               (set_ija (<[Z.to_nat q := c]> (ija s)) s)).
Proof.
  intros Hq Hq'. unfold mbind, M_bind, lift.
  change (rd [c] 0) with (Ok c). change (rd [v] 0) with (Ok v).
  replace (q + 0) with q by lia.
  rewrite wr_ija_Done by lia. rewrite wr_a_Done by (simpl; lia). reflexivity.
Qed.

(** [vector_insert] of one entry with its value, when no resize is
    needed. *)
Lemma vector_insert_in_place GROWTH junk_ija junk_a (pos c v size : Z)
    (s : YALE_STORAGE) :
  get_size s = Ok size ->
  0 <= (shape s).1 <= pos -> pos <= size ->
  size + 1 <= capacity s -> capacity s <= 2 ^ 64 ->
  length (ija s) = Z.to_nat (capacity s) ->
  length (a s) = Z.to_nat (capacity s) ->
  exists s',
    vector_insert GROWTH junk_ija junk_a pos [c] [v] 1 false s
      = Done "i"%char s' /\
    same_frame s s' /\
    (forall k, 0 <= k ->
       rd (ija s') k =
       if k =? pos then Ok c
       else if (pos + 1 <=? k) && (k <? size + 1) then rd (ija s) (k - 1)
       else rd (ija s) k) /\
    (forall k, 0 <= k ->
       rd (a s') k =
       if k =? pos then Ok v
       else if (pos + 1 <=? k) && (k <? size + 1) then rd (a s) (k - 1)
       else rd (a s) k).
Proof.
  intros Hsize Hpos Hps Hcap H64 Hli Hla.
  destruct (shift_loop_spec size pos 1 s) as (s1 & Hshift & Hf & Hij & Ha);
    [lia|lia|lia|lia|lia|].
  destruct Hf as (F1 & F2 & F3 & F4 & F5 & F6 & F7).
  unfold vector_insert. unfold mbind at 1, M_bind at 1, get at 1.
  replace (pos <? (shape s).1) with false by lia.
  unfold mbind at 1, M_bind at 1, lift at 1. rewrite Hsize.
  replace (capacity s <? size + 1) with false by lia.
  unfold mbind at 1, M_bind at 1. rewrite Hshift.
  unfold mbind at 1, M_bind at 1. unfold for_range.
  change (Z.to_nat (1 - 0)) with 1%nat. rewrite for_count_S.
  rewrite write_cell_Done by lia. simpl.
  eexists. split; [reflexivity|]. unfold same_frame. simpl.
  rewrite !length_insert. split; [repeat split; assumption|].
  split; intros k Hk.
  - rewrite rd_insert by lia. destruct (k =? pos); [reflexivity|].
    apply Hij. exact Hk.
  - rewrite rd_insert by lia. destruct (k =? pos); [reflexivity|].
    apply Ha. exact Hk.
Qed.

(** [increment_ia_after]: the row pointers behind row [i] move up by
    [n]. *)
Lemma increment_ia_after_spec (ija_size i n : Z) (s : YALE_STORAGE) :
  0 <= i <= ija_size -> ija_size < Z.of_nat (length (ija s)) ->
  exists s',
    increment_ia_after ija_size i n s = Done tt s' /\
    same_frame s s' /\ a s' = a s /\
    (forall k, 0 <= k ->
       rd (ija s') k =
       if (i + 1 <=? k) && (k <=? ija_size) then
         x ← rd (ija s) k; Ok (x + n)
       else rd (ija s) k).
Proof.
  intros Hi Hlen. unfold increment_ia_after, for_range.
  pose (P := fun (j : Z) (st : YALE_STORAGE) =>
    same_frame s st /\ a st = a s /\
    (forall k, 0 <= k ->
       rd (ija st) k =
       if (i + 1 <=? k) && (k <? j) then x ← rd (ija s) k; Ok (x + n)
       else rd (ija s) k)).
  destruct (for_count_total P
    (fun k => x ← rd_ija k; wr_ija k (x + n))
    (Z.to_nat (ija_size + 1 - (i + 1))) (i + 1) s) as (s' & Hrun & HP).
  - unfold P. split; [apply same_frame_refl|]. split; [reflexivity|].
    intros k Hk. replace ((i + 1 <=? k) && (k <? i + 1)) with false by lia.
    reflexivity.
  - intros j st Hj (Hf & Ha & Hij).
    destruct Hf as (F1 & F2 & F3 & F4 & F5 & F6 & F7).
    destruct (rd_in_range (ija s) j) as [x Hx]; [lia|].
    assert (Hx' : rd (ija st) j = Ok x).
    { rewrite Hij by lia.
      replace ((i + 1 <=? j) && (j <? j)) with false by lia. exact Hx. }
    unfold mbind, M_bind, rd_ija, lift. rewrite Hx'.
    rewrite wr_ija_Done by lia.
    eexists. split; [reflexivity|]. unfold P, same_frame. simpl.
    rewrite !length_insert. split; [repeat split; assumption|].
    split; [exact Ha|]. intros k Hk.
    rewrite rd_insert by lia. rewrite Hij by lia.
    destruct (k =? j) eqn:E.
    + apply Z.eqb_eq in E. subst k.
      replace ((i + 1 <=? j) && (j <? j + 1)) with true by lia.
      rewrite Hx. reflexivity.
    + apply Z.eqb_neq in E.
      replace ((i + 1 <=? k) && (k <? j + 1))
        with ((i + 1 <=? k) && (k <? j)) by lia.
      reflexivity.
  - exists s'. split; [exact Hrun|]. destruct HP as (Hf & Ha & Hij).
    split; [exact Hf|]. split; [exact Ha|]. intros k Hk.
    rewrite Hij by lia. rewrite Z2Nat.id by lia.
    replace (k <? i + 1 + (ija_size + 1 - (i + 1))) with (k <=? ija_size)
      by lia.
    reflexivity.
Qed.

Lemma strictly_increasing_cons (x : Z) (l : list Z) :
  strictly_increasing (x :: l) = true ->
  Forall (fun y => x < y) l /\ strictly_increasing l = true.
Proof.
  revert x. induction l as [|y l IH]; intros x H.
  - split; [constructor|reflexivity].
  - simpl in H. apply andb_true_iff in H. destruct H as [Hxy Hl].
    apply Z.ltb_lt in Hxy. split; [|exact Hl].
    constructor; [exact Hxy|].
    destruct (IH y Hl) as [Hall _].
    eapply Forall_impl; [exact Hall|]. simpl. intros z Hz. lia.
Qed.

Lemma strictly_increasing_lookup (l : list Z) :
  strictly_increasing l = true ->
  forall i j x y, (i < j)%nat -> l !! i = Some x -> l !! j = Some y -> x < y.
Proof.
  induction l as [|z l IH]; intros H i j x y Hij Hx Hy.
  - discriminate.
  - destruct (strictly_increasing_cons z l H) as [Hall Hl].
    destruct j as [|j]; [lia|]. destruct i as [|i].
    + simpl in Hx, Hy. injection Hx as <-.
      rewrite Forall_lookup in Hall. exact (Hall j y Hy).
    + simpl in Hx, Hy. apply (IH Hl i j); [lia|exact Hx|exact Hy].
Qed.

(** The entries of the slice [lo..hi) of a buffer. *)
Lemma slice_lookup (l : list Z) (lo hi k x : Z) :
  0 <= lo -> lo <= k < hi -> rd l k = Ok x ->
  take (Z.to_nat (hi - lo)) (drop (Z.to_nat lo) l) !! Z.to_nat (k - lo)
  = Some x.
Proof.
  intros Hlo Hk Hx. apply rd_Ok in Hx. destruct Hx as [_ Hx].
  rewrite lookup_take_lt by lia. rewrite lookup_drop.
  replace (Z.to_nat lo + Z.to_nat (k - lo))%nat with (Z.to_nat k) by lia.
  exact Hx.
Qed.

(** The executable check implies the invariants. *)
Lemma well_formed_layout (s : YALE_STORAGE) :
  well_formed s = true -> exists size, layout s size.
Proof.
  intros Hwf.
  destruct (well_formed_facts s Hwf)
    as (size & Hsz & HR & Hl1 & Hl2 & Hb & Hnd & H64 & Hrows).
  exists size.
  assert (Hrow : forall i, 0 <= i < (shape s).1 ->
    exists lo hi cols,
      rd (ija s) i = Ok lo /\ rd (ija s) (i + 1) = Ok hi /\
      cols = take (Z.to_nat (hi - lo)) (drop (Z.to_nat lo) (ija s)) /\
      (shape s).1 + 1 <= lo /\ lo <= hi /\ hi <= size /\
      strictly_increasing cols = true /\
      forallb (fun c => (0 <=? c) && (c <? (shape s).2) && negb (c =? i))
        cols = true).
  { intros i Hi. specialize (Hrows i Hi). unfold well_formed_row in Hrows.
    unfold row_cols in Hrows.
    destruct (rd (ija s) i) as [lo|]; [|discriminate].
    destruct (rd (ija s) (i + 1)) as [hi|]; [|discriminate].
    unfold mbind, res_bind in Hrows.
    repeat match goal with
           | H : _ && _ = true |- _ => apply andb_true_iff in H; destruct H
           end.
    exists lo, hi, (take (Z.to_nat (hi - lo)) (drop (Z.to_nat lo) (ija s))).
    repeat match goal with
           | H : (_ <=? _) = true |- _ => apply Z.leb_le in H
           end.
    repeat split; auto. }
  constructor; try assumption.
  - intros i Hi. destruct (Z.eq_dec i (shape s).1) as [->|Hne].
    + exists size. split; [exact Hsz|lia].
    + destruct (Hrow i ltac:(lia))
        as (lo & hi & cols & Hlo & _ & _ & H1 & H2 & H3 & _).
      exists lo. split; [exact Hlo|lia].
  - intros i p q Hi Hp Hq.
    destruct (Hrow i Hi) as (lo & hi & cols & Hlo & Hhi & _ & H1 & H2 & _).
    congruence.
  - intros i p q Hi Hp Hq.
    destruct (Hrow i Hi)
      as (lo & hi & cols & Hlo & Hhi & Hc & H1 & H2 & H3 & Hinc & _).
    rewrite Hp in Hlo. injection Hlo as <-.
    rewrite Hq in Hhi. injection Hhi as <-.
    intros k j x y Hk Hkj Hj Hx Hy.
    apply (strictly_increasing_lookup cols Hinc
             (Z.to_nat (k - p)) (Z.to_nat (j - p))); [lia| |].
    + rewrite Hc. apply slice_lookup; [lia|lia|exact Hx].
    + rewrite Hc. apply slice_lookup; [lia|lia|exact Hy].
  - intros i p q k x Hi Hp Hq Hk Hx.
    destruct (Hrow i Hi)
      as (lo & hi & cols & Hlo & Hhi & Hc & H1 & H2 & H3 & _ & Hall).
    rewrite Hp in Hlo. injection Hlo as <-.
    rewrite Hq in Hhi. injection Hhi as <-.
    rewrite forallb_forall in Hall.
    assert (Hin : In x cols).
    { apply list_elem_of_In, list_elem_of_lookup.
      exists (Z.to_nat (k - p)). rewrite Hc.
      apply slice_lookup; [lia|lia|exact Hx]. }
    specialize (Hall x Hin). lia.
Qed.

(** Case analysis on every comparison of the goal. *)
Ltac zcases :=
  repeat match goal with
         | |- context [?x <=? ?y] => destruct (Z.leb_spec x y)
         | |- context [?x <? ?y] => destruct (Z.ltb_spec x y)
         | |- context [?x =? ?y] => destruct (Z.eqb_spec x y)
         end;
  simpl; try reflexivity; try lia.

(** The row pointers grow with the row. *)
Lemma layout_chain (s : YALE_STORAGE) (size : Z) :
  layout s size ->
  forall n i j p q,
    j = i + Z.of_nat n -> 0 <= i -> j <= (shape s).1 ->
    rd (ija s) i = Ok p -> rd (ija s) j = Ok q -> p <= q.
Proof.
  intros L. induction n as [|n IH]; intros i j p q Hj Hi HjR Hp Hq.
  - replace j with i in Hq by lia. rewrite Hp in Hq. injection Hq as <-. lia.
  - destruct (lay_ptr s size L (j - 1) ltac:(lia)) as (m & Hm & _).
    assert (p <= m) by (apply (IH i (j - 1)); auto; lia).
    assert (m <= q).
    { apply (lay_mono s size L (j - 1)); [lia|exact Hm|].
      replace (j - 1 + 1) with j by lia. exact Hq. }
    lia.
Qed.

(** The common end of the two inserting branches of [set], when no resize
    is needed. *)
Lemma insert_in_place GROWTH junk_ija junk_a (s : YALE_STORAGE)
    (size r pos c v : Z) :
  layout s size ->
  0 <= r < (shape s).1 -> (shape s).1 < pos <= size ->
  size + 1 <= capacity s ->
  exists s',
    (ins_type ← vector_insert GROWTH junk_ija junk_a pos [c] [v] 1 false;
     s ← get;
     increment_ia_after (shape s).1 r 1;;
     incr_ndnz;;
     mret ins_type) s = Done "i"%char s' /\
    inserted s s' r pos c v size.
Proof.
  intros L Hr Hpos Hcap.
  destruct (vector_insert_in_place GROWTH junk_ija junk_a pos c v size s)
    as (s1 & Hins & Hf1 & Hij1 & Ha1);
    [apply (lay_size s size L) | pose proof (lay_rows s size L); lia | lia
    | lia | apply (lay_cap s size L) | apply (lay_len_ija s size L)
    | apply (lay_len_a s size L) |].
  destruct Hf1 as (F1 & F2 & F3 & F4 & F5 & F6 & F7).
  pose proof (lay_len_ija s size L) as Hlen.
  pose proof (lay_bounds s size L) as Hb.
  destruct (increment_ia_after_spec (shape s).1 r 1 s1)
    as (s2 & Hinc & Hf2 & Ha2 & Hij2); [lia|lia|].
  destruct Hf2 as (G1 & G2 & G3 & G4 & G5 & G6 & G7).
  unfold mbind at 1, M_bind at 1. rewrite Hins.
  unfold mbind at 1, M_bind at 1, get at 1. rewrite F2.
  unfold mbind at 1, M_bind at 1. rewrite Hinc.
  unfold mbind, M_bind, incr_ndnz, modify, mret, M_ret.
  eexists. split; [reflexivity|].
  unfold inserted. simpl.
  split; [congruence|]. split; [congruence|]. split; [congruence|].
  split; [congruence|]. split; [congruence|]. split; [congruence|].
  split; intros k Hk.
  - rewrite Hij2 by lia. rewrite Hij1 by lia. zcases.
  - rewrite Ha2. rewrite Ha1 by lia. zcases.
Qed.

Section Inserted.

Variables (s s' : YALE_STORAGE) (size r pos c v lo hi : Z).
Hypothesis L : layout s size.
Hypothesis Hins : inserted s s' r pos c v size.
Hypothesis Hr : 0 <= r < (shape s).1.
Hypothesis Hlo : rd (ija s) r = Ok lo.
Hypothesis Hhi : rd (ija s) (r + 1) = Ok hi.
Hypothesis Hpos : lo <= pos <= hi.
Hypothesis Hroom : size + 1 <= capacity s.
Hypothesis Hc : 0 <= c < (shape s).2.
Hypothesis Hcr : c <> r.
Hypothesis Hbelow : forall k x, lo <= k < pos -> rd (ija s) k = Ok x -> x < c.
Hypothesis Habove : forall k x, pos <= k < hi -> rd (ija s) k = Ok x -> c < x.

Lemma ins_lo_bounds : (shape s).1 + 1 <= lo /\ hi <= size.
Proof.
  destruct (lay_ptr s size L r ltac:(lia)) as (p & Hp & Hpb).
  destruct (lay_ptr s size L (r + 1) ltac:(lia)) as (q & Hq & Hqb).
  rewrite Hlo in Hp. injection Hp as <-.
  rewrite Hhi in Hq. injection Hq as <-. lia.
Qed.

Lemma ins_low k : 0 <= k <= r -> rd (ija s') k = rd (ija s) k.
Proof.
  intros Hk. destruct Hins as (_ & _ & _ & _ & _ & _ & Hij & _).
  rewrite Hij by lia. zcases.
Qed.

Lemma ins_ptr k x :
  r < k <= (shape s).1 -> rd (ija s) k = Ok x -> rd (ija s') k = Ok (x + 1).
Proof.
  intros Hk Hx. destruct Hins as (_ & _ & _ & _ & _ & _ & Hij & _).
  rewrite Hij by lia. rewrite Hx. zcases.
Qed.

Lemma ins_pre k : (shape s).1 < k < pos -> rd (ija s') k = rd (ija s) k.
Proof.
  intros Hk. destruct Hins as (_ & _ & _ & _ & _ & _ & Hij & _).
  pose proof ins_lo_bounds. rewrite Hij by lia. zcases.
Qed.

Lemma ins_at : rd (ija s') pos = Ok c.
Proof.
  destruct Hins as (_ & _ & _ & _ & _ & _ & Hij & _).
  pose proof ins_lo_bounds. rewrite Hij by lia. zcases.
Qed.

Lemma ins_post k : pos < k <= size -> rd (ija s') k = rd (ija s) (k - 1).
Proof.
  intros Hk. destruct Hins as (_ & _ & _ & _ & _ & _ & Hij & _).
  pose proof ins_lo_bounds. rewrite Hij by lia. zcases.
Qed.

(** The pointers of row [i] after the insertion, from those before. *)
Lemma ins_row i p' q' :
  0 <= i < (shape s).1 ->
  rd (ija s') i = Ok p' -> rd (ija s') (i + 1) = Ok q' ->
  exists p q,
    rd (ija s) i = Ok p /\ rd (ija s) (i + 1) = Ok q /\
    (shape s).1 + 1 <= p /\ p <= q /\ q <= size /\
    (i < r /\ p' = p /\ q' = q /\ q <= lo \/
     i = r /\ p' = p /\ q' = q + 1 \/
     r < i /\ p' = p + 1 /\ q' = q + 1 /\ hi <= p).
Proof.
  intros Hi Hp' Hq'.
  destruct (lay_ptr s size L i ltac:(lia)) as (p & Hp & Hpb).
  destruct (lay_ptr s size L (i + 1) ltac:(lia)) as (q & Hq & Hqb).
  pose proof (lay_mono s size L i p q Hi Hp Hq) as Hpq.
  exists p, q. split; [exact Hp|]. split; [exact Hq|].
  split; [lia|]. split; [lia|]. split; [lia|].
  destruct (Z.lt_trichotomy i r) as [Hlt|[->|Hgt]].
  - left. rewrite ins_low in Hp', Hq' by lia.
    split; [lia|]. split; [congruence|]. split; [congruence|].
    apply (layout_chain s size L (Z.to_nat (r - (i + 1))) (i + 1) r);
      [lia|lia|lia|exact Hq|exact Hlo].
  - right. left. rewrite ins_low in Hp' by lia.
    rewrite (ins_ptr (r + 1) q) in Hq' by (auto; lia).
    split; [reflexivity|]. split; congruence.
  - right. right. rewrite (ins_ptr i p) in Hp' by (auto; lia).
    rewrite (ins_ptr (i + 1) q) in Hq' by (auto; lia).
    split; [lia|]. split; [congruence|]. split; [congruence|].
    apply (layout_chain s size L (Z.to_nat (i - (r + 1))) (r + 1) i);
      [lia|lia|lia|exact Hhi|exact Hp].
Qed.

(** The invariants hold after the insertion. *)
Lemma inserted_layout : layout s' (size + 1).
Proof.
  pose proof ins_lo_bounds as Hlb.
  pose proof Hins as (I1 & I2 & I3 & I4 & I5 & I6 & Hij & Ha).
  constructor.
  - rewrite I2. apply (lay_rows s size L).
  - rewrite I3. apply (lay_cap s size L).
  - rewrite I5, I3. apply (lay_len_ija s size L).
  - rewrite I6, I3. apply (lay_len_a s size L).
  - unfold get_size. rewrite I2.
    apply (ins_ptr (shape s).1 size); [lia|]. apply (lay_size s size L).
  - rewrite I2, I3. pose proof (lay_bounds s size L). lia.
  - rewrite I4, I2. rewrite (lay_ndnz s size L). lia.
  - rewrite I2. intros i Hi.
    destruct (lay_ptr s size L i Hi) as (p & Hp & Hpb).
    destruct (Z_le_gt_dec i r) as [Hle|Hgt].
    + exists p. rewrite ins_low by lia. split; [exact Hp|lia].
    + exists (p + 1). rewrite (ins_ptr i p) by (auto; lia).
      split; [reflexivity|lia].
  - rewrite I2. intros i p' q' Hi Hp' Hq'.
    destruct (ins_row i p' q' Hi Hp' Hq')
      as (p & q & _ & _ & _ & Hpq & _ & [H|[H|H]]); lia.
  - rewrite I2. intros i p' q' Hi Hp' Hq'.
    destruct (ins_row i p' q' Hi Hp' Hq')
      as (p & q & Hp & Hq & Hpl & Hpq & Hqs & [H|[H|H]]).
    + destruct H as (Hir & -> & -> & Hql).
      intros k j x y Hk Hkj Hj Hx Hy.
      rewrite ins_pre in Hx, Hy by lia.
      apply (lay_sorted s size L i p q Hi Hp Hq k j); auto.
    + destruct H as (-> & -> & ->).
      rewrite Hlo in Hp. injection Hp as <-.
      rewrite Hhi in Hq. injection Hq as <-.
      pose proof (lay_sorted s size L r lo hi Hi Hlo Hhi) as Hs.
      intros k j x y Hk Hkj Hj Hx Hy.
      destruct (Z.lt_trichotomy k pos) as [Hkp|[->|Hkp]];
        destruct (Z.lt_trichotomy j pos) as [Hjp|[->|Hjp]]; try lia.
      * rewrite ins_pre in Hx, Hy by lia. apply (Hs k j); auto; lia.
      * rewrite ins_pre in Hx by lia. rewrite ins_at in Hy.
        injection Hy as <-. apply (Hbelow k); [lia|exact Hx].
      * rewrite ins_pre in Hx by lia. rewrite ins_post in Hy by lia.
        apply (Hs k (j - 1)); auto; lia.
      * rewrite ins_at in Hx. injection Hx as <-.
        rewrite ins_post in Hy by lia. apply (Habove (j - 1)); [lia|exact Hy].
      * rewrite ins_post in Hx, Hy by lia.
        apply (Hs (k - 1) (j - 1)); auto; lia.
    + destruct H as (Hir & -> & -> & Hhp).
      intros k j x y Hk Hkj Hj Hx Hy.
      rewrite ins_post in Hx, Hy by lia.
      apply (lay_sorted s size L i p q Hi Hp Hq (k - 1) (j - 1)); auto; lia.
  - rewrite I2. intros i p' q' k x Hi Hp' Hq' Hk Hx.
    destruct (ins_row i p' q' Hi Hp' Hq')
      as (p & q & Hp & Hq & Hpl & Hpq & Hqs & [H|[H|H]]).
    + destruct H as (Hir & -> & -> & Hql).
      rewrite ins_pre in Hx by lia.
      apply (lay_cols s size L i p q k x Hi Hp Hq); auto.
    + destruct H as (-> & -> & ->).
      rewrite Hlo in Hp. injection Hp as <-.
      rewrite Hhi in Hq. injection Hq as <-.
      destruct (Z.lt_trichotomy k pos) as [Hkp|[->|Hkp]].
      * rewrite ins_pre in Hx by lia.
        apply (lay_cols s size L r lo hi k x Hi Hlo Hhi); auto; lia.
      * rewrite ins_at in Hx. injection Hx as <-. split; [exact Hc|exact Hcr].
      * rewrite ins_post in Hx by lia.
        apply (lay_cols s size L r lo hi (k - 1) x Hi Hlo Hhi); auto; lia.
    + destruct H as (Hir & -> & -> & Hhp).
      rewrite ins_post in Hx by lia.
      apply (lay_cols s size L i p q (k - 1) x Hi Hp Hq); auto; lia.
Qed.

(** [ref] finds the inserted entry. *)
Lemma inserted_read :
  capacity s <= 2 ^ 31 -> read_cell s' (r, c) = Ok v.
Proof.
  intros H31. pose proof ins_lo_bounds as Hlb.
  pose proof Hins as (I1 & I2 & I3 & I4 & I5 & I6 & Hij & Ha).
  pose proof inserted_layout as L'.
  pose proof (lay_bounds s size L) as Hb.
  unfold read_cell, ref. cbn [fst snd].
  replace (r =? c) with false by lia.
  rewrite (ins_low r) by lia. rewrite Hlo.
  rewrite (ins_ptr (r + 1) hi) by (auto; lia).
  unfold mbind at 1, res_bind at 1.
  unfold mbind at 1, res_bind at 1.
  unfold mbind at 1, res_bind at 1.
  replace (lo =? hi + 1) with false by lia.
  rewrite wrap64_small by lia.
  unfold binary_search.
  rewrite (binary_search_rec_finds s' c pos).
  - assert (Hint : to_int pos = pos).
    { unfold to_int. rewrite Z.mod_small by lia.
      replace (pos <? 2 ^ 31) with true by lia. reflexivity. }
    rewrite Hint. unfold mbind at 1, res_bind at 1.
    replace (pos =? -1) with false by lia.
    rewrite ins_at. unfold mbind at 1, res_bind at 1.
    rewrite Z.eqb_refl. unfold mbind, res_bind, deref.
    rewrite Ha by lia. rewrite Z.eqb_refl. reflexivity.
  - rewrite I5. rewrite (lay_len_ija s size L).
    pose proof (lay_cap s size L). lia.
  - apply ins_at.
  - lia.
  - lia.
  - lia.
  - rewrite I5. rewrite (lay_len_ija s size L). lia.
  - replace (hi + 1 - 1 + 1) with (hi + 1) by lia.
    apply (lay_sorted s' (size + 1) L' r lo (hi + 1)).
    + rewrite I2. exact Hr.
    + rewrite ins_low by lia. exact Hlo.
    + apply (ins_ptr (r + 1) hi); [lia|exact Hhi].
Qed.

End Inserted.

Lemma layout_set_a (s : YALE_STORAGE) (size : Z) (l : list Z) :
  layout s size -> length l = length (a s) -> layout (set_a l s) size.
Proof.
  intros L Hl. destruct L. constructor; simpl; try assumption. congruence.
Qed.

(** [set] when the buffers have room for one more entry: it returns, the
    invariants of the layout hold afterwards, and [ref] at the same cell
    yields the value written.  The bound on the capacity is that of the
    [int] in which [ref] receives the position. *)
Theorem set_in_place GROWTH junk_ija junk_a (s : YALE_STORAGE)
    (size r c v : Z) :
  layout s size ->
  0 <= r < (shape s).1 -> 0 <= c < (shape s).2 ->
  size + 1 <= capacity s ->
  exists ch s' size',
    set GROWTH junk_ija junk_a (r, c) v s = Done ch s' /\
    layout s' size' /\ size <= size' <= size + 1 /\
    capacity s' = capacity s /\ shape s' = shape s /\
    (capacity s <= 2 ^ 31 -> read_cell s' (r, c) = Ok v).
Proof.
  intros L Hr Hc Hroom.
  pose proof (lay_bounds s size L) as Hb.
  pose proof (lay_len_a s size L) as Hla.
  pose proof (lay_len_ija s size L) as Hli.
  pose proof (lay_cap s size L) as H64.
  unfold set. cbn [fst snd].
  destruct (r =? c) eqn:Erc.
  - (* the diagonal *)
    apply Z.eqb_eq in Erc. subst c.
    unfold mbind, M_bind. rewrite wr_a_Done by lia.
    exists "r"%char, (set_a (<[Z.to_nat r := v]> (a s)) s), size.
    split; [reflexivity|].
    split; [apply layout_set_a; [exact L|apply length_insert]|].
    split; [lia|]. split; [reflexivity|]. split; [reflexivity|].
    intros _. unfold read_cell, ref. cbn [fst snd]. rewrite Z.eqb_refl.
    unfold mbind, res_bind, deref. simpl. apply rd_Ok. split; [lia|].
    apply list_lookup_insert_eq. lia.
  - apply Z.eqb_neq in Erc.
    destruct (lay_ptr s size L r ltac:(lia)) as (lo & Hlo & Hlob).
    destruct (lay_ptr s size L (r + 1) ltac:(lia)) as (hi & Hhi & Hhib).
    pose proof (lay_mono s size L r lo hi Hr Hlo Hhi) as Hlh.
    unfold mbind at 1, M_bind at 1, rd_ija at 1, lift at 1. rewrite Hlo.
    unfold mbind at 1, M_bind at 1, rd_ija at 1, lift at 1. rewrite Hhi.
    destruct (lo =? hi) eqn:Elh.
    + (* an empty row *)
      apply Z.eqb_eq in Elh. subst hi.
      destruct (insert_in_place GROWTH junk_ija junk_a s size r lo c v)
        as (s' & Hrun & Hins); [exact L|exact Hr|lia|exact Hroom|].
      exists "i"%char, s', (size + 1). split; [exact Hrun|].
      assert (L' : layout s' (size + 1)).
      { apply (inserted_layout s s' size r lo c v lo lo); auto; try lia.
        all: intros k x Hk; lia. }
      split; [exact L'|]. split; [lia|].
      pose proof Hins as (I1 & I2 & I3 & _).
      split; [exact I3|]. split; [exact I2|].
      apply (inserted_read s s' size r lo c v lo lo); auto; try lia.
      all: intros k x Hk; lia.
    + (* a row with entries *)
      apply Z.eqb_neq in Elh.
      unfold mbind at 1, M_bind at 1, get at 1.
      rewrite wrap64_small by lia. unfold insert_search.
      destruct (insert_search_rec_spec s c ltac:(lia)
                  (S (Z.to_nat (hi - 1 + 1 - lo))) lo (hi - 1))
        as (pos & found & Hsearch & Hpos & Hfound & Hnot);
        [lia|lia|lia|lia| |].
      { replace (hi - 1 + 1) with hi by lia.
        apply (lay_sorted s size L r lo hi Hr Hlo Hhi). }
      rewrite Hsearch. unfold mbind at 1, M_bind at 1, lift at 1.
      destruct found.
      * (* replace *)
        destruct (Hfound eq_refl) as [Hat Hle].
        assert (Hsame : <[Z.to_nat pos := c]> (ija s) = ija s).
        { apply list_insert_id. apply rd_Ok in Hat. apply Hat. }
        unfold mbind, M_bind. rewrite wr_ija_Done by lia. rewrite Hsame.
        rewrite wr_a_Done by (simpl; lia). simpl.
        assert (Hs' : set_ija (ija s) s = s) by (destruct s; reflexivity).
        rewrite Hs'.
        exists "r"%char, (set_a (<[Z.to_nat pos := v]> (a s)) s), size.
        split; [reflexivity|].
        assert (L' : layout (set_a (<[Z.to_nat pos := v]> (a s)) s) size)
          by (apply layout_set_a; [exact L|apply length_insert]).
        split; [exact L'|]. split; [lia|].
        split; [reflexivity|]. split; [reflexivity|].
        intros H31. unfold read_cell, ref. cbn [fst snd ija set_a shape].
        replace (r =? c) with false by lia. rewrite Hlo, Hhi.
        unfold mbind at 1, res_bind at 1.
        unfold mbind at 1, res_bind at 1.
        unfold mbind at 1, res_bind at 1.
        replace (lo =? hi) with false by lia.
        rewrite wrap64_small by lia. unfold binary_search.
        rewrite (binary_search_rec_finds _ c pos).
        -- assert (Hint : to_int pos = pos).
           { unfold to_int. rewrite Z.mod_small by lia.
             replace (pos <? 2 ^ 31) with true by lia. reflexivity. }
           rewrite Hint. unfold mbind at 1, res_bind at 1.
           replace (pos =? -1) with false by lia.
           cbn [ija set_a]. rewrite Hat. unfold mbind at 1, res_bind at 1.
           rewrite Z.eqb_refl. unfold mbind, res_bind, deref. cbn [a set_a].
           apply rd_Ok. split; [lia|]. apply list_lookup_insert_eq. lia.
        -- cbn [ija set_a]. lia.
        -- exact Hat.
        -- lia.
        -- lia.
        -- lia.
        -- cbn [ija set_a]. lia.
        -- cbn [ija set_a]. replace (hi - 1 + 1) with hi by lia.
           apply (lay_sorted s size L r lo hi Hr Hlo Hhi).
      * (* insert *)
        destruct (Hnot eq_refl) as [Hbelow Habove].
        destruct (insert_in_place GROWTH junk_ija junk_a s size r pos c v)
          as (s' & Hrun & Hins); [exact L|exact Hr|lia|exact Hroom|].
        exists "i"%char, s', (size + 1). split; [exact Hrun|].
        assert (L' : layout s' (size + 1)).
        { apply (inserted_layout s s' size r pos c v lo hi); auto; try lia.
          intros k x Hk. apply Habove. lia. }
        split; [exact L'|]. split; [lia|].
        pose proof Hins as (I1 & I2 & I3 & _).
        split; [exact I3|]. split; [exact I2|].
        apply (inserted_read s s' size r pos c v lo hi); auto; try lia.
        intros k x Hk. apply Habove. lia.
Qed.

(** A sequence of writes that the buffers have room for: every [set]
    returns and the invariants of the layout, row order included, hold at
    the end. *)
Theorem set_all_in_place GROWTH junk_ija junk_a (writes : list (Z * Z * Z)) :
  forall (s : YALE_STORAGE) (size : Z),
    layout s size ->
    Forall (in_bounds s) writes ->
    size + Z.of_nat (length writes) <= capacity s ->
    exists s' size',
      exec (set_all GROWTH junk_ija junk_a writes) s = Ok s' /\
      layout s' size' /\ size' <= size + Z.of_nat (length writes) /\
      capacity s' = capacity s /\ shape s' = shape s.
Proof.
  induction writes as [|[[r c] v] writes IH]; intros s size L Hall Hroom.
  - exists s, size. split; [reflexivity|]. split; [exact L|].
    split; [simpl; lia|]. split; reflexivity.
  - apply Forall_cons in Hall. destruct Hall as [[Hr Hc] Hall].
    simpl in Hr, Hc. simpl length in Hroom.
    destruct (set_in_place GROWTH junk_ija junk_a s size r c v L Hr Hc)
      as (ch & s1 & size1 & Hrun & L1 & Hs1 & Hc1 & Hsh1 & _); [lia|].
    destruct (IH s1 size1 L1) as (s' & size' & Hrun' & L' & Hs' & Hc' & Hsh').
    + eapply Forall_impl; [exact Hall|].
      intros w Hw. unfold in_bounds in *. rewrite Hsh1. exact Hw.
    + lia.
    + exists s', size'. split.
      * unfold exec in *. simpl. unfold mbind, M_bind. rewrite Hrun.
        exact Hrun'.
      * split; [exact L'|]. split; [simpl length; lia|].
        split; congruence.
Qed.

(** [init] on a descriptor as [nm_yale_storage_create] returns it, when the
    capacity holds the row pointers: the matrix is empty and the invariants
    of the layout hold. *)
Lemma init_layout junk_ija junk_a (shape0 : Z * Z) (c : Z) :
  0 <= shape0.1 -> shape0.1 + 1 <= c <= 2 ^ 64 ->
  exists s,
    exec init (mkYale 2 shape0 c 0 (ALLOC_N junk_ija c) (ALLOC_N junk_a c) 0)
      = Ok s /\
    layout s (shape0.1 + 1) /\ capacity s = c /\ shape s = shape0.
Proof.
  intros HR Hc.
  set (s0 := mkYale 2 shape0 c 0 (ALLOC_N junk_ija c) (ALLOC_N junk_a c) 0).
  pose (P := fun (j : Z) (st : YALE_STORAGE) =>
    same_frame s0 st /\ a st = a s0 /\
    forall k, 0 <= k < j -> rd (ija st) k = Ok (shape0.1 + 1)).
  destruct (for_count_total P (fun i => wr_ija i (shape0.1 + 1))
              (Z.to_nat (shape0.1 + 1 - 0)) 0 s0) as (s1 & Hrun1 & HP1).
  { unfold P. split; [apply same_frame_refl|]. split; [reflexivity|].
    intros k Hk. lia. }
  { intros j st Hj (Hf & Ha & Hij).
    destruct Hf as (F1 & F2 & F3 & F4 & F5 & F6 & F7).
    rewrite wr_ija_Done
      by (rewrite F6; unfold s0; simpl; rewrite length_ALLOC_N; lia).
    eexists. split; [reflexivity|]. unfold P, same_frame. simpl.
    rewrite length_insert. split; [repeat split; assumption|].
    split; [exact Ha|]. intros k Hk.
    rewrite rd_insert
      by (try rewrite F6; unfold s0; simpl; try rewrite length_ALLOC_N; lia).
    destruct (Z.eqb_spec k j); [reflexivity|]. apply Hij. lia. }
  destruct HP1 as (Hf1 & Ha1 & Hij1).
  destruct Hf1 as (F1 & F2 & F3 & F4 & F5 & F6 & F7).
  pose (Q := fun (j : Z) (st : YALE_STORAGE) =>
    same_frame s1 st /\ ija st = ija s1).
  destruct (for_count_total Q (fun i => wr_a i 0)
              (Z.to_nat (shape0.1 + 1 - 0)) 0 s1) as (s2 & Hrun2 & HP2).
  { unfold Q. split; [apply same_frame_refl|reflexivity]. }
  { intros j st Hj (Hf & Hi).
    destruct Hf as (G1 & G2 & G3 & G4 & G5 & G6 & G7).
    rewrite wr_a_Done
      by (rewrite G7, F7; unfold s0; simpl; rewrite length_ALLOC_N; lia).
    eexists. split; [reflexivity|]. unfold Q, same_frame. simpl.
    rewrite length_insert. split; [repeat split; assumption|exact Hi]. }
  destruct HP2 as (Hf2 & Hi2).
  destruct Hf2 as (G1 & G2 & G3 & G4 & G5 & G6 & G7).
  exists s2. split.
  - unfold exec, init. unfold mbind at 1, M_bind at 1, get at 1.
    unfold mbind at 1, M_bind at 1. unfold for_range.
    change (shape s0) with shape0. rewrite Hrun1.
    unfold clear_diagonal_and_zero. unfold mbind at 1, M_bind at 1, get at 1.
    unfold for_range. rewrite F2. change (shape s0) with shape0.
    rewrite Hrun2. reflexivity.
  - assert (Hsh : shape s2 = shape0) by (rewrite G2, F2; reflexivity).
    assert (Hcap : capacity s2 = c) by (rewrite G3, F3; reflexivity).
    assert (Hptr : forall k, 0 <= k <= shape0.1 ->
                     rd (ija s2) k = Ok (shape0.1 + 1)).
    { intros k Hk. rewrite Hi2. apply Hij1. lia. }
    split; [|split; [exact Hcap|exact Hsh]].
    constructor; rewrite ?Hsh, ?Hcap.
    + exact HR.
    + lia.
    + rewrite G6, F6. unfold s0. simpl. apply length_ALLOC_N.
    + rewrite G7, F7. unfold s0. simpl. apply length_ALLOC_N.
    + unfold get_size. rewrite Hsh. apply Hptr. lia.
    + lia.
    + rewrite G4, F4. unfold s0. simpl. lia.
    + intros i Hi. exists (shape0.1 + 1). split; [apply Hptr; lia|lia].
    + intros i p q Hi Hp Hq. rewrite Hptr in Hp, Hq by lia.
      injection Hp as <-. injection Hq as <-. lia.
    + intros i p q Hi Hp Hq. rewrite Hptr in Hp, Hq by lia.
      injection Hp as <-. injection Hq as <-.
      intros k j x y Hk Hkj Hj. lia.
    + intros i p q k x Hi Hp Hq Hk. rewrite Hptr in Hp, Hq by lia.
      injection Hp as <-. injection Hq as <-. lia.
Qed.

Lemma strictly_increasing_intro (l : list Z) :
  (forall i x y, l !! i = Some x -> l !! S i = Some y -> x < y) ->
  strictly_increasing l = true.
Proof.
  induction l as [|x l IH]; intros H; [reflexivity|].
  destruct l as [|y l]; [reflexivity|].
  change (strictly_increasing (x :: y :: l))
    with ((x <? y) && strictly_increasing (y :: l)).
  apply andb_true_iff. split.
  - apply Z.ltb_lt. apply (H O x y); reflexivity.
  - apply IH. intros i a b Ha Hb. apply (H (S i) a b); assumption.
Qed.

(** Invariant I1 in the form of the specification: the slice of every row
    is strictly increasing. *)
Lemma layout_rows_sorted (s : YALE_STORAGE) (size : Z) :
  layout s size ->
  forall i, 0 <= i < (shape s).1 ->
    exists cols, row_cols s i = Ok cols /\ strictly_increasing cols = true.
Proof.
  intros L i Hi.
  destruct (lay_ptr s size L i ltac:(lia)) as (p & Hp & Hpb).
  destruct (lay_ptr s size L (i + 1) ltac:(lia)) as (q & Hq & Hqb).
  pose proof (lay_sorted s size L i p q Hi Hp Hq) as Hs.
  pose proof (lay_rows s size L) as HR.
  unfold row_cols. rewrite Hp, Hq. unfold mbind, res_bind.
  eexists. split; [reflexivity|].
  apply strictly_increasing_intro. intros k x y Hx Hy.
  assert (Hk : (S k < Z.to_nat (q - p))%nat).
  { apply lookup_lt_Some in Hy. rewrite length_take in Hy. lia. }
  rewrite lookup_take_lt, lookup_drop in Hx by lia.
  rewrite lookup_take_lt, lookup_drop in Hy by lia.
  apply (Hs (p + Z.of_nat k) (p + Z.of_nat (S k))); try lia.
  - apply rd_Ok. split; [lia|].
    replace (Z.to_nat (p + Z.of_nat k)) with (Z.to_nat p + k)%nat by lia.
    exact Hx.
  - apply rd_Ok. split; [lia|].
    replace (Z.to_nat (p + Z.of_nat (S k))) with (Z.to_nat p + S k)%nat
      by lia.
    exact Hy.
Qed.

(** Row order on a fresh descriptor, as long as the capacity that the
    creation chose holds the entries: after any sequence of writes at cells
    of the matrix every row is strictly increasing. *)
Theorem fresh_sets_keep_rows_sorted MIN count GROWTH junk_ija junk_a
    (shape0 : Z * Z) (init_capacity : Z) (writes : list (Z * Z * Z))
    (s0 : YALE_STORAGE) :
  nm_yale_storage_create junk_ija junk_a MIN count shape0 2 init_capacity
    = Ok s0 ->
  0 <= shape0.1 ->
  shape0.1 + 1 + Z.of_nat (length writes) <= capacity s0 <= 2 ^ 64 ->
  Forall (in_bounds s0) writes ->
  exists s',
    exec (init;; set_all GROWTH junk_ija junk_a writes) s0 = Ok s' /\
    forall i, 0 <= i < shape0.1 ->
      exists cols, row_cols s' i = Ok cols /\ strictly_increasing cols = true.
Proof.
  intros Hcreate HR Hcap Hall.
  pose proof (create_descriptor _ _ _ _ _ _ _ Hcreate) as Hs0.
  assert (Hshape : shape s0 = shape0) by (rewrite Hs0; reflexivity).
  destruct (init_layout junk_ija junk_a shape0 (capacity s0) HR ltac:(lia))
    as (s1 & Hinit & L1 & Hc1 & Hsh1).
  rewrite <- Hs0 in Hinit.
  destruct (set_all_in_place GROWTH junk_ija junk_a writes s1
              (shape0.1 + 1) L1)
    as (s' & size' & Hrun & L' & _ & _ & Hsh').
  - eapply Forall_impl; [exact Hall|].
    intros w Hw. unfold in_bounds in *. rewrite Hsh1, <- Hshape. exact Hw.
  - lia.
  - exists s'. split.
    + unfold exec in *. unfold mbind, M_bind.
      destruct (init s0) as [[] s1'|]; [|discriminate].
      injection Hinit as ->. exact Hrun.
    + intros i Hi. apply (layout_rows_sorted s' size' L').
      rewrite Hsh', Hsh1. exact Hi.
Qed.

(** Round trip on a well-formed descriptor with room for one more entry,
    whose capacity fits the [int] of [ref]. *)
Theorem set_ref_in_place GROWTH junk_ija junk_a (s : YALE_STORAGE)
    (r c v : Z) :
  well_formed s = true ->
  0 <= r < (shape s).1 -> 0 <= c < (shape s).2 ->
  (size ← get_size s; Ok (size + 1 <=? capacity s)) = Ok true ->
  capacity s <= 2 ^ 31 ->
  exists ch s',
    set GROWTH junk_ija junk_a (r, c) v s = Done ch s' /\
    read_cell s' (r, c) = Ok v.
Proof.
  intros Hwf Hr Hc Hroom H31.
  destruct (well_formed_layout s Hwf) as (size & L).
  rewrite (lay_size s size L) in Hroom. unfold mbind, res_bind in Hroom.
  injection Hroom as Hroom. apply Z.leb_le in Hroom.
  destruct (set_in_place GROWTH junk_ija junk_a s size r c v L Hr Hc Hroom)
    as (ch & s' & size' & Hrun & _ & _ & _ & _ & Hread).
  exists ch, s'. split; [exact Hrun|]. apply Hread. exact H31.
Qed.

(** The round trip at [without_stored_zero], which has room for one more
    entry. *)
Lemma set_ref_in_place_example :
  exists ch s',
    set growth_1_5 zero_page zero_page (0, 3) 9 without_stored_zero
      = Done ch s' /\
    read_cell s' (0, 3) = Ok 9.
Proof.
  apply set_ref_in_place;
    [vm_compute; reflexivity | simpl; lia | simpl; lia
    | vm_compute; reflexivity | simpl; lia].
Defined.

(** Row order on a fresh 3x3 descriptor of 7 cells after three writes off
    the diagonal, which fill it. *)
Lemma fresh_sets_keep_rows_sorted_example :
  let s0 := mkYale 2 (3, 3) 7 0 (ALLOC_N zero_page 7) (ALLOC_N zero_page 7) 0 in
  let writes := [((0, 2), 7); ((0, 1), 5); ((1, 0), 4)] in
  exists s',
    exec (init;; set_all growth_1_5 zero_page zero_page writes) s0 = Ok s' /\
    forall i, 0 <= i < 3 ->
      exists cols, row_cols s' i = Ok cols /\ strictly_increasing cols = true.
Proof.
  intros s0 writes.
  apply (fresh_sets_keep_rows_sorted minimum_2r1 dense_cells growth_1_5
           zero_page zero_page (3, 3) 4 writes s0).
  - reflexivity.
  - simpl. lia.
  - simpl. lia.
  - repeat constructor; simpl; lia.
Defined.

(** * Further properties of the storage engine *)

(** ** Index search *)

Lemma sorted_slice (l : list Z) (lo hi : Z) :
  0 <= lo ->
  strictly_increasing (take (Z.to_nat (hi - lo)) (drop (Z.to_nat lo) l))
    = true ->
  sorted_range l lo hi.
Proof.
  intros Hlo Hinc i j x y Hi Hij Hj Hx Hy.
  apply (strictly_increasing_lookup _ Hinc
           (Z.to_nat (i - lo)) (Z.to_nat (j - lo))); [lia| |].
  - apply slice_lookup; [lia|lia|exact Hx].
  - apply slice_lookup; [lia|lia|exact Hy].
Qed.

Lemma to_int_small (x : Z) : 0 <= x < 2 ^ 31 -> to_int x = x.
Proof.
  intros H. unfold to_int. rewrite Z.mod_small by lia.
  replace (x <? 2 ^ 31) with true by lia. reflexivity.
Qed.

(** [binary_search] on a sorted range inside the buffer: the result is [-1]
    when no position of the range holds the key, and otherwise the [int] of
    the position that holds it. *)
Lemma binary_search_rec_spec (s : YALE_STORAGE) (key : Z) :
  Z.of_nat (length (ija s)) <= 2 ^ 64 ->
  forall fuel left right,
    (Z.to_nat (right + 1 - left) < fuel)%nat ->
    1 <= left -> left <= right + 1 ->
    right < Z.of_nat (length (ija s)) ->
    sorted_range (ija s) left (right + 1) ->
    exists r,
      binary_search_rec fuel s left right key = Ok r /\
      ((r = -1 /\ forall k, left <= k <= right -> rd (ija s) k <> Ok key) \/
       (exists pos, left <= pos <= right /\ rd (ija s) pos = Ok key /\
                    r = to_int pos)).
Proof.
  intros Hlen. induction fuel as [|fuel IH];
    intros left right Hfuel Hl Hlr Hr Hs.
  - lia.
  - simpl. destruct (right <? left) eqn:E.
    + apply Z.ltb_lt in E. exists (-1). split; [reflexivity|].
      left. split; [reflexivity|]. intros k Hk. lia.
    + apply Z.ltb_ge in E.
      set (mid := (left + right) / 2).
      assert (Hmid : left <= mid <= right).
      { unfold mid. split.
        - apply Z.div_le_lower_bound; lia.
        - apply Z.div_le_upper_bound; lia. }
      destruct (rd_in_range (ija s) mid) as [m Hm]; [lia|].
      rewrite Hm. unfold mbind, res_bind.
      destruct (m =? key) eqn:Em.
      * apply Z.eqb_eq in Em. subst m. exists (to_int mid).
        split; [reflexivity|]. right. exists mid. auto.
      * apply Z.eqb_neq in Em. destruct (key <? m) eqn:El.
        -- apply Z.ltb_lt in El. rewrite wrap64_small by lia.
           destruct (IH left (mid - 1)) as (r & Hrun & Hres);
             [lia|lia|lia|lia| |].
           { intros i j x y Hi Hij Hj. apply Hs; lia. }
           exists r. split; [exact Hrun|].
           destruct Hres as [[-> Hno]|(pos & Hp & Hk & ->)].
           ++ left. split; [reflexivity|]. intros k Hk Hx.
              destruct (Z_lt_le_dec k mid) as [Hlt|Hge].
              ** apply (Hno k); [lia|exact Hx].
              ** destruct (Z.eq_dec k mid) as [->|Hne]; [congruence|].
                 assert (m < key) by (apply (Hs mid k m key); auto; lia). lia.
           ++ right. exists pos. split; [lia|]. auto.
        -- apply Z.ltb_ge in El.
           destruct (IH (mid + 1) right) as (r & Hrun & Hres);
             [lia|lia|lia|lia| |].
           { intros i j x y Hi Hij Hj. apply Hs; lia. }
           exists r. split; [exact Hrun|].
           destruct Hres as [[-> Hno]|(pos & Hp & Hk & ->)].
           ++ left. split; [reflexivity|]. intros k Hk Hx.
              destruct (Z_lt_le_dec mid k) as [Hlt|Hge].
              ** apply (Hno k); [lia|exact Hx].
              ** destruct (Z.eq_dec k mid) as [->|Hne]; [congruence|].
                 assert (key < m) by (apply (Hs k mid key m); auto; lia). lia.
           ++ right. exists pos. split; [lia|]. auto.
Qed.

(** [binary_search] over a strictly increasing range [left..right] of the
    index buffer, in a buffer whose positions fit the [int] result: the
    result is [-1] exactly when no position of the range holds the key, and
    otherwise it is the position that holds it.  An empty range
    ([right < left]) gives [-1]. *)
Theorem binary_search_spec (s : YALE_STORAGE) (left right key : Z) :
  Z.of_nat (length (ija s)) <= 2 ^ 31 ->
  1 <= left -> right < Z.of_nat (length (ija s)) ->
  strictly_increasing
    (take (Z.to_nat (right + 1 - left)) (drop (Z.to_nat left) (ija s)))
    = true ->
  exists r,
    binary_search s left right key = Ok r /\
    ((r = -1 /\ forall k, left <= k <= right -> rd (ija s) k <> Ok key) \/
     (left <= r <= right /\ rd (ija s) r = Ok key)).
Proof.
  intros Hlen Hl Hr Hinc. unfold binary_search.
  destruct (Z_lt_le_dec right left) as [Hlt|Hge].
  - exists (-1). simpl. replace (right <? left) with true by lia.
    split; [reflexivity|]. left. split; [reflexivity|]. intros k Hk. lia.
  - destruct (binary_search_rec_spec s key ltac:(lia)
                (S (Z.to_nat (right + 1 - left))) left right)
      as (r & Hrun & Hres); [lia|lia|lia|lia| |].
    { apply sorted_slice; [lia|exact Hinc]. }
    exists r. split; [exact Hrun|].
    destruct Hres as [H|(pos & Hp & Hk & ->)]; [left; exact H|].
    right. rewrite to_int_small by lia. auto.
Qed.

(** The search of the columns of row 0 of [without_stored_zero] and of
    [with_stored_zero]. *)
Lemma binary_search_spec_witness :
  exists r,
    binary_search with_stored_zero 3 4 3 = Ok r /\
    ((r = -1 /\
      forall k, 3 <= k <= 4 -> rd (ija with_stored_zero) k <> Ok 3) \/
     (3 <= r <= 4 /\ rd (ija with_stored_zero) r = Ok 3)).
Proof.
  apply (binary_search_spec with_stored_zero 3 4 3);
    [simpl; lia | lia | simpl; lia | vm_compute; reflexivity].
Defined.

(** [insert_search] over a strictly increasing range [left..right] of the
    index buffer: it returns the position of the key and [found], or the
    position at which the key keeps the range increasing: the entries before
    it are smaller, the entries from it on are larger. *)
Theorem insert_search_spec (s : YALE_STORAGE) (left right key : Z) :
  Z.of_nat (length (ija s)) <= 2 ^ 64 ->
  1 <= left -> left <= right + 1 -> right < Z.of_nat (length (ija s)) ->
  strictly_increasing
    (take (Z.to_nat (right + 1 - left)) (drop (Z.to_nat left) (ija s)))
    = true ->
  exists pos found,
    insert_search s left right key = Ok (pos, found) /\
    left <= pos <= right + 1 /\
    (found = true -> rd (ija s) pos = Ok key /\ pos <= right) /\
    (found = false ->
     (forall k x, left <= k < pos -> rd (ija s) k = Ok x -> x < key) /\
     (forall k x, pos <= k <= right -> rd (ija s) k = Ok x -> key < x)).
Proof.
  intros Hlen Hl Hlr Hr Hinc. unfold insert_search.
  apply insert_search_rec_spec; [exact Hlen|lia|lia|lia|lia|].
  apply sorted_slice; [lia|exact Hinc].
Qed.

Lemma insert_search_spec_witness :
  exists pos found,
    insert_search with_stored_zero 3 4 2 = Ok (pos, found) /\
    3 <= pos <= 4 + 1 /\
    (found = true -> rd (ija with_stored_zero) pos = Ok 2 /\ pos <= 4) /\
    (found = false ->
     (forall k x, 3 <= k < pos ->
                  rd (ija with_stored_zero) k = Ok x -> x < 2) /\
     (forall k x, pos <= k <= 4 ->
                  rd (ija with_stored_zero) k = Ok x -> 2 < x)).
Proof.
  apply (insert_search_spec with_stored_zero 3 4 2);
    [simpl; lia | lia | lia | simpl; lia | vm_compute; reflexivity].
Defined.

(** ** [ref] and the matrix that a descriptor denotes *)

Lemma slice_lookup_inv (l : list Z) (lo hi : Z) (n : nat) (x : Z) :
  0 <= lo ->
  take (Z.to_nat (hi - lo)) (drop (Z.to_nat lo) l) !! n = Some x ->
  lo <= lo + Z.of_nat n < hi /\ rd l (lo + Z.of_nat n) = Ok x.
Proof.
  intros Hlo H. apply lookup_take_Some in H. destruct H as [H Hn].
  rewrite lookup_drop in H. split; [lia|].
  apply rd_Ok. split; [lia|].
  replace (Z.to_nat (lo + Z.of_nat n)) with (Z.to_nat lo + n)%nat by lia.
  exact H.
Qed.

(** What [ref] returns for a cell off the diagonal: the position of the
    column in the row, or the zero slot when the row does not hold it. *)
Lemma ref_off_diagonal (s : YALE_STORAGE) (size i j lo hi : Z) :
  layout s size -> capacity s <= 2 ^ 31 ->
  0 <= i < (shape s).1 -> i <> j ->
  rd (ija s) i = Ok lo -> rd (ija s) (i + 1) = Ok hi ->
  exists k,
    ref s (i, j) = Ok k /\
    ((k = (shape s).1 /\ forall p, lo <= p < hi -> rd (ija s) p <> Ok j) \/
     (lo <= k < hi /\ rd (ija s) k = Ok j)).
Proof.
  intros L H31 Hi Hij Hlo Hhi.
  pose proof (lay_bounds s size L) as Hb.
  pose proof (lay_len_ija s size L) as Hli.
  destruct (lay_ptr s size L i ltac:(lia)) as (lo' & Hlo' & Hlob).
  destruct (lay_ptr s size L (i + 1) ltac:(lia)) as (hi' & Hhi' & Hhib).
  rewrite Hlo in Hlo'. injection Hlo' as <-.
  rewrite Hhi in Hhi'. injection Hhi' as <-.
  pose proof (lay_mono s size L i lo hi Hi Hlo Hhi) as Hlh.
  unfold ref. cbn [fst snd]. replace (i =? j) with false by lia.
  rewrite Hlo, Hhi.
  unfold mbind at 1, res_bind at 1. unfold mbind at 1, res_bind at 1.
  destruct (lo =? hi) eqn:E.
  - apply Z.eqb_eq in E. exists (shape s).1. split; [reflexivity|].
    left. split; [reflexivity|]. intros p Hp. lia.
  - apply Z.eqb_neq in E. rewrite wrap64_small by lia. unfold binary_search.
    destruct (binary_search_rec_spec s j ltac:(lia)
                (S (Z.to_nat (hi - 1 + 1 - lo))) lo (hi - 1))
      as (r & Hrun & Hres); [lia|lia|lia|lia| |].
    { replace (hi - 1 + 1) with hi by lia.
      apply (lay_sorted s size L i lo hi Hi Hlo Hhi). }
    rewrite Hrun. unfold mbind at 1, res_bind at 1.
    destruct Hres as [[-> Hno]|(pos & Hp & Hk & ->)].
    + exists (shape s).1. split; [reflexivity|]. left.
      split; [reflexivity|]. intros p Hp. apply Hno. lia.
    + rewrite to_int_small by lia. replace (pos =? -1) with false by lia.
      rewrite Hk. unfold mbind, res_bind. rewrite Z.eqb_refl.
      exists pos. split; [reflexivity|]. right. split; [lia|exact Hk].
Qed.

Lemma stored_at_found (cols vals : list Z) (j v : Z) :
  strictly_increasing cols = true ->
  forall n, cols !! n = Some j -> vals !! n = Some v ->
            stored_at cols vals j = Some v.
Proof.
  revert vals. induction cols as [|c cols IH]; intros vals Hinc n Hc Hv.
  - discriminate.
  - destruct vals as [|w vals]; [discriminate|].
    destruct (strictly_increasing_cons c cols Hinc) as [Hall Hinc'].
    destruct n as [|n]; simpl in Hc, Hv.
    + injection Hc as ->. injection Hv as ->. simpl.
      rewrite Z.eqb_refl. reflexivity.
    + rewrite Forall_lookup in Hall. pose proof (Hall n j Hc) as Hlt.
      simpl. replace (c =? j) with false by lia.
      apply (IH vals Hinc' n Hc Hv).
Qed.

Lemma stored_at_absent (cols vals : list Z) (j : Z) :
  (forall n c, cols !! n = Some c -> c <> j) ->
  stored_at cols vals j = None.
Proof.
  revert vals. induction cols as [|c cols IH]; intros vals Hno.
  - reflexivity.
  - destruct vals as [|w vals]; [reflexivity|].
    pose proof (Hno O c eq_refl) as Hc. simpl.
    replace (c =? j) with false by lia.
    apply IH. intros n c' Hn. apply (Hno (S n) c' Hn).
Qed.

(** [ref] computes the matrix that the descriptor denotes.  On a well-formed
    descriptor whose positions fit the [int] of [binary_search] and whose
    zero slot holds zero, the value behind the handle that [ref] returns for
    a cell of row [i] is the diagonal slot, the value stored with column [j]
    in row [i], or zero when the row stores no such column. *)
Theorem ref_reads_cell (s : YALE_STORAGE) (i j : Z) :
  well_formed s = true ->
  capacity s <= 2 ^ 31 ->
  rd (a s) (shape s).1 = Ok 0 ->
  0 <= i < (shape s).1 ->
  read_cell s (i, j) = cell s i j.
Proof.
  intros Hwf H31 Hzero Hi.
  destruct (well_formed_layout s Hwf) as (size & L).
  pose proof (lay_bounds s size L) as Hb.
  pose proof (lay_len_a s size L) as Hla.
  unfold read_cell, cell.
  destruct (i =? j) eqn:E.
  - unfold ref. cbn [fst snd]. rewrite E. reflexivity.
  - apply Z.eqb_neq in E.
    destruct (lay_ptr s size L i ltac:(lia)) as (lo & Hlo & Hlob).
    destruct (lay_ptr s size L (i + 1) ltac:(lia)) as (hi & Hhi & Hhib).
    destruct (ref_off_diagonal s size i j lo hi L H31 Hi E Hlo Hhi)
      as (k & Hk & Hres).
    rewrite Hk, Hlo, Hhi. unfold mbind, res_bind, deref.
    destruct Hres as [[-> Hno]|[Hkr Hkj]].
    + rewrite stored_at_absent; [exact Hzero|].
      intros n c Hn.
      destruct (slice_lookup_inv (ija s) lo hi n c ltac:(lia) Hn) as [Hr Hc].
      intros ->. exact (Hno _ Hr Hc).
    + destruct (rd_in_range (a s) k) as [v Hv]; [lia|].
      rewrite Hv.
      rewrite (stored_at_found _ _ j v) with (n := Z.to_nat (k - lo)).
      * reflexivity.
      * destruct (layout_rows_sorted s size L i Hi) as (cols & Hcols & Hinc).
        unfold row_cols in Hcols. rewrite Hlo, Hhi in Hcols.
        unfold mbind, res_bind in Hcols. injection Hcols as <-. exact Hinc.
      * apply slice_lookup; [lia|lia|exact Hkj].
      * apply slice_lookup; [lia|lia|exact Hv].
Qed.

Lemma ref_reads_cell_witness :
  read_cell with_stored_zero (0, 1) = cell with_stored_zero 0 1.
Proof.
  apply (ref_reads_cell with_stored_zero 0 1);
    [vm_compute; reflexivity | simpl; lia | reflexivity | simpl; lia].
Defined.

(** ** [set] case by case *)

(** Where [set] writes.  For a cell on the diagonal and for a cell whose
    column the row already holds it overwrites one value slot, whatever room
    the buffers have; otherwise it inserts at the position that keeps the row
    increasing, in place when the buffers have room for one more entry. *)
Lemma set_cases GROWTH junk_ija junk_a (s : YALE_STORAGE) (size r c v : Z) :
  layout s size ->
  0 <= r < (shape s).1 -> 0 <= c < (shape s).2 ->
  (r = c /\
   set GROWTH junk_ija junk_a (r, c) v s
   = Done "r"%char (set_a (<[Z.to_nat r := v]> (a s)) s))
  \/
  (r <> c /\ exists lo hi pos,
     rd (ija s) r = Ok lo /\ rd (ija s) (r + 1) = Ok hi /\
     lo <= pos < hi /\ rd (ija s) pos = Ok c /\
     set GROWTH junk_ija junk_a (r, c) v s
     = Done "r"%char (set_a (<[Z.to_nat pos := v]> (a s)) s))
  \/
  (r <> c /\ exists lo hi pos,
     rd (ija s) r = Ok lo /\ rd (ija s) (r + 1) = Ok hi /\
     lo <= pos <= hi /\
     (forall k x, lo <= k < pos -> rd (ija s) k = Ok x -> x < c) /\
     (forall k x, pos <= k < hi -> rd (ija s) k = Ok x -> c < x) /\
     (size + 1 <= capacity s ->
      exists s',
        set GROWTH junk_ija junk_a (r, c) v s = Done "i"%char s' /\
        inserted s s' r pos c v size)).
Proof.
  intros L Hr Hc.
  pose proof (lay_bounds s size L) as Hb.
  pose proof (lay_len_a s size L) as Hla.
  pose proof (lay_len_ija s size L) as Hli.
  pose proof (lay_cap s size L) as H64.
  destruct (Z.eq_dec r c) as [Erc|Erc].
  - subst c. left. split; [reflexivity|].
    unfold set. cbn [fst snd]. rewrite Z.eqb_refl.
    unfold mbind, M_bind. rewrite wr_a_Done by lia. reflexivity.
  - right.
    destruct (lay_ptr s size L r ltac:(lia)) as (lo & Hlo & Hlob).
    destruct (lay_ptr s size L (r + 1) ltac:(lia)) as (hi & Hhi & Hhib).
    pose proof (lay_mono s size L r lo hi Hr Hlo Hhi) as Hlh.
    assert (Hset : forall X : M YALE_STORAGE ascii,
      X = (if lo =? hi then
             ins_type ← vector_insert GROWTH junk_ija junk_a lo [c] [v] 1
                          false;
             s ← get;
             increment_ia_after (shape s).1 r 1;;
             incr_ndnz;;
             mret ins_type
           else
             s ← get;
             '(pos, found) ← lift (insert_search s lo (wrap64 (hi - 1)) c);
             if (found : bool) then
               wr_ija pos c;; wr_a pos v;; mret "r"%char
             else
               ins_type ← vector_insert GROWTH junk_ija junk_a pos [c] [v] 1
                            false;
               s ← get;
               increment_ia_after (shape s).1 r 1;;
               incr_ndnz;;
               mret ins_type) ->
      set GROWTH junk_ija junk_a (r, c) v s = X s).
    { intros X ->. unfold set. cbn [fst snd].
      replace (r =? c) with false by lia.
      unfold mbind at 1, M_bind at 1, rd_ija at 1, lift at 1. rewrite Hlo.
      unfold mbind at 1, M_bind at 1, rd_ija at 1, lift at 1. rewrite Hhi.
      reflexivity. }
    rewrite (Hset _ eq_refl). clear Hset.
    destruct (lo =? hi) eqn:Elh.
    + apply Z.eqb_eq in Elh. subst hi. right. split; [exact Erc|].
      exists lo, lo, lo. split; [exact Hlo|]. split; [exact Hhi|].
      split; [lia|]. split; [intros; lia|]. split; [intros; lia|].
      intros Hroom.
      destruct (insert_in_place GROWTH junk_ija junk_a s size r lo c v)
        as (s' & Hrun & Hins); [exact L|exact Hr|lia|exact Hroom|].
      exists s'. split; [exact Hrun|exact Hins].
    + apply Z.eqb_neq in Elh.
      destruct (insert_search_rec_spec s c ltac:(lia)
                  (S (Z.to_nat (hi - 1 + 1 - lo))) lo (hi - 1))
        as (pos & found & Hsearch & Hpos & Hfound & Hnot);
        [lia|lia|lia|lia| |].
      { replace (hi - 1 + 1) with hi by lia.
        apply (lay_sorted s size L r lo hi Hr Hlo Hhi). }
      assert (Hstep : forall K : Z * bool -> M YALE_STORAGE ascii,
        (s0 ← get;
         x ← lift (insert_search s0 lo (wrap64 (hi - 1)) c);
         K x) s = K (pos, found) s).
      { intros K. unfold mbind at 1, M_bind at 1, get at 1.
        rewrite wrap64_small by lia. unfold insert_search.
        rewrite Hsearch. reflexivity. }
      destruct found.
      * destruct (Hfound eq_refl) as [Hat Hle].
        left. split; [exact Erc|]. exists lo, hi, pos.
        split; [exact Hlo|]. split; [exact Hhi|]. split; [lia|].
        split; [exact Hat|].
        rewrite Hstep.
        assert (Hsame : <[Z.to_nat pos := c]> (ija s) = ija s).
        { apply list_insert_id. apply rd_Ok in Hat. apply Hat. }
        unfold mbind, M_bind. rewrite wr_ija_Done by lia. rewrite Hsame.
        rewrite wr_a_Done by (simpl; lia). simpl.
        assert (Hs' : set_ija (ija s) s = s) by (destruct s; reflexivity).
        rewrite Hs'. reflexivity.
      * destruct (Hnot eq_refl) as [Hbelow Habove].
        right. split; [exact Erc|]. exists lo, hi, pos.
        split; [exact Hlo|]. split; [exact Hhi|]. split; [lia|].
        split; [exact Hbelow|].
        split; [intros k x Hk; apply Habove; lia|].
        intros Hroom. rewrite Hstep.
        destruct (insert_in_place GROWTH junk_ija junk_a s size r pos c v)
          as (s' & Hrun & Hins); [exact L|exact Hr|lia|exact Hroom|].
        exists s'. split; [exact Hrun|exact Hins].
Qed.

(** The invariants imply the executable check. *)
Lemma layout_well_formed (s : YALE_STORAGE) (size : Z) :
  layout s size -> 0 <= (shape s).2 -> well_formed s = true.
Proof.
  intros L HC.
  pose proof (lay_bounds s size L) as Hb.
  pose proof (lay_rows s size L) as HR.
  unfold well_formed.
  rewrite (lay_size s size L), (lay_len_ija s size L), (lay_len_a s size L).
  rewrite !Nat.eqb_refl.
  replace (0 <=? (shape s).1) with true by lia.
  replace (0 <=? (shape s).2) with true by lia.
  replace (capacity s <=? 2 ^ 64) with true
    by (pose proof (lay_cap s size L); lia).
  replace ((shape s).1 + 1 <=? size) with true by lia.
  replace (size <=? capacity s) with true by lia.
  replace (ndnz s =? size - (shape s).1 - 1) with true
    by (pose proof (lay_ndnz s size L); lia).
  cbn [andb]. apply forallb_forall. intros i Hin.
  apply list_elem_of_In, elem_of_seqZ in Hin.
  assert (Hi : 0 <= i < (shape s).1) by lia.
  destruct (lay_ptr s size L i ltac:(lia)) as (lo & Hlo & Hlob).
  destruct (lay_ptr s size L (i + 1) ltac:(lia)) as (hi & Hhi & Hhib).
  pose proof (lay_mono s size L i lo hi Hi Hlo Hhi) as Hlh.
  destruct (layout_rows_sorted s size L i Hi) as (cols & Hcols & Hinc).
  unfold well_formed_row. rewrite Hlo, Hhi, Hcols, Hinc.
  replace ((shape s).1 + 1 <=? lo) with true by lia.
  replace (lo <=? hi) with true by lia.
  replace (hi <=? size) with true by lia.
  cbn [andb]. apply forallb_forall. intros x Hx.
  apply list_elem_of_In, list_elem_of_lookup in Hx. destruct Hx as [n Hn].
  unfold row_cols in Hcols. rewrite Hlo, Hhi in Hcols.
  unfold mbind, res_bind in Hcols. injection Hcols as <-.
  destruct (slice_lookup_inv (ija s) lo hi n x ltac:(lia) Hn) as [Hr Hc].
  destruct (lay_cols s size L i lo hi _ x Hi Hlo Hhi Hr Hc) as [Hx1 Hx2].
  replace (0 <=? x) with true by lia.
  replace (x <? (shape s).2) with true by lia.
  replace (x =? i) with false by lia. reflexivity.
Qed.

Lemma well_formed_cols (s : YALE_STORAGE) :
  well_formed s = true -> 0 <= (shape s).2.
Proof.
  unfold well_formed. intros H.
  repeat match goal with
         | H : _ && _ = true |- _ => apply andb_true_iff in H; destruct H
         end.
  lia.
Qed.

Lemma ref_stored (s : YALE_STORAGE) (size i j lo hi k : Z) :
  layout s size -> capacity s <= 2 ^ 31 ->
  0 <= i < (shape s).1 -> i <> j ->
  rd (ija s) i = Ok lo -> rd (ija s) (i + 1) = Ok hi ->
  lo <= k < hi -> rd (ija s) k = Ok j ->
  ref s (i, j) = Ok k.
Proof.
  intros L H31 Hi Hij Hlo Hhi Hk Hkj.
  destruct (ref_off_diagonal s size i j lo hi L H31 Hi Hij Hlo Hhi)
    as (k' & Hrun & [[_ Hno]|[Hk' Hkj']]).
  - exfalso. exact (Hno k Hk Hkj).
  - rewrite Hrun. f_equal.
    pose proof (lay_sorted s size L i lo hi Hi Hlo Hhi) as Hs.
    destruct (Z.lt_trichotomy k' k) as [H|[H|H]]; [|exact H|].
    + assert (j < j) by (apply (Hs k' k j j); auto; lia). lia.
    + assert (j < j) by (apply (Hs k k' j j); auto; lia). lia.
Qed.

Lemma ref_absent (s : YALE_STORAGE) (size i j lo hi : Z) :
  layout s size -> capacity s <= 2 ^ 31 ->
  0 <= i < (shape s).1 -> i <> j ->
  rd (ija s) i = Ok lo -> rd (ija s) (i + 1) = Ok hi ->
  (forall p, lo <= p < hi -> rd (ija s) p <> Ok j) ->
  ref s (i, j) = Ok (shape s).1.
Proof.
  intros L H31 Hi Hij Hlo Hhi Hno.
  destruct (ref_off_diagonal s size i j lo hi L H31 Hi Hij Hlo Hhi)
    as (k' & Hrun & [[-> _]|[Hk' Hkj']]).
  - exact Hrun.
  - exfalso. exact (Hno k' Hk' Hkj').
Qed.

(** The rows occupy disjoint ranges of positions. *)
Lemma rows_disjoint (s : YALE_STORAGE) (size i r p q lo hi k : Z) :
  layout s size ->
  0 <= i < (shape s).1 -> 0 <= r < (shape s).1 ->
  rd (ija s) i = Ok p -> rd (ija s) (i + 1) = Ok q ->
  rd (ija s) r = Ok lo -> rd (ija s) (r + 1) = Ok hi ->
  p <= k < q -> lo <= k < hi -> i = r.
Proof.
  intros L Hi Hr Hp Hq Hlo Hhi Hk Hk'.
  destruct (Z.lt_trichotomy i r) as [H|[H|H]]; [|exact H|].
  - assert (q <= lo).
    { apply (layout_chain s size L (Z.to_nat (r - (i + 1))) (i + 1) r);
        auto; lia. }
    lia.
  - assert (hi <= p).
    { apply (layout_chain s size L (Z.to_nat (i - (r + 1))) (r + 1) i);
        auto; lia. }
    lia.
Qed.

(** [ref] consults the index buffer and the shape only. *)
Lemma binary_search_rec_set_a (l : list Z) (s : YALE_STORAGE) (key : Z) :
  forall fuel left right,
    binary_search_rec fuel (set_a l s) left right key
    = binary_search_rec fuel s left right key.
Proof.
  induction fuel as [|fuel IH]; intros left right; [reflexivity|].
  simpl. destruct (right <? left); [reflexivity|].
  destruct (rd (ija s) ((left + right) / 2)) as [m|]; [|reflexivity].
  unfold mbind, res_bind. rewrite !IH. reflexivity.
Qed.

Lemma ref_set_a (l : list Z) (s : YALE_STORAGE) (coords : Z * Z) :
  ref (set_a l s) coords = ref s coords.
Proof.
  unfold ref, binary_search. cbn [ija shape set_a].
  destruct (coords.1 =? coords.2); [reflexivity|].
  destruct (rd (ija s) coords.1) as [x|]; [|reflexivity].
  destruct (rd (ija s) (coords.1 + 1)) as [y|]; [|reflexivity].
  unfold mbind, res_bind.
  destruct (x =? y); [reflexivity|].
  rewrite binary_search_rec_set_a. reflexivity.
Qed.

(** The handle that [ref] returns on a well-formed descriptor is the
    diagonal slot of the row, the zero slot, or a position of the row. *)
Lemma ref_handle (s : YALE_STORAGE) (size i j : Z) :
  layout s size -> capacity s <= 2 ^ 31 -> 0 <= i < (shape s).1 ->
  exists k,
    ref s (i, j) = Ok k /\
    (i = j /\ k = i \/
     i <> j /\ k = (shape s).1 \/
     i <> j /\ exists lo hi,
       rd (ija s) i = Ok lo /\ rd (ija s) (i + 1) = Ok hi /\
       (shape s).1 + 1 <= lo /\ lo <= k < hi /\ hi <= size /\
       rd (ija s) k = Ok j).
Proof.
  intros L H31 Hi.
  destruct (Z.eq_dec i j) as [<-|Hij].
  - exists i. split; [|left; auto].
    unfold ref. cbn [fst snd]. rewrite Z.eqb_refl. reflexivity.
  - destruct (lay_ptr s size L i ltac:(lia)) as (lo & Hlo & Hlob).
    destruct (lay_ptr s size L (i + 1) ltac:(lia)) as (hi & Hhi & Hhib).
    destruct (ref_off_diagonal s size i j lo hi L H31 Hi Hij Hlo Hhi)
      as (k & Hrun & [[-> _]|[Hk Hkj]]).
    + exists (shape s).1. split; [exact Hrun|]. right. left. auto.
    + exists k. split; [exact Hrun|]. right. right. split; [exact Hij|].
      exists lo, hi. repeat split; auto; lia.
Qed.

(** [set] in place leaves every other cell as it was. *)
Lemma set_frame GROWTH junk_ija junk_a (s : YALE_STORAGE)
    (size r c v i j : Z) :
  layout s size -> capacity s <= 2 ^ 31 ->
  0 <= r < (shape s).1 -> 0 <= c < (shape s).2 ->
  size + 1 <= capacity s ->
  0 <= i < (shape s).1 -> i <> r \/ j <> c ->
  exists ch s',
    set GROWTH junk_ija junk_a (r, c) v s = Done ch s' /\
    read_cell s' (i, j) = read_cell s (i, j).
Proof.
  intros L H31 Hr Hc Hroom Hi Hne.
  pose proof (lay_bounds s size L) as Hb.
  pose proof (lay_len_a s size L) as Hla.
  destruct (ref_handle s size i j L H31 Hi) as (k & Hk & Hcase).
  assert (Hold : read_cell s (i, j) = rd (a s) k).
  { unfold read_cell. rewrite Hk. reflexivity. }
  destruct (set_cases GROWTH junk_ija junk_a s size r c v L Hr Hc)
    as [[<- Hrun]
       |[(Hrc & lo & hi & pos & Hlo & Hhi & Hpos & Hat & Hrun)
        |(Hrc & lo & hi & pos & Hlo & Hhi & Hpos & Hbelow & Habove & Hins)]].
  - (* the diagonal *)
    eexists _, _. split; [exact Hrun|]. rewrite Hold.
    unfold read_cell. rewrite ref_set_a, Hk.
    unfold mbind, res_bind, deref. cbn [a set_a].
    assert (0 <= k /\ k <> r).
    { destruct Hcase as [[-> ->]|[[_ ->]|(_ & p & q & _ & _ & ? & ? & _)]];
        lia. }
    rewrite rd_insert by lia. replace (k =? r) with false by lia.
    reflexivity.
  - (* an entry of the row *)
    destruct (ins_lo_bounds s size r lo hi L Hr Hlo Hhi) as [Hlob Hhib].
    eexists _, _. split; [exact Hrun|]. rewrite Hold.
    unfold read_cell. rewrite ref_set_a, Hk.
    unfold mbind, res_bind, deref. cbn [a set_a].
    assert (0 <= k /\ k <> pos).
    { destruct Hcase
        as [[-> ->]|[[_ ->]|(Hij & p & q & Hp & Hq & ? & ? & ? & Hkj)]];
        [lia|lia|].
      split; [lia|]. intros ->.
      assert (i = r)
        by (apply (rows_disjoint s size i r p q lo hi pos L); auto).
      rewrite Hat in Hkj. injection Hkj as ->. lia. }
    rewrite rd_insert by lia. replace (k =? pos) with false by lia.
    reflexivity.
  - (* a new entry *)
    destruct (Hins Hroom) as (s' & Hrun & Hin).
    exists "i"%char, s'. split; [exact Hrun|]. rewrite Hold.
    destruct (ins_lo_bounds s size r lo hi L Hr Hlo Hhi) as [Hlob Hhib].
    assert (L' : layout s' (size + 1)).
    { apply (inserted_layout s s' size r pos c v lo hi); auto. }
    pose proof Hin as (I1 & I2 & I3 & I4 & I5 & I6 & Hija & Ha).
    assert (H31' : capacity s' <= 2 ^ 31) by (rewrite I3; exact H31).
    assert (Hi' : 0 <= i < (shape s').1) by (rewrite I2; exact Hi).
    assert (Hpre : forall t, (shape s).1 < t < pos ->
                             rd (ija s') t = rd (ija s) t).
    { intros t Ht. apply (ins_pre s s' size r pos c v lo hi); auto. }
    assert (Hpost : forall t, pos < t <= size ->
                              rd (ija s') t = rd (ija s) (t - 1)).
    { intros t Ht. apply (ins_post s s' size r pos c v lo hi); auto. }
    assert (Hnew : rd (ija s') pos = Ok c).
    { apply (ins_at s s' size r pos c v lo hi); auto. }
    destruct (Z.eq_dec i j) as [<-|Hij].
    + assert (k = i).
      { unfold ref in Hk. cbn [fst snd] in Hk. rewrite Z.eqb_refl in Hk.
        congruence. }
      subst k. unfold read_cell, ref. cbn [fst snd]. rewrite Z.eqb_refl.
      unfold mbind, res_bind, deref. rewrite Ha by lia.
      replace (i =? pos) with false by lia.
      replace (pos + 1 <=? i) with false by lia. reflexivity.
    + destruct (lay_ptr s' (size + 1) L' i ltac:(lia)) as (p' & Hp' & _).
      destruct (lay_ptr s' (size + 1) L' (i + 1) ltac:(lia))
        as (q' & Hq' & _).
      destruct (ins_row s s' size r pos c v lo hi L Hin Hr Hlo Hhi
                  i p' q' Hi Hp' Hq')
        as (p & q & Hp & Hq & Hpb & Hpq & Hqb & Hrel).
      assert (Hsame : i = r -> p = lo /\ q = hi).
      { intros ->. split; congruence. }
      destruct (ref_off_diagonal s size i j p q L H31 Hi Hij Hp Hq)
        as (k0 & Hk0 & Hres).
      rewrite Hk in Hk0. injection Hk0 as <-.
      destruct Hres as [[-> Hno]|[Hkr Hkj]].
      * (* the row does not hold the column *)
        unfold read_cell.
        rewrite (ref_absent s' (size + 1) i j p' q' L' H31' Hi' Hij Hp' Hq').
        -- unfold mbind, res_bind, deref. rewrite I2. rewrite Ha by lia.
           replace ((shape s).1 =? pos) with false by lia.
           replace (pos + 1 <=? (shape s).1) with false by lia. reflexivity.
        -- intros t Ht.
           destruct (Z.lt_trichotomy t pos) as [Hlt|[->|Hgt]].
           ++ rewrite Hpre by lia. apply Hno. lia.
           ++ rewrite Hnew. intros [= ->]. lia.
           ++ rewrite Hpost by lia. apply Hno. lia.
      * (* the row holds the column at [k] *)
        set (k' := if k <? pos then k else k + 1).
        assert (Hk' : p' <= k' < q' /\ rd (ija s') k' = Ok j /\
                      rd (a s') k' = rd (a s) k).
        { unfold k'. destruct (Z.ltb_spec k pos) as [Hlt|Hge].
          - split; [lia|]. split; [rewrite Hpre by lia; exact Hkj|].
            rewrite Ha by lia. replace (k =? pos) with false by lia.
            replace (pos + 1 <=? k) with false by lia. reflexivity.
          - split; [lia|]. split.
            + rewrite Hpost by lia. replace (k + 1 - 1) with k by lia.
              exact Hkj.
            + rewrite Ha by lia. replace (k + 1 =? pos) with false by lia.
              replace (pos + 1 <=? k + 1) with true by lia.
              replace (k + 1 <=? size) with true by lia.
              simpl. replace (k + 1 - 1) with k by lia. reflexivity. }
        destruct Hk' as (Hkr' & Hkj' & Hka).
        unfold read_cell.
        rewrite (ref_stored s' (size + 1) i j p' q' k' L' H31' Hi' Hij
                   Hp' Hq' Hkr' Hkj').
        unfold mbind, res_bind, deref. exact Hka.
Qed.

Lemma room_Ok (s : YALE_STORAGE) (size : Z) :
  get_size s = Ok size ->
  (size ← get_size s; Ok (size + 1 <=? capacity s)) = Ok true ->
  size + 1 <= capacity s.
Proof.
  intros Hs H. rewrite Hs in H. unfold mbind, res_bind in H.
  injection H as H. apply Z.leb_le in H. exact H.
Qed.



(** [set] in place touches one cell.  On a well-formed descriptor with room
    for one more entry, whose positions fit the [int] of [binary_search],
    [set] at a cell of the matrix leaves the value read at every other cell
    of the rows as it was. *)
Theorem set_keeps_other_cells GROWTH junk_ija junk_a (s : YALE_STORAGE)
    (r c v i j : Z) :
  well_formed s = true ->
  capacity s <= 2 ^ 31 ->
  0 <= r < (shape s).1 -> 0 <= c < (shape s).2 ->
  (size ← get_size s; Ok (size + 1 <=? capacity s)) = Ok true ->
  0 <= i < (shape s).1 -> i <> r \/ j <> c ->
  exists ch s',
    set GROWTH junk_ija junk_a (r, c) v s = Done ch s' /\
    read_cell s' (i, j) = read_cell s (i, j).
Proof.
  intros Hwf H31 Hr Hc Hroom Hi Hne.
  destruct (well_formed_layout s Hwf) as (size & L).
  apply (room_Ok s size (lay_size s size L)) in Hroom.
  apply (set_frame GROWTH junk_ija junk_a s size r c v i j); assumption.
Qed.

Lemma set_keeps_other_cells_witness :
  read_cell without_stored_zero (0, 1) = Ok 5 /\
  exists ch s',
    set growth_1_5 zero_page zero_page (0, 3) 9 without_stored_zero
      = Done ch s' /\
    read_cell s' (0, 1) = read_cell without_stored_zero (0, 1).
Proof.
  split; [reflexivity|].
  apply set_keeps_other_cells;
    [vm_compute; reflexivity | simpl; lia | simpl; lia | simpl; lia
    | vm_compute; reflexivity | simpl; lia | right; lia].
Defined.

Lemma slice_elem (l : list Z) (lo hi x : Z) :
  0 <= lo ->
  In x (take (Z.to_nat (hi - lo)) (drop (Z.to_nat lo) l)) ->
  exists k, lo <= k < hi /\ rd l k = Ok x.
Proof.
  intros Hlo Hin. apply list_elem_of_In, list_elem_of_lookup in Hin.
  destruct Hin as [n Hn].
  destruct (slice_lookup_inv l lo hi n x Hlo Hn) as [Hr Hx].
  exists (lo + Z.of_nat n). split; [lia|exact Hx].
Qed.

(** Overwriting needs no room.  On a well-formed descriptor, full or not,
    [set] at a diagonal cell or at a cell whose column the row already
    stores returns ['r'], changes one value slot and leaves the index
    buffer, the capacity, [ndnz] and the buffers' identity as they were;
    [ref] then yields the value written.  The bound on the capacity is that
    of the [int] in which [ref] receives the position. *)
Theorem set_overwrite_needs_no_room GROWTH junk_ija junk_a
    (s : YALE_STORAGE) (r c v : Z) :
  well_formed s = true ->
  capacity s <= 2 ^ 31 ->
  0 <= r < (shape s).1 -> 0 <= c < (shape s).2 ->
  r = c \/ (exists cols, row_cols s r = Ok cols /\ In c cols) ->
  exists s',
    set GROWTH junk_ija junk_a (r, c) v s = Done "r"%char s' /\
    well_formed s' = true /\
    ija s' = ija s /\ capacity s' = capacity s /\ ndnz s' = ndnz s /\
    epoch s' = epoch s /\ length (a s') = length (a s) /\
    read_cell s' (r, c) = Ok v.
Proof.
  intros Hwf H31 Hr Hc Hst.
  pose proof (well_formed_cols s Hwf) as HC.
  destruct (well_formed_layout s Hwf) as (size & L).
  pose proof (lay_bounds s size L) as Hb.
  pose proof (lay_len_a s size L) as Hla.
  assert (Hwf' : forall pos,
    well_formed (set_a (<[Z.to_nat pos := v]> (a s)) s) = true).
  { intros pos. apply (layout_well_formed _ size); [|exact HC].
    apply layout_set_a; [exact L|apply length_insert]. }
  destruct (set_cases GROWTH junk_ija junk_a s size r c v L Hr Hc)
    as [[<- Hrun]
       |[(Hrc & lo & hi & pos & Hlo & Hhi & Hpos & Hat & Hrun)
        |(Hrc & lo & hi & pos & Hlo & Hhi & Hpos & Hbelow & Habove & _)]].
  - eexists. split; [exact Hrun|]. split; [apply Hwf'|].
    cbn [ija capacity ndnz epoch a set_a]. rewrite length_insert.
    repeat split.
    unfold read_cell, ref. cbn [fst snd]. rewrite Z.eqb_refl.
    unfold mbind, res_bind, deref. cbn [a set_a].
    rewrite rd_insert by lia. rewrite Z.eqb_refl. reflexivity.
  - destruct (ins_lo_bounds s size r lo hi L Hr Hlo Hhi) as [Hlob Hhib].
    eexists. split; [exact Hrun|]. split; [apply Hwf'|].
    cbn [ija capacity ndnz epoch a set_a]. rewrite length_insert.
    repeat split.
    unfold read_cell. rewrite ref_set_a.
    rewrite (ref_stored s size r c lo hi pos L H31 Hr Hrc Hlo Hhi Hpos Hat).
    unfold mbind, res_bind, deref. cbn [a set_a].
    rewrite rd_insert by lia. rewrite Z.eqb_refl. reflexivity.
  - exfalso. destruct Hst as [->|(cols & Hcols & Hin)]; [lia|].
    destruct (ins_lo_bounds s size r lo hi L Hr Hlo Hhi) as [Hlob Hhib].
    unfold row_cols in Hcols. rewrite Hlo, Hhi in Hcols.
    unfold mbind, res_bind in Hcols. injection Hcols as <-.
    destruct (slice_elem (ija s) lo hi c ltac:(lia) Hin) as (k & Hk & Hkc).
    destruct (Z_lt_le_dec k pos) as [Hlt|Hge].
    + pose proof (Hbelow k c ltac:(lia) Hkc). lia.
    + pose proof (Habove k c ltac:(lia) Hkc). lia.
Qed.

(** A full descriptor: [full_1x4], whose row 0 stores the columns 2
    and 3. *)
Lemma set_overwrite_needs_no_room_witness :
  get_size full_1x4 = Ok (capacity full_1x4) /\
  exists s',
    set growth_1_5 zero_page zero_page (0, 3) 9 full_1x4
      = Done "r"%char s' /\
    well_formed s' = true /\
    ija s' = ija full_1x4 /\ capacity s' = capacity full_1x4 /\
    ndnz s' = ndnz full_1x4 /\
    epoch s' = epoch full_1x4 /\ length (a s') = length (a full_1x4) /\
    read_cell s' (0, 3) = Ok 9.
Proof.
  split; [reflexivity|].
  apply set_overwrite_needs_no_room;
    [vm_compute; reflexivity | simpl; lia | simpl; lia | simpl; lia|].
  right. exists [2; 3]. split; [reflexivity|]. simpl. auto.
Defined.

(** ** Fresh descriptors and sequences of writes *)

(** [init] on the descriptor that [nm_yale_storage_create] returns, when its
    capacity covers the row pointers and the zero slot. *)
Lemma init_contents junk_ija junk_a (shape0 : Z * Z) (c : Z) :
  0 <= shape0.1 -> shape0.1 + 1 <= c <= 2 ^ 64 ->
  exists s,
    exec init (mkYale 2 shape0 c 0 (ALLOC_N junk_ija c) (ALLOC_N junk_a c) 0)
      = Ok s /\
    layout s (shape0.1 + 1) /\ capacity s = c /\ shape s = shape0 /\
    ndnz s = 0 /\
    (forall k, 0 <= k <= shape0.1 -> rd (ija s) k = Ok (shape0.1 + 1)) /\
    (forall k, 0 <= k <= shape0.1 -> rd (a s) k = Ok 0).
Proof.
  intros HR Hc.
  set (s0 := mkYale 2 shape0 c 0 (ALLOC_N junk_ija c) (ALLOC_N junk_a c) 0).
  pose (P := fun (j : Z) (st : YALE_STORAGE) =>
    same_frame s0 st /\ a st = a s0 /\
    forall k, 0 <= k < j -> rd (ija st) k = Ok (shape0.1 + 1)).
  destruct (for_count_total P (fun i => wr_ija i (shape0.1 + 1))
              (Z.to_nat (shape0.1 + 1 - 0)) 0 s0) as (s1 & Hrun1 & HP1).
  { unfold P. split; [apply same_frame_refl|]. split; [reflexivity|].
    intros k Hk. lia. }
  { intros j st Hj (Hf & Ha & Hij).
    destruct Hf as (F1 & F2 & F3 & F4 & F5 & F6 & F7).
    rewrite wr_ija_Done
      by (rewrite F6; unfold s0; simpl; rewrite length_ALLOC_N; lia).
    eexists. split; [reflexivity|]. unfold P, same_frame. simpl.
    rewrite length_insert. split; [repeat split; assumption|].
    split; [exact Ha|]. intros k Hk.
    rewrite rd_insert
      by (try rewrite F6; unfold s0; simpl; try rewrite length_ALLOC_N; lia).
    destruct (Z.eqb_spec k j); [reflexivity|]. apply Hij. lia. }
  destruct HP1 as (Hf1 & Ha1 & Hij1).
  destruct Hf1 as (F1 & F2 & F3 & F4 & F5 & F6 & F7).
  pose (Q := fun (j : Z) (st : YALE_STORAGE) =>
    same_frame s1 st /\ ija st = ija s1 /\
    forall k, 0 <= k < j -> rd (a st) k = Ok 0).
  destruct (for_count_total Q (fun i => wr_a i 0)
              (Z.to_nat (shape0.1 + 1 - 0)) 0 s1) as (s2 & Hrun2 & HP2).
  { unfold Q. split; [apply same_frame_refl|]. split; [reflexivity|].
    intros k Hk. lia. }
  { intros j st Hj (Hf & Hi & Hz).
    destruct Hf as (G1 & G2 & G3 & G4 & G5 & G6 & G7).
    assert (Hlen : Z.of_nat (length (a st)) = c).
    { rewrite G7, F7. unfold s0. simpl. rewrite length_ALLOC_N. lia. }
    rewrite wr_a_Done by lia.
    eexists. split; [reflexivity|]. unfold Q, same_frame. simpl.
    rewrite length_insert. split; [repeat split; assumption|].
    split; [exact Hi|]. intros k Hk. rewrite rd_insert by lia.
    destruct (Z.eqb_spec k j); [reflexivity|]. apply Hz. lia. }
  destruct HP2 as (Hf2 & Hi2 & Hz2).
  destruct Hf2 as (G1 & G2 & G3 & G4 & G5 & G6 & G7).
  exists s2. split.
  - unfold exec, init. unfold mbind at 1, M_bind at 1, get at 1.
    unfold mbind at 1, M_bind at 1. unfold for_range.
    change (shape s0) with shape0. rewrite Hrun1.
    unfold clear_diagonal_and_zero. unfold mbind at 1, M_bind at 1, get at 1.
    unfold for_range. rewrite F2. change (shape s0) with shape0.
    rewrite Hrun2. reflexivity.
  - assert (Hsh : shape s2 = shape0) by (rewrite G2, F2; reflexivity).
    assert (Hcap : capacity s2 = c) by (rewrite G3, F3; reflexivity).
    assert (Hptr : forall k, 0 <= k <= shape0.1 ->
                     rd (ija s2) k = Ok (shape0.1 + 1)).
    { intros k Hk. rewrite Hi2. apply Hij1. lia. }
    assert (Hnd : ndnz s2 = 0) by (rewrite G4, F4; reflexivity).
    split; [|split; [exact Hcap|split; [exact Hsh|split; [exact Hnd|]]]].
    + constructor; rewrite ?Hsh, ?Hcap.
      * exact HR.
      * lia.
      * rewrite G6, F6. unfold s0. simpl. apply length_ALLOC_N.
      * rewrite G7, F7. unfold s0. simpl. apply length_ALLOC_N.
      * unfold get_size. rewrite Hsh. apply Hptr. lia.
      * lia.
      * lia.
      * intros i Hi. exists (shape0.1 + 1). split; [apply Hptr; lia|lia].
      * intros i p q Hi Hp Hq. rewrite Hptr in Hp, Hq by lia.
        injection Hp as <-. injection Hq as <-. lia.
      * intros i p q Hi Hp Hq. rewrite Hptr in Hp, Hq by lia.
        injection Hp as <-. injection Hq as <-.
        intros k j x y Hk Hkj Hj. lia.
      * intros i p q k x Hi Hp Hq Hk. rewrite Hptr in Hp, Hq by lia.
        injection Hp as <-. injection Hq as <-. lia.
    + split; [exact Hptr|]. intros k Hk. apply Hz2. lia.
Qed.

(** A descriptor whose rows are all empty reads zero everywhere. *)
Lemma empty_reads_zero (s : YALE_STORAGE) (i j : Z) :
  0 <= i < (shape s).1 ->
  (forall k, 0 <= k <= (shape s).1 -> rd (ija s) k = Ok ((shape s).1 + 1)) ->
  (forall k, 0 <= k <= (shape s).1 -> rd (a s) k = Ok 0) ->
  read_cell s (i, j) = Ok 0.
Proof.
  intros Hi Hptr Hz. unfold read_cell, ref. cbn [fst snd].
  destruct (i =? j).
  - unfold mbind, res_bind, deref. apply Hz. lia.
  - rewrite !Hptr by lia. unfold mbind, res_bind, deref.
    rewrite Z.eqb_refl. apply Hz. lia.
Qed.

(** Creation followed by [init] gives the empty matrix.  When the capacity
    that [nm_yale_storage_create] settles on covers the row pointers and the
    zero slot, [init] returns a well-formed descriptor of that capacity with
    in-use length [rows + 1], no entry off the diagonal in any row, and the
    value zero at every cell of its rows. *)
Theorem create_init_empty MIN count junk_ija junk_a (shape0 : Z * Z)
    (init_capacity : Z) (s0 : YALE_STORAGE) :
  nm_yale_storage_create junk_ija junk_a MIN count shape0 2 init_capacity
    = Ok s0 ->
  0 <= shape0.1 -> 0 <= shape0.2 ->
  shape0.1 + 1 <= capacity s0 <= 2 ^ 64 ->
  exists s,
    exec init s0 = Ok s /\
    well_formed s = true /\
    shape s = shape0 /\ capacity s = capacity s0 /\
    ndnz s = 0 /\ get_size s = Ok (shape0.1 + 1) /\
    (forall i, 0 <= i < shape0.1 -> row_cols s i = Ok []) /\
    (forall i j, 0 <= i < shape0.1 -> read_cell s (i, j) = Ok 0).
Proof.
  intros Hcreate HR HC Hcap.
  rewrite (create_descriptor _ _ _ _ _ _ _ Hcreate).
  cbn [capacity] in *.
  destruct (init_contents junk_ija junk_a shape0 (capacity s0) HR Hcap)
    as (s & Hrun & L & Hc & Hsh & Hnd & Hptr & Hz).
  exists s. split; [exact Hrun|]. split.
  - apply (layout_well_formed s _ L). rewrite Hsh. exact HC.
  - split; [exact Hsh|]. split; [exact Hc|]. split; [exact Hnd|].
    split; [exact (lay_size s _ L)|]. split.
    + intros i Hi. unfold row_cols. rewrite !Hptr by lia.
      unfold mbind, res_bind. rewrite Z.sub_diag. reflexivity.
    + intros i j Hi. apply empty_reads_zero; rewrite Hsh; auto.
Qed.

Lemma create_init_empty_witness :
  let s0 := mkYale 2 (3, 3) 7 0 (ALLOC_N (marked 100) 7)
              (ALLOC_N (marked 200) 7) 0 in
  nm_yale_storage_create (marked 100) (marked 200) minimum_2r1 dense_cells
    (3, 3) 2 4 = Ok s0 /\
  exists s,
    exec init s0 = Ok s /\
    well_formed s = true /\
    shape s = (3, 3) /\ capacity s = capacity s0 /\
    ndnz s = 0 /\ get_size s = Ok ((3, 3).1 + 1) /\
    (forall i, 0 <= i < (3, 3).1 -> row_cols s i = Ok []) /\
    (forall i j, 0 <= i < (3, 3).1 -> read_cell s (i, j) = Ok 0).
Proof.
  intros s0. split; [reflexivity|].
  apply (create_init_empty minimum_2r1 dense_cells (marked 100) (marked 200)
           (3, 3) 4 s0);
    [reflexivity | simpl; lia | simpl; lia | simpl; lia].
Defined.

(** A sequence of writes in place, cell by cell. *)
Lemma set_all_written GROWTH junk_ija junk_a (writes : list (Z * Z * Z)) :
  forall (s : YALE_STORAGE) (size : Z) (m : Z -> Z -> Z),
    layout s size -> capacity s <= 2 ^ 31 ->
    Forall (in_bounds s) writes ->
    size + Z.of_nat (length writes) <= capacity s ->
    (forall i j, 0 <= i < (shape s).1 -> read_cell s (i, j) = Ok (m i j)) ->
    exists s' size',
      exec (set_all GROWTH junk_ija junk_a writes) s = Ok s' /\
      layout s' size' /\ size' <= size + Z.of_nat (length writes) /\
      capacity s' = capacity s /\ shape s' = shape s /\
      forall i j, 0 <= i < (shape s).1 ->
                  read_cell s' (i, j) = Ok (written writes m i j).
Proof.
  induction writes as [|[[r c] v] writes IH];
    intros s size m L H31 Hall Hroom Hm.
  - exists s, size. split; [reflexivity|]. split; [exact L|].
    split; [simpl; lia|]. split; [reflexivity|]. split; [reflexivity|].
    exact Hm.
  - apply Forall_cons in Hall. destruct Hall as [[Hr Hc] Hall].
    simpl in Hr, Hc. simpl length in Hroom.
    destruct (set_in_place GROWTH junk_ija junk_a s size r c v L Hr Hc)
      as (ch & s1 & size1 & Hrun & L1 & Hs1 & Hc1 & Hsh1 & Hback); [lia|].
    destruct (IH s1 size1
                (fun i' j' => if (i' =? r) && (j' =? c) then v else m i' j')
                L1)
      as (s' & size' & Hrun' & L' & Hs' & Hc' & Hsh' & Hread').
    + rewrite Hc1. exact H31.
    + eapply Forall_impl; [exact Hall|].
      intros w Hw. unfold in_bounds in *. rewrite Hsh1. exact Hw.
    + lia.
    + intros i j Hi. rewrite Hsh1 in Hi.
      destruct (Z.eqb_spec i r) as [->|Hir];
        [destruct (Z.eqb_spec j c) as [->|Hjc]|]; cbn [andb].
      * apply Hback. exact H31.
      * destruct (set_frame GROWTH junk_ija junk_a s size r c v r j)
          as (ch2 & s2 & Hrun2 & Hsame); auto; try lia.
        rewrite Hrun in Hrun2. injection Hrun2 as _ <-.
        rewrite Hsame. apply Hm. exact Hi.
      * destruct (set_frame GROWTH junk_ija junk_a s size r c v i j)
          as (ch2 & s2 & Hrun2 & Hsame); auto; try lia.
        rewrite Hrun in Hrun2. injection Hrun2 as _ <-.
        rewrite Hsame. apply Hm. exact Hi.
    + exists s', size'. split.
      * simpl. unfold exec in *. unfold mbind, M_bind. rewrite Hrun.
        exact Hrun'.
      * split; [exact L'|]. split; [simpl length; lia|].
        split; [congruence|].
        split; [congruence|]. intros i j Hi. simpl.
        apply Hread'. rewrite Hsh1. exact Hi.
Qed.

(** Writes read back.  On a fresh descriptor, after [init] and a sequence
    of writes to cells of the matrix that the capacity has room for, the
    descriptor is well formed and [ref] yields, at every cell of a row, the
    last value written there, or zero when the cell was not written.  The
    bound on the capacity is that of the [int] in which [ref] receives the
    position. *)
Theorem fresh_writes_read_back MIN count GROWTH junk_ija junk_a
    (shape0 : Z * Z) (init_capacity : Z) (writes : list (Z * Z * Z))
    (s0 : YALE_STORAGE) :
  nm_yale_storage_create junk_ija junk_a MIN count shape0 2 init_capacity
    = Ok s0 ->
  0 <= shape0.1 -> 0 <= shape0.2 ->
  shape0.1 + 1 + Z.of_nat (length writes) <= capacity s0 <= 2 ^ 31 ->
  Forall (in_bounds s0) writes ->
  exists s',
    exec (init;; set_all GROWTH junk_ija junk_a writes) s0 = Ok s' /\
    well_formed s' = true /\
    shape s' = shape0 /\ capacity s' = capacity s0 /\
    forall i j, 0 <= i < shape0.1 ->
      read_cell s' (i, j) = Ok (written writes (fun _ _ => 0) i j).
Proof.
  intros Hcreate HR HC Hcap Hall.
  pose proof (create_descriptor _ _ _ _ _ _ _ Hcreate) as Hs0.
  assert (Hsh0 : shape s0 = shape0) by (rewrite Hs0; reflexivity).
  destruct (init_contents junk_ija junk_a shape0 (capacity s0) HR
              ltac:(lia))
    as (s1 & Hinit & L1 & Hc1 & Hsh1 & Hnd & Hptr & Hz).
  rewrite <- Hs0 in Hinit.
  destruct (set_all_written GROWTH junk_ija junk_a writes s1 (shape0.1 + 1)
              (fun _ _ => 0) L1)
    as (s' & size' & Hrun & L' & Hs' & Hc' & Hsh' & Hread).
  - rewrite Hc1. lia.
  - eapply Forall_impl; [exact Hall|].
    intros w Hw. unfold in_bounds in *. rewrite Hsh1, <- Hsh0. exact Hw.
  - rewrite Hc1. lia.
  - intros i j Hi. apply empty_reads_zero; rewrite Hsh1; auto.
    rewrite Hsh1 in Hi. exact Hi.
  - exists s'. split.
    + unfold exec in *. unfold mbind, M_bind.
      destruct (init s0) as [[] s1'|]; [|discriminate].
      injection Hinit as ->. exact Hrun.
    + split; [apply (layout_well_formed s' size' L'); congruence|].
      split; [congruence|]. split; [congruence|].
      intros i j Hi. apply Hread. rewrite Hsh1. exact Hi.
Qed.

Lemma fresh_writes_read_back_witness :
  let s0 := mkYale 2 (3, 4) 8 0 (ALLOC_N zero_page 8) (ALLOC_N zero_page 8) 0 in
  let writes := [((0, 2), 7); ((1, 1), 4); ((0, 1), 5); ((0, 2), 8)] in
  written writes (fun _ _ => 0) 0 2 = 8 /\
  exists s',
    exec (init;; set_all growth_1_5 zero_page zero_page writes) s0 = Ok s' /\
    well_formed s' = true /\
    shape s' = (3, 4) /\ capacity s' = capacity s0 /\
    forall i j, 0 <= i < (3, 4).1 ->
      read_cell s' (i, j) = Ok (written writes (fun _ _ => 0) i j).
Proof.
  intros s0 writes. split; [reflexivity|].
  apply (fresh_writes_read_back minimum_2r1 dense_cells growth_1_5
           zero_page zero_page (3, 4) 8 writes s0).
  - reflexivity.
  - simpl. lia.
  - simpl. lia.
  - simpl. lia.
  - repeat constructor; simpl; lia.
Defined.

(** ** Equality on equal buffers *)

Lemma ndrow_all_zero_spec (s : YALE_STORAGE) :
  forall n lo,
    0 <= lo -> lo + Z.of_nat n <= Z.of_nat (length (a s)) ->
    exists b,
      ndrow_all_zero n s lo = Ok b /\
      (b = true <->
       forall k, lo <= k < lo + Z.of_nat n -> rd (a s) k = Ok 0).
Proof.
  induction n as [|n IH]; intros lo Hlo Hhi.
  - exists true. split; [reflexivity|]. split; [intros _ k Hk; lia|auto].
  - simpl. destruct (rd_in_range (a s) lo) as [x Hx]; [lia|].
    rewrite Hx. unfold mbind, res_bind.
    destruct (Z.eqb_spec x 0) as [->|Hne]; cbn [negb].
    + destruct (IH (lo + 1)) as (b & Hrun & Hb); [lia|lia|].
      exists b. split; [exact Hrun|]. rewrite Hb. split.
      * intros H k Hk. destruct (Z.eq_dec k lo) as [->|Hk'];
          [exact Hx|apply H; lia].
      * intros H k Hk. apply H. lia.
    + exists false. split; [reflexivity|]. split; [discriminate|].
      intros H. specialize (H lo ltac:(lia)). congruence.
Qed.

Lemma ndrow_is_empty_char (s : YALE_STORAGE) (lo hi : Z) :
  0 <= lo -> hi <= Z.of_nat (length (a s)) ->
  exists b,
    ndrow_is_empty s lo hi = Ok b /\
    (b = true <-> forall k, lo <= k < hi -> rd (a s) k = Ok 0).
Proof.
  intros Hlo Hhi. unfold ndrow_is_empty.
  destruct (Z.eqb_spec lo hi) as [->|Hne].
  - exists true. split; [reflexivity|]. split; [intros _ k Hk; lia|auto].
  - destruct (Z_lt_le_dec hi lo) as [Hlt|Hge].
    + replace (Z.to_nat (hi - lo)) with O by lia.
      exists true. split; [reflexivity|]. split; [intros _ k Hk; lia|auto].
    + destruct (ndrow_all_zero_spec s (Z.to_nat (hi - lo)) lo Hlo)
        as (b & Hrun & Hb); [lia|].
      exists b. split; [exact Hrun|].
      replace (lo + Z.of_nat (Z.to_nat (hi - lo))) with hi in Hb by lia.
      exact Hb.
Qed.

(** [ndrow_is_empty] on a range of positions inside the value buffer: it
    returns true exactly when every value of the range is zero; in
    particular on an empty range. *)
Theorem ndrow_is_empty_spec (s : YALE_STORAGE) (lo hi : Z) :
  0 <= lo -> hi <= Z.of_nat (length (a s)) ->
  exists b,
    ndrow_is_empty s lo hi = Ok b /\
    (b = true <-> forall k, lo <= k < hi -> rd (a s) k = Ok 0).
Proof. apply ndrow_is_empty_char. Qed.

Lemma ndrow_is_empty_spec_witness :
  rd (a with_nine) 5 = Ok 0 /\
  exists b,
    ndrow_is_empty with_nine 5 6 = Ok b /\
    (b = true <-> forall k, 5 <= k < 6 -> rd (a with_nine) k = Ok 0).
Proof.
  split; [reflexivity|].
  apply (ndrow_is_empty_spec with_nine 5 6); [lia|simpl; lia].
Defined.

Section SameBuffers.

Variables (l r : YALE_STORAGE) (size : Z).
Hypothesis L : layout l size.
Hypothesis same_ija : forall k, 0 <= k < size -> rd (ija r) k = rd (ija l) k.
Hypothesis same_a : forall k, 0 <= k < size -> rd (a r) k = rd (a l) k.






End SameBuffers.



(** ** Equality and the diagonal *)




(** ** What [eqeq] consults *)

Section BuffersOnly.

Variables (l l' r r' : YALE_STORAGE).
Hypothesis Hlija : ija l' = ija l.
Hypothesis Hla : a l' = a l.
Hypothesis Hrija : ija r' = ija r.
Hypothesis Hra : a r' = a r.

Lemma ndrow_all_zero_buffers (n : nat) (x : Z) :
  ndrow_all_zero n l' x = ndrow_all_zero n l x /\
  ndrow_all_zero n r' x = ndrow_all_zero n r x.
Proof.
  revert x. induction n as [|n IH]; intros x; [split; reflexivity|].
  simpl. rewrite Hla, Hra.
  destruct (IH (x + 1)) as [-> ->]. split; reflexivity.
Qed.

Lemma ndrow_is_empty_buffers (lo hi : Z) :
  ndrow_is_empty l' lo hi = ndrow_is_empty l lo hi /\
  ndrow_is_empty r' lo hi = ndrow_is_empty r lo hi.
Proof.
  unfold ndrow_is_empty.
  destruct (ndrow_all_zero_buffers (Z.to_nat (hi - lo)) lo) as [-> ->].
  split; reflexivity.
Qed.

Lemma ndrow_step_buffers (hl hr : Z) (w : walk) :
  ndrow_step l' r' hl hr w = ndrow_step l r hl hr w.
Proof. unfold ndrow_step. rewrite Hlija, Hla, Hrija, Hra. reflexivity. Qed.

Lemma ndrow_loop_buffers (hl hr : Z) :
  forall fuel w,
    ndrow_loop fuel l' r' hl hr w = ndrow_loop fuel l r hl hr w.
Proof.
  induction fuel as [|fuel IH]; intros w; [reflexivity|].
  simpl. rewrite ndrow_step_buffers.
  destruct (negb (l_no_more w && r_no_more w)); [|reflexivity].
  destruct (ndrow_step l r hl hr w) as [[b|w']|]; try reflexivity.
  unfold mbind, res_bind. apply IH.
Qed.

Lemma eqeq_diag_buffers :
  forall n index, eqeq_diag n l' r' index = eqeq_diag n l r index.
Proof.
  induction n as [|n IH]; intros index; [reflexivity|].
  simpl. rewrite Hla, Hra, IH. reflexivity.
Qed.

Lemma ndrow_eqeq_ndrow_buffers (lo hi lo' hi' : Z) :
  ndrow_eqeq_ndrow l' r' lo hi lo' hi' = ndrow_eqeq_ndrow l r lo hi lo' hi'.
Proof.
  unfold ndrow_eqeq_ndrow. rewrite Hlija, Hrija, Hla, Hra.
  destruct (rd (ija l) lo) as [c|]; [|reflexivity].
  destruct (rd (ija r) lo') as [c'|]; [|reflexivity].
  unfold mbind, res_bind. apply ndrow_loop_buffers.
Qed.

Lemma eqeq_rows_buffers :
  forall n i, eqeq_rows n l' r' i = eqeq_rows n l r i.
Proof.
  induction n as [|n IH]; intros i; [reflexivity|].
  cbn [eqeq_rows]. rewrite Hlija, Hrija. unfold mbind, res_bind.
  destruct (rd (ija l) i) as [lo|]; [|reflexivity].
  destruct (rd (ija l) (i + 1)) as [hi|]; [|reflexivity].
  destruct (rd (ija r) i) as [lo'|]; [|reflexivity].
  destruct (rd (ija r) (i + 1)) as [hi'|]; [|reflexivity].
  rewrite (proj1 (ndrow_is_empty_buffers lo hi)).
  rewrite (proj2 (ndrow_is_empty_buffers lo' hi')).
  rewrite ndrow_eqeq_ndrow_buffers, IH. reflexivity.
Qed.

End BuffersOnly.

(** [eqeq] consults the two pairs of buffers and the number of rows of its
    left operand and nothing else: descriptors of any dimension, number of
    columns, capacity and [ndnz] over the same buffers compare the same. *)
Theorem eqeq_consults_buffers_only (l r : YALE_STORAGE)
    (d d' C c c' n n' : Z) (sh' : Z * Z) (e e' : nat) :
  eqeq (mkYale d ((shape l).1, C) c n (ija l) (a l) e)
       (mkYale d' sh' c' n' (ija r) (a r) e')
  = eqeq l r.
Proof.
  unfold eqeq. cbn [shape fst].
  rewrite (eqeq_diag_buffers l _ r _); try reflexivity.
  rewrite (eqeq_rows_buffers l _ r _); reflexivity.
Qed.

(** ** Copies *)

(** A loop whose body raises at [m], after normal iterations before it,
    raises. *)
Lemma for_count_stops {St} (P : Z -> St -> Prop) (body : Z -> M St unit)
    (m : Z) (e : exn) :
  forall k i s,
    i <= m < i + Z.of_nat k ->
    P i s ->
    (forall j s, i <= j < m -> P j s ->
                 exists s', body j s = Done tt s' /\ P (j + 1) s') ->
    (forall s, P m s -> exists s', body m s = Raise e s') ->
    exists s', for_count k i body s = Raise e s'.
Proof.
  induction k as [|k IH]; intros i s Hm HP Hstep Hstop; [lia|].
  rewrite for_count_S. destruct (Z.eq_dec i m) as [->|Hne].
  - destruct (Hstop s HP) as (s' & Hb). rewrite Hb. eauto.
  - destruct (Hstep i s ltac:(lia) HP) as (s1 & Hb & HP1). rewrite Hb.
    apply (IH (i + 1) s1); [lia|exact HP1| |exact Hstop].
    intros j s2 Hj. apply Hstep. lia.
Qed.

Lemma rd_ALLOC_N (junk : nat -> Z) (n i : Z) :
  0 <= i < n -> rd (ALLOC_N junk n) i = Ok (junk (Z.to_nat i)).
Proof.
  intros H. apply rd_Ok. split; [lia|]. apply lookup_ALLOC_N. lia.
Qed.

(** The loop of [copy_alloc_struct], up to [n] cells. *)
Lemma copy_structure_loop (rhs lhs0 : YALE_STORAGE) (n : Z) :
  0 <= n -> n <= Z.of_nat (length (ija rhs)) ->
  n <= Z.of_nat (length (ija lhs0)) ->
  exists lhs,
    for_range 0 n (fun i => x ← lift (rd (ija rhs) i); wr_ija i x) lhs0
      = Done tt lhs /\
    same_frame lhs0 lhs /\ a lhs = a lhs0 /\
    (forall i, 0 <= i < n -> rd (ija lhs) i = rd (ija rhs) i) /\
    (forall i, n <= i -> rd (ija lhs) i = rd (ija lhs0) i).
Proof.
  intros Hn Hr Hl.
  pose (P := fun (k : Z) (s : YALE_STORAGE) =>
    same_frame lhs0 s /\ a s = a lhs0 /\
    (forall i, 0 <= i < k -> rd (ija s) i = rd (ija rhs) i) /\
    (forall i, k <= i -> rd (ija s) i = rd (ija lhs0) i)).
  destruct (for_count_total P
              (fun i => x ← lift (rd (ija rhs) i); wr_ija i x)
              (Z.to_nat (n - 0)) 0 lhs0) as (lhs & Hrun & HP).
  - unfold P. split; [apply same_frame_refl|]. split; [reflexivity|].
    split; [intros i Hi; lia|reflexivity].
  - intros j s Hj (Hf & Ha & Hlow & Hhigh).
    pose proof Hf as (F1 & F2 & F3 & F4 & F5 & F6 & F7).
    destruct (rd_in_range (ija rhs) j) as [x Hx]; [lia|].
    unfold mbind, M_bind, lift. rewrite Hx.
    rewrite wr_ija_Done by lia.
    eexists. split; [reflexivity|]. unfold P, same_frame. simpl.
    rewrite length_insert. split; [repeat split; assumption|].
    split; [exact Ha|]. split.
    + intros i Hi. rewrite rd_insert by lia.
      destruct (Z.eqb_spec i j) as [->|Hne]; [symmetry; exact Hx|].
      apply Hlow. lia.
    + intros i Hi. rewrite rd_insert by lia.
      replace (i =? j) with false by lia. apply Hhigh. lia.
  - exists lhs. unfold for_range. rewrite Hrun. split; [reflexivity|].
    replace (0 + Z.of_nat (Z.to_nat (n - 0))) with n in HP by lia.
    exact HP.
Qed.

(** [copy_alloc_struct] copies the structure and no value.  For a capacity
    that covers the in-use length of a well-formed original, the new
    descriptor has the dimension, shape and [ndnz] of the original and the
    capacity asked for; its index buffer holds the in-use cells of the
    original followed by what the allocator left, and its value buffer is
    as allocated, diagonal and zero slot included.  The argument [new_size]
    plays no part. *)
Theorem copy_alloc_struct_copies_structure junk_ija junk_a
    (rhs : YALE_STORAGE) (new_capacity new_size : Z) :
  well_formed rhs = true ->
  (size ← get_size rhs; Ok (size <=? new_capacity)) = Ok true ->
  exists lhs size,
    copy_alloc_struct junk_ija junk_a rhs new_capacity new_size = Ok lhs /\
    copy_alloc_struct junk_ija junk_a rhs new_capacity 0 = Ok lhs /\
    get_size rhs = Ok size /\
    dim lhs = dim rhs /\ shape lhs = shape rhs /\ ndnz lhs = ndnz rhs /\
    capacity lhs = new_capacity /\
    a lhs = ALLOC_N junk_a new_capacity /\
    length (ija lhs) = Z.to_nat new_capacity /\
    (forall i, 0 <= i < size -> rd (ija lhs) i = rd (ija rhs) i) /\
    (forall i, size <= i < new_capacity ->
               rd (ija lhs) i = Ok (junk_ija (Z.to_nat i))).
Proof.
  intros Hwf Hfit.
  destruct (well_formed_layout rhs Hwf) as (size & L).
  pose proof (lay_bounds rhs size L) as Hb.
  pose proof (lay_rows rhs size L) as HR.
  pose proof (lay_len_ija rhs size L) as Hli.
  rewrite (lay_size rhs size L) in Hfit. unfold mbind, res_bind in Hfit.
  injection Hfit as Hfit. apply Z.leb_le in Hfit.
  set (lhs0 := mkYale (dim rhs) (shape rhs) new_capacity (ndnz rhs)
                 (ALLOC_N junk_ija new_capacity)
                 (ALLOC_N junk_a new_capacity) 0).
  assert (Hunf : forall new_size,
    copy_alloc_struct junk_ija junk_a rhs new_capacity new_size
    = exec (for_range 0 size (fun i =>
              x ← lift (rd (ija rhs) i); wr_ija i x)) lhs0).
  { intros m. unfold copy_alloc_struct. rewrite (lay_size rhs size L).
    reflexivity. }
  rewrite !Hunf. clear Hunf.
  destruct (copy_structure_loop rhs lhs0 size)
    as (lhs & Hrun & Hf & Ha & Hlow & Hhigh); [lia|lia| |].
  { unfold lhs0. simpl. rewrite length_ALLOC_N. lia. }
  destruct Hf as (F1 & F2 & F3 & F4 & F5 & F6 & F7).
  exists lhs, size. unfold exec. rewrite Hrun.
  split; [reflexivity|]. split; [reflexivity|].
  split; [exact (lay_size rhs size L)|].
  split; [exact F1|]. split; [exact F2|]. split; [exact F4|].
  split; [exact F3|]. split; [exact Ha|].
  split; [rewrite F6; unfold lhs0; simpl; apply length_ALLOC_N|].
  split; [exact Hlow|].
  intros i Hi. rewrite Hhigh by lia. unfold lhs0. simpl.
  apply rd_ALLOC_N. lia.
Qed.

Lemma copy_alloc_struct_copies_structure_witness :
  well_formed with_stored_zero = true /\
  exists lhs size,
    copy_alloc_struct (marked 100) (marked 200) with_stored_zero 8 6
      = Ok lhs /\
    copy_alloc_struct (marked 100) (marked 200) with_stored_zero 8 0
      = Ok lhs /\
    get_size with_stored_zero = Ok size /\
    dim lhs = dim with_stored_zero /\ shape lhs = shape with_stored_zero /\
    ndnz lhs = ndnz with_stored_zero /\
    capacity lhs = 8 /\
    a lhs = ALLOC_N (marked 200) 8 /\
    length (ija lhs) = Z.to_nat 8 /\
    (forall i, 0 <= i < size ->
               rd (ija lhs) i = rd (ija with_stored_zero) i) /\
    (forall i, size <= i < 8 ->
               rd (ija lhs) i = Ok (marked 100 (Z.to_nat i))).
Proof.
  split; [vm_compute; reflexivity|].
  apply copy_alloc_struct_copies_structure;
    [vm_compute; reflexivity | vm_compute; reflexivity].
Defined.














(** ** Ruby accessors *)

Lemma wr_vals_Done (i : Z) (v : VALUE) (vals : list VALUE) :
  0 <= i < Z.of_nat (length vals) ->
  wr_vals i v vals = Done tt (<[Z.to_nat i := v]> vals).
Proof.
  intros H. unfold wr_vals. replace (i <? 0) with false by lia.
  destruct (lookup_lt_is_Some_2 vals (Z.to_nat i)) as [y Hy]; [lia|].
  rewrite Hy. reflexivity.
Qed.

Lemma wr_vals_Raise (i : Z) (v : VALUE) (vals : list VALUE) :
  Z.of_nat (length vals) <= i ->
  wr_vals i v vals = Raise Undefined vals.
Proof.
  intros H. unfold wr_vals. replace (i <? 0) with false by lia.
  rewrite lookup_ge_None_2 by lia. reflexivity.
Qed.

(** The copy loop of the accessors: [n] cells of [buf] from [off] on,
    converted, over the first [n] cells of the scratch buffer. *)
Lemma fill_vals_loop (buf : list Z) (off n : Z) (conv : Z -> VALUE)
    (vals0 : list VALUE) :
  0 <= off -> 0 <= n -> off + n <= Z.of_nat (length buf) ->
  n <= Z.of_nat (length vals0) ->
  for_range 0 n (fun i =>
    x ← lift (rd buf (off + i)); wr_vals i (conv x)) vals0
  = Done tt ((conv <$> take (Z.to_nat n) (drop (Z.to_nat off) buf))
             ++ drop (Z.to_nat n) vals0).
Proof.
  intros Hoff Hn Hbuf Hvals.
  pose (P := fun (k : Z) (vals : list VALUE) =>
    vals = (conv <$> take (Z.to_nat k) (drop (Z.to_nat off) buf))
           ++ drop (Z.to_nat k) vals0).
  destruct (for_count_total P
              (fun i => x ← lift (rd buf (off + i)); wr_vals i (conv x))
              (Z.to_nat (n - 0)) 0 vals0) as (vals & Hrun & HP).
  - unfold P. simpl. rewrite drop_0. reflexivity.
  - intros j vals Hj HP. unfold P in HP.
    destruct (rd_in_range buf (off + j)) as [x Hx]; [lia|].
    unfold mbind, M_bind, lift. rewrite Hx.
    assert (Hlen : length vals = length vals0).
    { rewrite HP. rewrite length_app, length_fmap, length_take, length_drop,
        length_drop. lia. }
    rewrite wr_vals_Done by lia.
    eexists. split; [reflexivity|]. unfold P.
    apply rd_Ok in Hx. destruct Hx as [_ Hx].
    assert (Hx' : drop (Z.to_nat off) buf !! Z.to_nat j = Some x).
    { rewrite lookup_drop.
      replace (Z.to_nat off + Z.to_nat j)%nat with (Z.to_nat (off + j))
        by lia.
      exact Hx. }
    destruct (lookup_lt_is_Some_2 vals0 (Z.to_nat j)) as [y Hy]; [lia|].
    replace (Z.to_nat (j + 1)) with (S (Z.to_nat j)) by lia.
    rewrite (take_S_r _ _ _ Hx'). rewrite fmap_app. simpl.
    rewrite <- app_assoc. simpl.
    rewrite HP. rewrite (drop_S _ _ _ Hy).
    rewrite insert_app_r_alt
      by (rewrite length_fmap, length_take, length_drop; lia).
    rewrite length_fmap, length_take, length_drop.
    replace (Z.to_nat j - Z.to_nat j `min` (length buf - Z.to_nat off))%nat
      with O by lia.
    reflexivity.
  - unfold for_range. rewrite Hrun. f_equal. unfold P in HP.
    replace (0 + Z.of_nat (Z.to_nat (n - 0))) with n in HP by lia.
    exact HP.
Qed.

(** The copy loop leaves a scratch buffer that is shorter than the number
    of cells to copy. *)
Lemma fill_vals_overflow (buf : list Z) (off n : Z) (conv : Z -> VALUE)
    (vals0 : list VALUE) :
  0 <= off -> off + n <= Z.of_nat (length buf) ->
  Z.of_nat (length vals0) < n ->
  exec (for_range 0 n (fun i =>
          x ← lift (rd buf (off + i)); wr_vals i (conv x))) vals0
  = Err Undefined.
Proof.
  intros Hoff Hbuf Hshort.
  pose (P := fun (k : Z) (vals : list VALUE) => length vals = length vals0).
  destruct (for_count_stops P
              (fun i => x ← lift (rd buf (off + i)); wr_vals i (conv x))
              (Z.of_nat (length vals0)) Undefined
              (Z.to_nat (n - 0)) 0 vals0) as (s' & Hrun).
  - lia.
  - reflexivity.
  - intros j vals Hj HP. unfold P in HP.
    destruct (rd_in_range buf (off + j)) as [x Hx]; [lia|].
    unfold mbind, M_bind, lift. rewrite Hx.
    rewrite wr_vals_Done by lia.
    eexists. split; [reflexivity|]. unfold P. rewrite length_insert.
    exact HP.
  - intros vals HP. unfold P in HP.
    destruct (rd_in_range buf (off + Z.of_nat (length vals0))) as [x Hx];
      [lia|].
    unfold mbind, M_bind, lift. rewrite Hx.
    rewrite wr_vals_Raise by lia. eauto.
  - unfold exec, for_range. rewrite Hrun. reflexivity.
Qed.

Lemma length_ALLOCA_N (junk : nat -> VALUE) (n : Z) :
  length (ALLOCA_N junk n) = Z.to_nat n.
Proof. unfold ALLOCA_N. rewrite length_fmap, length_seq. reflexivity. Qed.

(** The padding loop of the accessors. *)
Lemma push_nils (lo hi : Z) (ary : list VALUE) :
  for_range lo hi (fun _ => rb_ary_push Qnil) ary
  = Done tt (ary ++ replicate (Z.to_nat (hi - lo)) Qnil).
Proof.
  unfold for_range. generalize (Z.to_nat (hi - lo)) as n. intros n.
  revert lo ary. induction n as [|n IH]; intros lo ary.
  - simpl. rewrite app_nil_r. reflexivity.
  - rewrite for_count_S. unfold rb_ary_push at 1, modify at 1.
    rewrite IH. rewrite <- app_assoc. reflexivity.
Qed.

(** An accessor that copies [n] cells from [off] on through a scratch buffer
    of [m] cells and pads with [nil] from [lo] to [hi]. *)
Lemma accessor_Ok (junk : nat -> VALUE) (buf : list Z) (off n m lo hi : Z)
    (conv : Z -> VALUE) :
  0 <= off -> 0 <= n -> off + n <= Z.of_nat (length buf) -> n <= m ->
  (vals ← exec (for_range 0 n (fun i =>
                  x ← lift (rd buf (off + i)); wr_vals i (conv x)))
             (ALLOCA_N junk m);
   ary ← rb_ary_new4 n vals;
   exec (for_range lo hi (fun _ => rb_ary_push Qnil)) ary)
  = Ok ((conv <$> take (Z.to_nat n) (drop (Z.to_nat off) buf))
        ++ replicate (Z.to_nat (hi - lo)) Qnil).
Proof.
  intros Hoff Hn Hbuf Hm. unfold exec at 2.
  rewrite fill_vals_loop by (try rewrite length_ALLOCA_N; lia).
  unfold mbind at 1, res_bind at 1. unfold rb_ary_new4.
  assert (Hlen : length (conv <$> take (Z.to_nat n) (drop (Z.to_nat off) buf))
                 = Z.to_nat n).
  { rewrite length_fmap, length_take, length_drop. lia. }
  rewrite length_app, Hlen.
  match goal with
  | |- context [n <=? ?k] =>
    replace (n <=? k) with true by (symmetry; apply Z.leb_le; lia)
  end.
  unfold mbind, res_bind, exec. rewrite push_nils.
  rewrite take_app_length' by (symmetry; exact Hlen). reflexivity.
Qed.

Lemma accessor_Ok_plain (junk : nat -> VALUE) (buf : list Z) (n m : Z)
    (conv : Z -> VALUE) :
  0 <= n -> n <= Z.of_nat (length buf) -> n <= m ->
  (vals ← exec (for_range 0 n (fun i =>
                  x ← lift (rd buf (0 + i)); wr_vals i (conv x)))
             (ALLOCA_N junk m);
   rb_ary_new4 n vals)
  = Ok (conv <$> take (Z.to_nat n) buf).
Proof.
  intros Hn Hbuf Hm. unfold exec at 1.
  rewrite fill_vals_loop by (try rewrite length_ALLOCA_N; lia).
  unfold mbind at 1, res_bind at 1. unfold rb_ary_new4.
  assert (Hlen : length (conv <$> take (Z.to_nat n) (drop (Z.to_nat 0) buf))
                 = Z.to_nat n).
  { rewrite length_fmap, length_take, length_drop. lia. }
  rewrite length_app, Hlen.
  match goal with
  | |- context [n <=? ?k] =>
    replace (n <=? k) with true by (symmetry; apply Z.leb_le; lia)
  end.
  rewrite take_app_length' by (symmetry; exact Hlen). reflexivity.
Qed.

(** The fields of a well-formed descriptor that the accessors depend on. *)
Lemma well_formed_sizes (s : YALE_STORAGE) :
  well_formed s = true ->
  exists size,
    get_size s = Ok size /\ 0 <= (shape s).1 /\
    (shape s).1 + 1 <= size <= capacity s /\ capacity s <= 2 ^ 64 /\
    Z.of_nat (length (ija s)) = capacity s /\
    Z.of_nat (length (a s)) = capacity s.
Proof.
  intros Hwf.
  destruct (well_formed_facts s Hwf)
    as (size & Hsz & HR & Hl1 & Hl2 & Hb & _ & H64 & _).
  exists size. repeat split; auto; lia.
Qed.

Lemma nm_a_Ok (junk : nat -> VALUE) (s : YALE_STORAGE) (size : Z) :
  get_size s = Ok size -> 0 <= size <= capacity s ->
  Z.of_nat (length (a s)) = capacity s ->
  nm_a junk s
  = Ok ((Integer <$> take (Z.to_nat size) (a s))
        ++ replicate (Z.to_nat (capacity s - size)) Qnil).
Proof.
  intros Hsz Hb Hla. unfold nm_a. rewrite Hsz.
  unfold mbind at 1, res_bind at 1.
  apply (accessor_Ok junk (a s) 0 size size size (capacity s)
           rubyobj_from_cval); lia.
Qed.

(** [nm_a] lists the in-use values and pads with [nil] up to the capacity,
    whatever the scratch memory held: the array has one cell per cell of the
    capacity. *)
Theorem nm_a_lists_in_use (junk : nat -> VALUE) (s : YALE_STORAGE) :
  well_formed s = true ->
  exists size ary,
    get_size s = Ok size /\
    nm_a junk s = Ok ary /\
    ary = (Integer <$> take (Z.to_nat size) (a s))
          ++ replicate (Z.to_nat (capacity s - size)) Qnil /\
    Z.of_nat (length ary) = capacity s.
Proof.
  intros Hwf.
  destruct (well_formed_sizes s Hwf) as (size & Hsz & HR & Hb & H64 & Hli & Hla).
  eexists size, _. split; [exact Hsz|].
  split; [apply (nm_a_Ok junk s size); [exact Hsz|lia|exact Hla]|].
  split; [reflexivity|].
  rewrite length_app, length_fmap, length_take, length_replicate. lia.
Qed.

Lemma nm_a_lists_in_use_witness :
  well_formed without_stored_zero = true /\
  exists size ary,
    get_size without_stored_zero = Ok size /\
    nm_a nil_page without_stored_zero = Ok ary /\
    ary = (Integer <$> take (Z.to_nat size) (a without_stored_zero))
          ++ replicate (Z.to_nat (capacity without_stored_zero - size)) Qnil /\
    Z.of_nat (length ary) = capacity without_stored_zero.
Proof.
  split; [vm_compute; reflexivity|].
  apply nm_a_lists_in_use. vm_compute. reflexivity.
Defined.

Lemma nm_d_Ok (junk : nat -> VALUE) (s : YALE_STORAGE) :
  0 <= (shape s).1 <= Z.of_nat (length (a s)) ->
  nm_d junk s = Ok (Integer <$> take (Z.to_nat (shape s).1) (a s)).
Proof.
  intros H. unfold nm_d.
  apply (accessor_Ok_plain junk (a s) (shape s).1 (shape s).1
           rubyobj_from_cval); lia.
Qed.

Lemma nm_lu_Ok (junk : nat -> VALUE) (s : YALE_STORAGE) (size : Z) :
  get_size s = Ok size -> 0 <= (shape s).1 ->
  (shape s).1 + 1 <= size <= capacity s -> capacity s < 2 ^ 64 ->
  Z.of_nat (length (a s)) = capacity s ->
  nm_lu junk s
  = Ok ((Integer <$> take (Z.to_nat (size - (shape s).1 - 1))
                       (drop (Z.to_nat ((shape s).1 + 1)) (a s)))
        ++ replicate (Z.to_nat (capacity s - size)) Qnil).
Proof.
  intros Hsz HR Hb H64 Hla. unfold nm_lu. rewrite Hsz.
  unfold mbind at 1, res_bind at 1. rewrite !wrap64_small by lia.
  apply (accessor_Ok junk (a s) ((shape s).1 + 1) (size - (shape s).1 - 1)
           (capacity s - (shape s).1) size (capacity s)
           rubyobj_from_cval); lia.
Qed.

(** [nm_a] is [nm_d], the zero slot and [nm_lu]: on a well-formed
    descriptor the three accessors return, [nm_d] has one value per row,
    [nm_lu] has [capacity - rows - 1] cells, and the array of [nm_a] is the
    array of [nm_d], the value of the zero slot and the array of [nm_lu]. *)
Theorem nm_a_is_d_zero_lu (junk : nat -> VALUE) (s : YALE_STORAGE) :
  well_formed s = true ->
  capacity s < 2 ^ 64 ->
  exists d lu z,
    nm_d junk s = Ok d /\ nm_lu junk s = Ok lu /\
    rd (a s) (shape s).1 = Ok z /\
    nm_a junk s = Ok (d ++ Integer z :: lu) /\
    Z.of_nat (length d) = (shape s).1 /\
    Z.of_nat (length lu) = capacity s - (shape s).1 - 1.
Proof.
  intros Hwf H64.
  destruct (well_formed_sizes s Hwf) as (size & Hsz & HR & Hb & _ & Hli & Hla).
  assert (Ha := nm_a_Ok junk s size Hsz ltac:(lia) Hla).
  destruct (rd_in_range (a s) (shape s).1) as [z Hz]; [lia|].
  eexists _, _, z. split; [apply nm_d_Ok; lia|].
  split; [apply (nm_lu_Ok junk s size); auto|].
  split; [exact Hz|]. split.
  - rewrite Ha. apply rd_Ok in Hz. destruct Hz as [_ Hz].
    replace (Z.to_nat size)
      with (Z.to_nat (shape s).1
            + S (Z.to_nat (size - (shape s).1 - 1)))%nat by lia.
    rewrite <- take_take_drop. rewrite (drop_S _ _ _ Hz).
    replace (Z.to_nat ((shape s).1 + 1)) with (S (Z.to_nat (shape s).1))
      by lia.
    rewrite fmap_app. simpl. rewrite <- app_assoc. reflexivity.
  - split.
    + rewrite length_fmap, length_take. lia.
    + rewrite length_app, length_fmap, length_take, length_drop,
        length_replicate. lia.
Qed.

Lemma nm_a_is_d_zero_lu_witness :
  well_formed without_stored_zero = true /\
  exists d lu z,
    nm_d nil_page without_stored_zero = Ok d /\
    nm_lu nil_page without_stored_zero = Ok lu /\
    rd (a without_stored_zero) (shape without_stored_zero).1 = Ok z /\
    nm_a nil_page without_stored_zero = Ok (d ++ Integer z :: lu) /\
    Z.of_nat (length d) = (shape without_stored_zero).1 /\
    Z.of_nat (length lu)
    = capacity without_stored_zero - (shape without_stored_zero).1 - 1.
Proof.
  split; [vm_compute; reflexivity|].
  apply nm_a_is_d_zero_lu; [vm_compute; reflexivity|simpl; lia].
Defined.

(** [nm_ija] is [nm_ia] followed by [nm_ja].  The three accessors copy
    through a scratch buffer of [capacity - rows] cells.  On a well-formed
    descriptor whose in-use length fits that buffer they return, [nm_ia]
    with the [rows + 1] row pointers, [nm_ja] with the column indices padded
    with [nil], and the array of [nm_ija] is the array of [nm_ia] followed
    by the array of [nm_ja]. *)
Theorem nm_ija_is_ia_ja (junk : nat -> VALUE) (s : YALE_STORAGE) :
  well_formed s = true ->
  capacity s < 2 ^ 64 ->
  (size ← get_size s; Ok (size <=? capacity s - (shape s).1)) = Ok true ->
  exists ia ja,
    nm_ia junk s = Ok ia /\ nm_ja junk s = Ok ja /\
    nm_ija junk s = Ok (ia ++ ja) /\
    ia = Integer <$> take (Z.to_nat ((shape s).1 + 1)) (ija s) /\
    Z.of_nat (length ja) = capacity s - (shape s).1 - 1.
Proof.
  intros Hwf H64 Hfit.
  destruct (well_formed_sizes s Hwf) as (size & Hsz & HR & Hb & _ & Hli & Hla).
  rewrite Hsz in Hfit. unfold mbind, res_bind in Hfit.
  injection Hfit as Hfit. apply Z.leb_le in Hfit.
  assert (Hia : nm_ia junk s
                = Ok (Integer <$> take (Z.to_nat ((shape s).1 + 1)) (ija s))).
  { unfold nm_ia. rewrite wrap64_small by lia.
    apply (accessor_Ok_plain junk (ija s) ((shape s).1 + 1)
             (capacity s - (shape s).1) rubyobj_from_cval_by_itype); lia. }
  assert (Hja : nm_ja junk s
                = Ok ((Integer <$> take (Z.to_nat (size - (shape s).1 - 1))
                                     (drop (Z.to_nat ((shape s).1 + 1))
                                        (ija s)))
                      ++ replicate (Z.to_nat (capacity s - size)) Qnil)).
  { unfold nm_ja. rewrite Hsz. unfold mbind at 1, res_bind at 1.
    rewrite !wrap64_small by lia.
    apply (accessor_Ok junk (ija s) ((shape s).1 + 1)
             (size - (shape s).1 - 1) (capacity s - (shape s).1) size
             (capacity s) rubyobj_from_cval_by_itype); lia. }
  eexists _, _. split; [exact Hia|]. split; [exact Hja|]. split.
  - assert (Hija : nm_ija junk s
                    = Ok ((Integer <$> take (Z.to_nat size)
                                         (drop (Z.to_nat 0) (ija s)))
                          ++ replicate (Z.to_nat (capacity s - size)) Qnil)).
    { unfold nm_ija. rewrite Hsz. unfold mbind at 1, res_bind at 1.
      rewrite wrap64_small by lia.
      apply (accessor_Ok junk (ija s) 0 size (capacity s - (shape s).1) size
               (capacity s) rubyobj_from_cval_by_itype); lia. }
    rewrite Hija. f_equal. rewrite app_assoc. f_equal.
    rewrite <- fmap_app. f_equal.
    rewrite take_take_drop. simpl. f_equal. lia.
  - split; [reflexivity|].
    rewrite length_app, length_fmap, length_take, length_drop,
      length_replicate. lia.
Qed.

Lemma nm_ija_is_ia_ja_witness :
  well_formed empty_2x1 = true /\
  exists ia ja,
    nm_ia nil_page empty_2x1 = Ok ia /\ nm_ja nil_page empty_2x1 = Ok ja /\
    nm_ija nil_page empty_2x1 = Ok (ia ++ ja) /\
    ia = Integer <$> take (Z.to_nat ((shape empty_2x1).1 + 1))
                       (ija empty_2x1) /\
    Z.of_nat (length ja) = capacity empty_2x1 - (shape empty_2x1).1 - 1.
Proof.
  split; [vm_compute; reflexivity|].
  apply nm_ija_is_ia_ja;
    [vm_compute; reflexivity | simpl; lia | vm_compute; reflexivity].
Defined.

Lemma accessor_overflow (buf : list Z) (off n : Z) (conv : Z -> VALUE)
    (vals0 : list VALUE) {A} (K : list VALUE -> res A) :
  0 <= off -> off + n <= Z.of_nat (length buf) ->
  Z.of_nat (length vals0) < n ->
  (vals ← exec (for_range 0 n (fun i =>
                  x ← lift (rd buf (off + i)); wr_vals i (conv x))) vals0;
   K vals)
  = Err Undefined.
Proof.
  intros Hoff Hbuf Hshort. rewrite fill_vals_overflow by assumption.
  reflexivity.
Qed.

(** [nm_ija] leaves its scratch buffer.  The buffer has [capacity - rows]
    cells and the copy loop writes one cell per in-use index cell: on a
    well-formed descriptor with more than [capacity - rows] cells in use the
    loop writes behind the end of the buffer. *)
Theorem nm_ija_leaves_scratch (junk : nat -> VALUE) (s : YALE_STORAGE) :
  well_formed s = true ->
  capacity s < 2 ^ 64 ->
  (size ← get_size s; Ok (capacity s - (shape s).1 <? size)) = Ok true ->
  nm_ija junk s = Err Undefined.
Proof.
  intros Hwf H64 Hover.
  destruct (well_formed_sizes s Hwf) as (size & Hsz & HR & Hb & _ & Hli & Hla).
  rewrite Hsz in Hover. unfold mbind, res_bind in Hover.
  injection Hover as Hover. apply Z.ltb_lt in Hover.
  unfold nm_ija. rewrite Hsz. unfold mbind at 1, res_bind at 1.
  rewrite wrap64_small by lia.
  apply (accessor_overflow (ija s) 0 size rubyobj_from_cval_by_itype);
    [lia|lia|].
  rewrite length_ALLOCA_N. lia.
Qed.

(** [without_stored_zero], which is reached through the interface, has five
    of its six cells in use and two rows. *)
Lemma nm_ija_leaves_scratch_witness :
  well_formed without_stored_zero = true /\
  get_size without_stored_zero = Ok 5 /\
  capacity without_stored_zero - (shape without_stored_zero).1 = 4 /\
  nm_ija nil_page without_stored_zero = Err Undefined.
Proof.
  split; [vm_compute; reflexivity|]. split; [reflexivity|].
  split; [reflexivity|].
  apply nm_ija_leaves_scratch;
    [vm_compute; reflexivity | simpl; lia | vm_compute; reflexivity].
Defined.

(** ** Import from old Yale, entry by entry *)

Lemma seqZ_snoc (m n : Z) : 0 <= n -> seqZ m (n + 1) = seqZ m n ++ [m + n].
Proof.
  intros H. rewrite seqZ_app by lia. reflexivity.
Qed.

Lemma old_row_part_nil (jr ar : list Z) (i p0 p : Z) :
  p <= p0 -> old_row_part jr ar i p0 p = [].
Proof. intros H. unfold old_row_part. rewrite seqZ_nil by lia. reflexivity. Qed.

Lemma old_row_part_snoc (jr ar : list Z) (i p0 p c v : Z) :
  p0 <= p -> rd jr p = Ok c -> rd ar p = Ok v ->
  old_row_part jr ar i p0 (p + 1) = old_row_part jr ar i p0 p ++ [(i, c, v)].
Proof.
  intros Hp Hc Hv. unfold old_row_part.
  replace (p + 1 - p0) with (p - p0 + 1) by lia.
  rewrite seqZ_snoc by lia. rewrite omap_app. f_equal.
  replace (p0 + (p - p0)) with p by lia. simpl. rewrite Hc, Hv. reflexivity.
Qed.

Lemma old_row_part_split (jr ar : list Z) (i p0 p p1 : Z) :
  p0 <= p <= p1 ->
  exists rest, old_row_part jr ar i p0 p1 = old_row_part jr ar i p0 p ++ rest.
Proof.
  intros H. unfold old_row_part.
  replace (p1 - p0) with ((p - p0) + (p1 - p)) by lia.
  rewrite seqZ_app by lia. rewrite omap_app. eauto.
Qed.

Lemma old_rows_snoc (ir jr ar : list Z) (i : Z) :
  0 <= i -> old_rows ir jr ar (i + 1) = old_rows ir jr ar i ++ old_row ir jr ar i.
Proof.
  intros H. unfold old_rows. rewrite seqZ_snoc by lia.
  rewrite flat_map_app. simpl. rewrite app_nil_r. reflexivity.
Qed.

Lemma old_rows_split (ir jr ar : list Z) (i n : Z) :
  0 <= i <= n ->
  exists rest, old_rows ir jr ar n = old_rows ir jr ar i ++ rest.
Proof.
  intros H. unfold old_rows.
  assert (E : seqZ 0 n = seqZ 0 i ++ seqZ (0 + i) (n - i)).
  { rewrite <- seqZ_app by lia. f_equal. lia. }
  rewrite E, flat_map_app. eauto.
Qed.

Lemma off_diagonal_app (l1 l2 : list (Z * Z * Z)) :
  off_diagonal (l1 ++ l2) = off_diagonal l1 ++ off_diagonal l2.
Proof. apply List.filter_app. Qed.

Lemma diagonal_values_app (i : Z) (l1 l2 : list (Z * Z * Z)) :
  diagonal_values i (l1 ++ l2) = diagonal_values i l1 ++ diagonal_values i l2.
Proof. apply omap_app. Qed.

Lemma old_yale_ok_row (rows : Z) (ir jr ar : list Z) (i : Z) :
  old_yale_ok rows ir jr ar = true -> 0 <= i < rows ->
  exists p0 p_next,
    rd ir i = Ok p0 /\ rd ir (i + 1) = Ok p_next /\
    0 <= p0 /\ p_next <= Z.of_nat (length jr) /\
    p_next <= Z.of_nat (length ar).
Proof.
  unfold old_yale_ok. intros H Hi. apply andb_true_iff in H.
  destruct H as [_ H]. rewrite forallb_forall in H.
  specialize (H i). rewrite <- list_elem_of_In, elem_of_seqZ in H.
  specialize (H ltac:(lia)).
  destruct (rd ir i) as [p0|]; [|discriminate].
  destruct (rd ir (i + 1)) as [p1|]; [|discriminate].
  repeat match goal with
         | H : _ && _ = true |- _ => apply andb_true_iff in H; destruct H
         end.
  exists p0, p1. repeat split; auto; lia.
Qed.

(** Comparisons decided by linear arithmetic. *)
Ltac zbool :=
  symmetry;
  first [ apply Z.eqb_neq; lia | apply Z.eqb_eq; lia
        | apply Z.leb_le; lia | apply Z.leb_gt; lia
        | apply Z.ltb_lt; lia | apply Z.ltb_ge; lia ].

Section OldYaleEntries.

Variables (junk_ija junk_a : nat -> Z).
Variables (shape0 : Z * Z) (ir jr ar : list Z).
Hypothesis Hok : old_yale_ok shape0.1 ir jr ar = true.

Let total := Z.of_nat (length (off_diagonal (old_rows ir jr ar shape0.1))).
Let cap := shape0.1 + total + 1.

Hypothesis Hcap : cap < 2 ^ 64.

Lemma rows_nonneg : 0 <= shape0.1.
Proof.
  unfold old_yale_ok in Hok. apply andb_true_iff in Hok. destruct Hok. lia.
Qed.

(** The off-diagonal entries seen so far are among those of the input. *)
Lemma seen_le_total (i p0 p_next p : Z) :
  0 <= i < shape0.1 ->
  rd ir i = Ok p0 -> rd ir (i + 1) = Ok p_next -> p0 <= p <= p_next ->
  Z.of_nat (length (off_diagonal
                      (old_rows ir jr ar i ++ old_row_part jr ar i p0 p)))
  <= total.
Proof.
  intros Hi H0 H1 Hp. unfold total.
  destruct (old_rows_split ir jr ar (i + 1) shape0.1 ltac:(lia)) as [r1 E1].
  rewrite E1, old_rows_snoc by lia. unfold old_row. rewrite H0, H1.
  destruct (old_row_part_split jr ar i p0 p p_next Hp) as [r2 E2].
  rewrite E2. rewrite !off_diagonal_app, !length_app. lia.
Qed.

(** First pass: the count of a row. *)
Lemma count_row (i p0 p_next n : Z) :
  0 <= p0 -> p_next <= Z.of_nat (length jr) ->
  p_next <= Z.of_nat (length ar) ->
  for_range p0 p_next (fun p =>
    c ← lift (rd jr p);
    if negb (i =? c) then modify (fun ndnz => ndnz + 1) else mret tt) n
  = Done tt
      (n + Z.of_nat (length (off_diagonal
                               (old_row_part jr ar i p0 p_next)))).
Proof.
  intros H0 Hj Ha.
  destruct (Z_lt_le_dec p0 p_next) as [Hlt|Hge].
  2:{ rewrite for_range_nil by lia. rewrite old_row_part_nil by lia.
      simpl. f_equal. lia. }
  pose (P := fun (p : Z) (st : Z) =>
    st = n + Z.of_nat (length (off_diagonal (old_row_part jr ar i p0 p)))).
  destruct (for_count_total P
              (fun p => c ← lift (rd jr p);
                        if negb (i =? c) then modify (fun ndnz => ndnz + 1)
                        else mret tt)
              (Z.to_nat (p_next - p0)) p0 n) as (st & Hrun & HP).
  - unfold P. rewrite old_row_part_nil by lia. simpl. lia.
  - intros p st Hp HP. unfold P in HP.
    destruct (rd_in_range jr p) as [c Hc]; [lia|].
    destruct (rd_in_range ar p) as [v Hv]; [lia|].
    unfold mbind, M_bind, lift. rewrite Hc.
    unfold P. rewrite (old_row_part_snoc jr ar i p0 p c v) by (auto; lia).
    rewrite off_diagonal_app, length_app. unfold off_diagonal at 2. simpl.
    destruct (i =? c); cbn [negb].
    + eexists. split; [reflexivity|]. simpl. lia.
    + eexists. split; [reflexivity|]. simpl. lia.
  - unfold for_range. rewrite Hrun. f_equal. unfold P in HP.
    replace (p0 + Z.of_nat (Z.to_nat (p_next - p0))) with p_next in HP by lia.
    exact HP.
Qed.

Lemma count_ndnz_total :
  exec (count_ndnz shape0 ir jr) 0 = Ok total.
Proof.
  pose proof rows_nonneg as HR.
  pose (P := fun (i : Z) (st : Z) =>
    st = Z.of_nat (length (off_diagonal (old_rows ir jr ar i)))).
  destruct (for_count_total P
              (fun i =>
                 p0 ← lift (rd ir i);
                 p_next ← lift (rd ir (i + 1));
                 for_range p0 p_next (fun p =>
                   c ← lift (rd jr p);
                   if negb (i =? c) then modify (fun ndnz => ndnz + 1)
                   else mret tt))
              (Z.to_nat (shape0.1 - 0)) 0 0) as (st & Hrun & HP).
  - unfold P. reflexivity.
  - intros i st Hi HP. unfold P in HP.
    destruct (old_yale_ok_row _ _ _ _ i Hok ltac:(lia))
      as (p0 & p1 & H0 & H1 & Hp0 & Hj & Ha).
    unfold mbind at 1, M_bind at 1, lift at 1. rewrite H0.
    unfold mbind at 1, M_bind at 1, lift at 1. rewrite H1.
    rewrite count_row by assumption.
    eexists. split; [reflexivity|]. unfold P.
    rewrite old_rows_snoc by lia. unfold old_row. rewrite H0, H1.
    rewrite off_diagonal_app, length_app. lia.
  - unfold exec, count_ndnz. unfold for_range at 1. rewrite Hrun. f_equal.
    unfold P in HP.
    replace (0 + Z.of_nat (Z.to_nat (shape0.1 - 0))) with shape0.1 in HP
      by lia.
    exact HP.
Qed.

(** What the second pass has built after the entries [es]. *)
Definition filled (es : list (Z * Z * Z)) (st : import_state) : Prop :=
  st.2 = shape0.1 + 1 + Z.of_nat (length (off_diagonal es)) /\
  length (ija st.1) = Z.to_nat cap /\ length (a st.1) = Z.to_nat cap /\
  shape st.1 = shape0 /\ ndnz st.1 = total /\ capacity st.1 = cap /\
  (forall k, 0 <= k <= shape0.1 ->
             rd (ija st.1) k = Ok (junk_ija (Z.to_nat k))) /\
  (forall t e, off_diagonal es !! t = Some e ->
               rd (ija st.1) (shape0.1 + 1 + Z.of_nat t) = Ok e.1.2 /\
               rd (a st.1) (shape0.1 + 1 + Z.of_nat t) = Ok e.2) /\
  (forall k, 0 <= k < shape0.1 ->
             rd (a st.1) k
             = Ok (default (junk_a (Z.to_nat k))
                     (last (diagonal_values k es)))).

Lemma fill_entry (es : list (Z * Z * Z)) (i p c v : Z)
    (st : import_state) :
  0 <= i < shape0.1 -> rd jr p = Ok c -> rd ar p = Ok v ->
  Z.of_nat (length (off_diagonal (es ++ [(i, c, v)]))) <= total ->
  filled es st ->
  exists st',
    (st ← get;
     let pp := st.2 in
     c ← lift (rd jr p);
     (if i =? c then
        v ← lift (rd ar p);
        on_fst (wr_a i v);;
        set_pp (wrap64 (pp - 1))
      else
        on_fst (wr_ija pp c);;
        v ← lift (rd ar p);
        on_fst (wr_a pp v));;
     st ← get;
     set_pp (st.2 + 1)) st = Done tt st' /\
    filled (es ++ [(i, c, v)]) st'.
Proof.
  intros Hi Hc Hv Hle (Hpp & Hli & Hla & Hsh & Hnd & Hcp & Hjunk & Hoff & Hdg).
  pose proof rows_nonneg as HR.
  destruct st as [s pp]. cbn [fst snd] in *.
  rewrite off_diagonal_app, length_app in Hle.
  unfold mbind at 1, M_bind at 1, get at 1. cbn [fst snd].
  unfold mbind at 1, M_bind at 1, lift at 1. rewrite Hc.
  destruct (Z.eqb_spec i c) as [<-|Hic].
  - (* an entry on the diagonal *)
    assert (Hnone : off_diagonal [(i, i, v)] = []).
    { unfold off_diagonal. simpl. rewrite Z.eqb_refl. reflexivity. }
    unfold mbind, M_bind, lift, get, set_pp, on_fst. rewrite Hv.
    cbn [fst snd]. rewrite wr_a_Done by lia. cbn [fst snd].
    rewrite wrap64_small by lia.
    eexists. split; [reflexivity|]. unfold filled. cbn [fst snd].
    cbn [ija a shape ndnz capacity set_a]. rewrite length_insert.
    rewrite off_diagonal_app, Hnone, app_nil_r.
    split; [lia|]. split; [exact Hli|]. split; [exact Hla|].
    split; [exact Hsh|]. split; [exact Hnd|]. split; [exact Hcp|].
    split; [exact Hjunk|]. split.
    + intros t e Ht. destruct (Hoff t e Ht) as [H1 H2]. split; [exact H1|].
      rewrite rd_insert by lia.
      replace (shape0.1 + 1 + Z.of_nat t =? i) with false by zbool. exact H2.
    + intros k Hk. rewrite rd_insert by lia.
      rewrite diagonal_values_app.
      destruct (Z.eqb_spec k i) as [->|Hki].
      * unfold diagonal_values at 2. simpl. rewrite Z.eqb_refl. simpl.
        rewrite last_snoc. reflexivity.
      * unfold diagonal_values at 2. simpl.
        replace (i =? k) with false by zbool. simpl. rewrite app_nil_r.
        apply Hdg. exact Hk.
  - (* an entry off the diagonal *)
    assert (Hone : off_diagonal [(i, c, v)] = [(i, c, v)]).
    { unfold off_diagonal. simpl. replace (i =? c) with false by zbool.
      reflexivity. }
    rewrite Hone in Hle. simpl in Hle.
    unfold mbind, M_bind, lift, get, set_pp, on_fst.
    cbn [fst snd]. rewrite wr_ija_Done by lia. cbn [fst snd].
    rewrite Hv. cbv beta iota. cbn [fst snd].
    rewrite wr_a_Done by (cbn [a set_ija]; lia). cbn [fst snd].
    eexists. split; [reflexivity|]. unfold filled. cbn [fst snd].
    cbn [ija a shape ndnz capacity set_a set_ija]. rewrite !length_insert.
    rewrite off_diagonal_app, Hone, length_app. simpl length.
    split; [lia|]. split; [exact Hli|]. split; [exact Hla|].
    split; [exact Hsh|]. split; [exact Hnd|]. split; [exact Hcp|].
    split.
    + intros k Hk. rewrite rd_insert by lia.
      replace (k =? pp) with false by zbool. apply Hjunk. exact Hk.
    + split.
      * intros t e Ht. rewrite !rd_insert by lia.
        apply lookup_app_Some in Ht.
        destruct Ht as [Ht|[Hlen Ht]].
        -- pose proof (lookup_lt_Some _ _ _ Ht) as Hlt.
           replace (shape0.1 + 1 + Z.of_nat t =? pp) with false by zbool.
           apply Hoff. exact Ht.
        -- destruct (t - length (off_diagonal es))%nat as [|m] eqn:E;
             [|destruct m; discriminate].
           simpl in Ht. injection Ht as <-.
           replace (shape0.1 + 1 + Z.of_nat t =? pp) with true by zbool.
           split; reflexivity.
      * intros k Hk. rewrite rd_insert by lia.
        replace (k =? pp) with false by zbool.
        rewrite diagonal_values_app. unfold diagonal_values at 2. simpl.
        replace ((i =? k) && (c =? k)) with false
          by (destruct (Z.eqb_spec i k), (Z.eqb_spec c k); simpl; lia).
        simpl. rewrite app_nil_r. apply Hdg. exact Hk.
Qed.

Lemma fill_row (i : Z) (st : import_state) :
  0 <= i < shape0.1 ->
  filled (old_rows ir jr ar i) st ->
  exists st',
    (p0 ← lift (rd ir i);
     p_next ← lift (rd ir (i + 1));
     for_range p0 p_next (fun p =>
       st ← get;
       let pp := st.2 in
       c ← lift (rd jr p);
       (if i =? c then
          v ← lift (rd ar p);
          on_fst (wr_a i v);;
          set_pp (wrap64 (pp - 1))
        else
          on_fst (wr_ija pp c);;
          v ← lift (rd ar p);
          on_fst (wr_a pp v));;
       st ← get;
       set_pp (st.2 + 1))) st = Done tt st' /\
    filled (old_rows ir jr ar (i + 1)) st'.
Proof.
  intros Hi Hst.
  destruct (old_yale_ok_row _ _ _ _ i Hok ltac:(lia))
    as (p0 & p1 & H0 & H1 & Hp0 & Hj & Ha).
  unfold mbind at 1, M_bind at 1, lift at 1. rewrite H0.
  unfold mbind at 1, M_bind at 1, lift at 1. rewrite H1.
  rewrite old_rows_snoc by lia. unfold old_row. rewrite H0, H1.
  destruct (Z_lt_le_dec p0 p1) as [Hlt|Hge].
  2:{ rewrite for_range_nil by lia. rewrite old_row_part_nil by lia.
      rewrite app_nil_r. eauto. }
  pose (P := fun (p : Z) (st : import_state) =>
    filled (old_rows ir jr ar i ++ old_row_part jr ar i p0 p) st).
  destruct (for_count_total P
              (fun p =>
                 st ← get;
                 let pp := st.2 in
                 c ← lift (rd jr p);
                 (if i =? c then
                    v ← lift (rd ar p);
                    on_fst (wr_a i v);;
                    set_pp (wrap64 (pp - 1))
                  else
                    on_fst (wr_ija pp c);;
                    v ← lift (rd ar p);
                    on_fst (wr_a pp v));;
                 st ← get;
                 set_pp (st.2 + 1))
              (Z.to_nat (p1 - p0)) p0 st) as (st' & Hrun & HP).
  - unfold P. rewrite old_row_part_nil by lia. rewrite app_nil_r. exact Hst.
  - intros p st1 Hp HP. unfold P in HP.
    destruct (rd_in_range jr p) as [c Hc]; [lia|].
    destruct (rd_in_range ar p) as [v Hv]; [lia|].
    destruct (fill_entry
                (old_rows ir jr ar i ++ old_row_part jr ar i p0 p)
                i p c v st1 Hi Hc Hv) as (st2 & Hrun & Hst2);
      [|exact HP|].
    + rewrite <- app_assoc.
      rewrite <- (old_row_part_snoc jr ar i p0 p c v) by (auto; lia).
      apply (seen_le_total i p0 p1 (p + 1)); auto; lia.
    + exists st2. split; [exact Hrun|]. unfold P.
      rewrite (old_row_part_snoc jr ar i p0 p c v) by (auto; lia).
      rewrite app_assoc. exact Hst2.
  - exists st'. split; [exact Hrun|].
    unfold P in HP.
    replace (p0 + Z.of_nat (Z.to_nat (p1 - p0))) with p1 in HP by lia.
    exact HP.
Qed.

Lemma fill_arrays_total (st : import_state) :
  filled [] st ->
  exists st',
    fill_arrays shape0 ir jr ar st = Done tt st' /\
    filled (old_rows ir jr ar shape0.1) st'.
Proof.
  intros Hst. pose proof rows_nonneg as HR.
  destruct (for_count_total (fun i st => filled (old_rows ir jr ar i) st)
              (fun i =>
                 p0 ← lift (rd ir i);
                 p_next ← lift (rd ir (i + 1));
                 for_range p0 p_next (fun p =>
                   st ← get;
                   let pp := st.2 in
                   c ← lift (rd jr p);
                   (if i =? c then
                      v ← lift (rd ar p);
                      on_fst (wr_a i v);;
                      set_pp (wrap64 (pp - 1))
                    else
                      on_fst (wr_ija pp c);;
                      v ← lift (rd ar p);
                      on_fst (wr_a pp v));;
                   st ← get;
                   set_pp (st.2 + 1)))
              (Z.to_nat (shape0.1 - 0)) 0 st) as (st' & Hrun & HP).
  - exact Hst.
  - intros i st1 Hi HP. apply fill_row; [lia|exact HP].
  - exists st'. split; [exact Hrun|].
    replace (0 + Z.of_nat (Z.to_nat (shape0.1 - 0))) with shape0.1 in HP
      by lia.
    exact HP.
Qed.

Lemma import_total :
  exists s,
    create_from_old_yale junk_ija junk_a shape0 ir jr ar = Ok s /\
    shape s = shape0 /\ ndnz s = total /\ capacity s = cap /\
    get_size s = Ok cap /\
    (forall i, 0 <= i < shape0.1 ->
               rd (ija s) i = Ok (junk_ija (Z.to_nat i))) /\
    (forall t e,
       off_diagonal (old_rows ir jr ar shape0.1) !! t = Some e ->
       rd (ija s) (shape0.1 + 1 + Z.of_nat t) = Ok e.1.2 /\
       rd (a s) (shape0.1 + 1 + Z.of_nat t) = Ok e.2) /\
    (forall i, 0 <= i < shape0.1 ->
               rd (a s) i
               = Ok (default (junk_a (Z.to_nat i))
                       (last (diagonal_values i
                                (old_rows ir jr ar shape0.1))))) /\
    rd (a s) shape0.1 = Ok 0.
Proof.
  pose proof rows_nonneg as HR.
  unfold create_from_old_yale. rewrite count_ndnz_total.
  unfold mbind at 1, res_bind at 1.
  cbn [capacity set_capacity set_ndnz alloc shape dim ndnz ija a epoch].
  fold cap.
  set (s0 := set_a (ALLOC_N junk_a cap) (set_ija (ALLOC_N junk_ija cap) _)).
  destruct (fill_arrays_total (s0, shape0.1 + 1)) as (st1 & Hrun & Hst1).
  { unfold filled, s0. cbn [fst snd]. simpl.
    rewrite !length_ALLOC_N.
    split; [lia|]. split; [reflexivity|]. split; [reflexivity|].
    split; [reflexivity|]. split; [reflexivity|]. split; [reflexivity|].
    split; [intros k Hk; apply rd_ALLOC_N; unfold cap; lia|].
    split; [intros t e Ht; rewrite lookup_nil in Ht; discriminate|].
    intros k Hk. apply rd_ALLOC_N. unfold cap. lia. }
  unfold exec at 2. rewrite Hrun. unfold mbind at 1, res_bind at 1.
  destruct st1 as [s1 pp1].
  destruct Hst1 as (Hpp & Hli & Hla & Hsh & Hnd & Hcp & Hjunk & Hoff & Hdg).
  cbn [fst snd] in *. fold total in Hpp.
  assert (Hend :
    exec (on_fst (wr_ija shape0.1 pp1);; on_fst (wr_a shape0.1 0)) (s1, pp1)
    = Ok (set_a (<[Z.to_nat shape0.1 := 0]> (a s1))
            (set_ija (<[Z.to_nat shape0.1 := pp1]> (ija s1)) s1), pp1)).
  { unfold exec, mbind, M_bind, on_fst. cbn [fst snd].
    rewrite wr_ija_Done by lia. cbn [fst snd].
    rewrite wr_a_Done by (cbn [a set_ija]; lia). reflexivity. }
  rewrite Hend. unfold mbind, res_bind. cbn [fst].
  eexists. split; [reflexivity|].
  cbn [shape ndnz capacity ija a set_a set_ija].
  split; [exact Hsh|]. split; [exact Hnd|]. split; [exact Hcp|].
  split.
  { unfold get_size. cbn [shape ija set_a set_ija]. rewrite Hsh.
    rewrite rd_insert by lia. rewrite Z.eqb_refl. f_equal. unfold cap. lia. }
  split.
  { intros i Hi. rewrite rd_insert by lia.
    replace (i =? shape0.1) with false by zbool. apply Hjunk. lia. }
  split.
  { intros t e Ht. destruct (Hoff t e Ht) as [H1 H2].
    rewrite !rd_insert by lia.
    replace (shape0.1 + 1 + Z.of_nat t =? shape0.1) with false by zbool.
    auto. }
  split.
  { intros i Hi. rewrite rd_insert by lia.
    replace (i =? shape0.1) with false by zbool. apply Hdg. exact Hi. }
  rewrite rd_insert by lia. rewrite Z.eqb_refl. reflexivity.
Qed.

End OldYaleEntries.

(** Import of a well-formed old-Yale input.  [create_from_old_yale]
    returns a descriptor whose capacity and in-use length are
    [rows + 1 + n], where [n] is the number of entries off the diagonal,
    which is also its [ndnz].  The columns and values of these entries stand
    behind the zero slot in input order; the diagonal slot of a row holds
    the value of the last diagonal entry of the row, or what the allocator
    left when the row has none; the zero slot holds zero. *)
Theorem import_stores_entries junk_ija junk_a (shape0 : Z * Z)
    (ir jr ar : list Z) :
  old_yale_ok shape0.1 ir jr ar = true ->
  shape0.1 + Z.of_nat (length (off_diagonal (old_rows ir jr ar shape0.1))) + 1
    < 2 ^ 64 ->
  exists s,
    create_from_old_yale junk_ija junk_a shape0 ir jr ar = Ok s /\
    shape s = shape0 /\
    ndnz s = Z.of_nat (length (off_diagonal (old_rows ir jr ar shape0.1))) /\
    capacity s = shape0.1 + ndnz s + 1 /\
    get_size s = Ok (capacity s) /\
    (forall t e,
       off_diagonal (old_rows ir jr ar shape0.1) !! t = Some e ->
       rd (ija s) (shape0.1 + 1 + Z.of_nat t) = Ok e.1.2 /\
       rd (a s) (shape0.1 + 1 + Z.of_nat t) = Ok e.2) /\
    (forall i, 0 <= i < shape0.1 ->
               rd (a s) i
               = Ok (default (junk_a (Z.to_nat i))
                       (last (diagonal_values i
                                (old_rows ir jr ar shape0.1))))) /\
    rd (a s) shape0.1 = Ok 0.
Proof.
  intros Hok Hcap.
  destruct (import_total junk_ija junk_a shape0 ir jr ar Hok Hcap)
    as (s & Hrun & Hsh & Hnd & Hcp & Hsz & _ & Hoff & Hdg & Hz).
  exists s. split; [exact Hrun|]. split; [exact Hsh|]. split; [exact Hnd|].
  split; [rewrite Hnd; exact Hcp|]. split; [rewrite Hcp; exact Hsz|].
  split; [exact Hoff|]. split; [exact Hdg|exact Hz].
Qed.

(** The 2x2 matrix with rows (0 5) and (6 7) in old Yale form. *)
Lemma import_stores_entries_witness :
  old_rows [0; 1; 3] [1; 0; 1] [5; 6; 7] 2
    = [(0, 1, 5); (1, 0, 6); (1, 1, 7)] /\
  exists s,
    create_from_old_yale (marked 100) (marked 200) (2, 2)
      [0; 1; 3] [1; 0; 1] [5; 6; 7] = Ok s /\
    shape s = (2, 2) /\
    ndnz s = Z.of_nat (length (off_diagonal
                                 (old_rows [0; 1; 3] [1; 0; 1] [5; 6; 7]
                                    (2, 2).1))) /\
    capacity s = (2, 2).1 + ndnz s + 1 /\
    get_size s = Ok (capacity s) /\
    (forall t e,
       off_diagonal (old_rows [0; 1; 3] [1; 0; 1] [5; 6; 7] (2, 2).1) !! t
         = Some e ->
       rd (ija s) ((2, 2).1 + 1 + Z.of_nat t) = Ok e.1.2 /\
       rd (a s) ((2, 2).1 + 1 + Z.of_nat t) = Ok e.2) /\
    (forall i, 0 <= i < (2, 2).1 ->
               rd (a s) i
               = Ok (default (marked 200 (Z.to_nat i))
                       (last (diagonal_values i
                                (old_rows [0; 1; 3] [1; 0; 1] [5; 6; 7]
                                   (2, 2).1))))) /\
    rd (a s) (2, 2).1 = Ok 0.
Proof.
  split; [reflexivity|].
  apply (import_stores_entries (marked 100) (marked 200) (2, 2));
    [vm_compute; reflexivity | vm_compute; reflexivity].
Defined.

(** The import leaves the row pointers unset.  In the descriptor that
    [create_from_old_yale] returns for a well-formed old-Yale input, the
    cells [ija[0 .. rows)] hold what the allocator left there: only the
    in-use length [ija[rows]] and the columns behind it are written. *)
Theorem import_leaves_row_pointers_unset junk_ija junk_a (shape0 : Z * Z)
    (ir jr ar : list Z) :
  old_yale_ok shape0.1 ir jr ar = true ->
  shape0.1 + Z.of_nat (length (off_diagonal (old_rows ir jr ar shape0.1))) + 1
    < 2 ^ 64 ->
  exists s,
    create_from_old_yale junk_ija junk_a shape0 ir jr ar = Ok s /\
    forall i, 0 <= i < shape0.1 ->
              rd (ija s) i = Ok (junk_ija (Z.to_nat i)).
Proof.
  intros Hok Hcap.
  destruct (import_total junk_ija junk_a shape0 ir jr ar Hok Hcap)
    as (s & Hrun & _ & _ & _ & _ & Hjunk & _).
  exists s. split; [exact Hrun|exact Hjunk].
Qed.

Lemma import_leaves_row_pointers_unset_witness :
  old_yale_ok 2 [0; 1; 3] [1; 0; 1] [5; 6; 7] = true /\
  exists s,
    create_from_old_yale (marked 100) (marked 200) (2, 2)
      [0; 1; 3] [1; 0; 1] [5; 6; 7] = Ok s /\
    forall i, 0 <= i < (2, 2).1 ->
              rd (ija s) i = Ok (marked 100 (Z.to_nat i)).
Proof.
  split; [reflexivity|].
  apply (import_leaves_row_pointers_unset (marked 100) (marked 200) (2, 2));
    [vm_compute; reflexivity | vm_compute; reflexivity].
Defined.

(** ** The two steps of an insertion *)

(** [vector_insert] of one entry when the buffers have room.  At a
    position from the zero slot up to the in-use length it returns ['i'] and
    leaves the fields of the descriptor and the lengths of the buffers as
    they were: the new column and value stand at the position, the cells
    from the position up to the in-use length stand one position further,
    and every other cell is unchanged.  The row pointers and [ndnz] are left
    to the caller. *)
Theorem vector_insert_shifts_tail GROWTH junk_ija junk_a (pos c v : Z)
    (s : YALE_STORAGE) :
  well_formed s = true ->
  (shape s).1 <= pos ->
  (size ← get_size s;
   Ok ((pos <=? size) && (size + 1 <=? capacity s))) = Ok true ->
  exists s' size,
    vector_insert GROWTH junk_ija junk_a pos [c] [v] 1 false s
      = Done "i"%char s' /\
    get_size s = Ok size /\
    same_frame s s' /\
    (forall k, 0 <= k ->
       rd (ija s') k =
       if k =? pos then Ok c
       else if (pos + 1 <=? k) && (k <? size + 1) then rd (ija s) (k - 1)
       else rd (ija s) k) /\
    (forall k, 0 <= k ->
       rd (a s') k =
       if k =? pos then Ok v
       else if (pos + 1 <=? k) && (k <? size + 1) then rd (a s) (k - 1)
       else rd (a s) k).
Proof.
  intros Hwf Hpos Hroom.
  destruct (well_formed_layout s Hwf) as (size & L).
  rewrite (lay_size s size L) in Hroom. unfold mbind, res_bind in Hroom.
  injection Hroom as Hroom. apply andb_true_iff in Hroom.
  destruct Hroom as [H1 H2]. apply Z.leb_le in H1, H2.
  destruct (vector_insert_in_place GROWTH junk_ija junk_a pos c v size s)
    as (s' & Hrun & Hf & Hija & Ha).
  - exact (lay_size s size L).
  - pose proof (lay_rows s size L). lia.
  - exact H1.
  - exact H2.
  - exact (lay_cap s size L).
  - exact (lay_len_ija s size L).
  - exact (lay_len_a s size L).
  - exists s', size. split; [exact Hrun|].
    split; [exact (lay_size s size L)|]. auto.
Qed.

Lemma vector_insert_shifts_tail_witness :
  well_formed without_stored_zero = true /\
  exists s' size,
    vector_insert growth_1_5 zero_page zero_page 3 [0] [9] 1 false
      without_stored_zero
      = Done "i"%char s' /\
    get_size without_stored_zero = Ok size /\
    same_frame without_stored_zero s' /\
    (forall k, 0 <= k ->
       rd (ija s') k =
       if k =? 3 then Ok 0
       else if (3 + 1 <=? k) && (k <? size + 1)
            then rd (ija without_stored_zero) (k - 1)
       else rd (ija without_stored_zero) k) /\
    (forall k, 0 <= k ->
       rd (a s') k =
       if k =? 3 then Ok 9
       else if (3 + 1 <=? k) && (k <? size + 1)
            then rd (a without_stored_zero) (k - 1)
       else rd (a without_stored_zero) k).
Proof.
  split; [vm_compute; reflexivity|].
  apply vector_insert_shifts_tail;
    [vm_compute; reflexivity | simpl; lia | vm_compute; reflexivity].
Defined.

(** [increment_ia_after] adds [n] to the row pointers [ija[i+1 .. ija_size]]
    of a buffer that holds them, and changes nothing else: the pointers up
    to [i], the cells behind [ija_size], the value buffer and the other
    fields stay as they were. *)
Theorem increment_ia_after_adds (ija_size i n : Z) (s : YALE_STORAGE) :
  0 <= i <= ija_size -> ija_size < Z.of_nat (length (ija s)) ->
  exists s',
    increment_ia_after ija_size i n s = Done tt s' /\
    same_frame s s' /\ a s' = a s /\
    (forall k, 0 <= k ->
       rd (ija s') k =
       if (i + 1 <=? k) && (k <=? ija_size) then
         x ← rd (ija s) k; Ok (x + n)
       else rd (ija s) k).
Proof. apply increment_ia_after_spec. Qed.

Lemma increment_ia_after_adds_witness :
  exists s',
    increment_ia_after 2 0 1 without_stored_zero = Done tt s' /\
    same_frame without_stored_zero s' /\ a s' = a without_stored_zero /\
    (forall k, 0 <= k ->
       rd (ija s') k =
       if (0 + 1 <=? k) && (k <=? 2) then
         x ← rd (ija without_stored_zero) k; Ok (x + 1)
       else rd (ija without_stored_zero) k).
Proof.
  apply (increment_ia_after_adds 2 0 1 without_stored_zero);
    [lia | simpl; lia].
Defined.

(** ** Insertion behind the last entry, through a resize *)

Lemma insert_search_rec_agree (s s' : YALE_STORAGE) (n key : Z) :
  (forall k, 0 <= k < n -> rd (ija s') k = rd (ija s) k) ->
  n <= 2 ^ 64 ->
  forall fuel left right,
    1 <= left -> right < n ->
    insert_search_rec fuel s' left right key
    = insert_search_rec fuel s left right key.
Proof.
  intros Hsame Hn. induction fuel as [|fuel IH]; intros left right Hl Hr;
    [reflexivity|].
  simpl. destruct (Z.ltb_spec right left) as [Hlt|Hge]; [reflexivity|].
  assert (Hmid : left <= (left + right) / 2 <= right).
  { split.
    - apply Z.div_le_lower_bound; lia.
    - apply Z.div_le_upper_bound; lia. }
  rewrite Hsame by lia.
  destruct (rd (ija s) ((left + right) / 2)) as [m|]; [|reflexivity].
  unfold mbind, res_bind. destruct (m =? key); [reflexivity|].
  destruct (key <? m).
  - rewrite wrap64_small by lia. apply IH; lia.
  - apply IH; lia.
Qed.

(** The invariants carry over to a descriptor with other buffers that hold
    the same in-use index cells. *)
Lemma layout_transfer (s c : YALE_STORAGE) (size : Z) :
  layout s size ->
  shape c = shape s -> ndnz c = ndnz s ->
  size <= capacity c <= 2 ^ 64 ->
  length (ija c) = Z.to_nat (capacity c) ->
  length (a c) = Z.to_nat (capacity c) ->
  (forall k, 0 <= k < size -> rd (ija c) k = rd (ija s) k) ->
  layout c size.
Proof.
  intros L Hsh Hnd Hcap Hli Hla Hsame.
  pose proof (lay_bounds s size L) as Hb.
  pose proof (lay_rows s size L) as HR.
  assert (Hrow : forall i p q, 0 <= i < (shape s).1 ->
            rd (ija c) i = Ok p -> rd (ija c) (i + 1) = Ok q ->
            rd (ija s) i = Ok p /\ rd (ija s) (i + 1) = Ok q /\
            (shape s).1 + 1 <= p /\ q <= size).
  { intros i p q Hi Hp Hq. rewrite Hsame in Hp, Hq by lia.
    destruct (lay_ptr s size L i ltac:(lia)) as (p' & Hp' & Hpb).
    destruct (lay_ptr s size L (i + 1) ltac:(lia)) as (q' & Hq' & Hqb).
    rewrite Hp in Hp'. injection Hp' as <-.
    rewrite Hq in Hq'. injection Hq' as <-.
    repeat split; auto; lia. }
  constructor; rewrite ?Hsh, ?Hnd.
  - exact HR.
  - lia.
  - exact Hli.
  - exact Hla.
  - unfold get_size. rewrite Hsh, Hsame by lia. exact (lay_size s size L).
  - lia.
  - exact (lay_ndnz s size L).
  - intros i Hi. rewrite Hsame by lia. apply (lay_ptr s size L i Hi).
  - intros i p q Hi Hp Hq.
    destruct (Hrow i p q Hi Hp Hq) as (Hp' & Hq' & _).
    apply (lay_mono s size L i p q Hi Hp' Hq').
  - intros i p q Hi Hp Hq.
    destruct (Hrow i p q Hi Hp Hq) as (Hp' & Hq' & Hpb & Hqb).
    intros k j x y Hk Hkj Hj Hx Hy.
    rewrite Hsame in Hx, Hy by lia.
    apply (lay_sorted s size L i p q Hi Hp' Hq' k j x y); auto.
  - intros i p q k x Hi Hp Hq Hk Hx.
    destruct (Hrow i p q Hi Hp Hq) as (Hp' & Hq' & Hpb & Hqb).
    rewrite Hsame in Hx by lia.
    apply (lay_cols s size L i p q k x Hi Hp' Hq' Hk Hx).
Qed.

(** Descriptors of the same shape that agree on the in-use cells read the
    same, whatever their capacities. *)
Lemma read_cell_transfer (s c : YALE_STORAGE) (size i j : Z) :
  layout s size -> layout c size ->
  shape c = shape s -> capacity s <= 2 ^ 31 -> capacity c <= 2 ^ 31 ->
  (forall k, 0 <= k < size -> rd (ija c) k = rd (ija s) k) ->
  (forall k, 0 <= k < size -> rd (a c) k = rd (a s) k) ->
  0 <= i < (shape s).1 ->
  read_cell c (i, j) = read_cell s (i, j).
Proof.
  intros L Lc Hsh H31 H31c Hija Ha Hi.
  pose proof (lay_bounds s size L) as Hb.
  assert (Hic : 0 <= i < (shape c).1) by (rewrite Hsh; exact Hi).
  unfold read_cell.
  destruct (Z.eq_dec i j) as [<-|Hij].
  - unfold ref. cbn [fst snd]. rewrite Z.eqb_refl.
    unfold mbind, res_bind, deref. apply Ha. lia.
  - destruct (lay_ptr s size L i ltac:(lia)) as (lo & Hlo & Hlob).
    destruct (lay_ptr s size L (i + 1) ltac:(lia)) as (hi & Hhi & Hhib).
    assert (Hloc : rd (ija c) i = Ok lo) by (rewrite Hija by lia; exact Hlo).
    assert (Hhic : rd (ija c) (i + 1) = Ok hi)
      by (rewrite Hija by lia; exact Hhi).
    destruct (ref_off_diagonal s size i j lo hi L H31 Hi Hij Hlo Hhi)
      as (k & Hk & [[-> Hno]|[Hkr Hkj]]).
    + rewrite Hk.
      rewrite (ref_absent c size i j lo hi Lc H31c Hic Hij Hloc Hhic).
      * unfold mbind, res_bind, deref. rewrite Hsh. apply Ha. lia.
      * intros p Hp. rewrite Hija by lia. apply Hno. exact Hp.
    + rewrite Hk.
      rewrite (ref_stored c size i j lo hi k Lc H31c Hic Hij Hloc Hhic Hkr).
      * unfold mbind, res_bind, deref. apply Ha. lia.
      * rewrite Hija by lia. exact Hkj.
Qed.

(** [set] at a cell off the diagonal whose column is larger than every
    column of its row, in a row that ends at the end of the in-use cells:
    the insertion position is the in-use length. *)
Lemma set_at_end GROWTH junk_ija junk_a (st : YALE_STORAGE)
    (size r c v lo : Z) :
  layout st size -> 0 <= r < (shape st).1 -> r <> c ->
  rd (ija st) r = Ok lo -> rd (ija st) (r + 1) = Ok size ->
  (forall k x, lo <= k < size -> rd (ija st) k = Ok x -> x < c) ->
  set GROWTH junk_ija junk_a (r, c) v st
  = (ins_type ← vector_insert GROWTH junk_ija junk_a size [c] [v] 1 false;
     s ← get;
     increment_ia_after (shape s).1 r 1;;
     incr_ndnz;;
     mret ins_type) st.
Proof.
  intros L Hr Hrc Hlo Hhi Hbelow.
  pose proof (lay_bounds st size L) as Hb.
  pose proof (lay_len_ija st size L) as Hli.
  pose proof (lay_cap st size L) as H64.
  destruct (lay_ptr st size L r ltac:(lia)) as (lo' & Hlo' & Hlob).
  rewrite Hlo in Hlo'. injection Hlo' as <-.
  pose proof (lay_mono st size L r lo size Hr Hlo Hhi) as Hlh.
  unfold set. cbn [fst snd]. replace (r =? c) with false by lia.
  unfold mbind at 1, M_bind at 1, rd_ija at 1, lift at 1. rewrite Hlo.
  unfold mbind at 1, M_bind at 1, rd_ija at 1, lift at 1. rewrite Hhi.
  destruct (Z.eqb_spec lo size) as [->|Hne]; [reflexivity|].
  unfold mbind at 1, M_bind at 1, get at 1.
  rewrite wrap64_small by lia. unfold insert_search.
  destruct (insert_search_rec_spec st c ltac:(lia)
              (S (Z.to_nat (size - 1 + 1 - lo))) lo (size - 1))
    as (pos & found & Hsearch & Hpos & Hfound & Hnot);
    [lia|lia|lia|lia| |].
  { replace (size - 1 + 1) with size by lia.
    apply (lay_sorted st size L r lo size Hr Hlo Hhi). }
  rewrite Hsearch. unfold mbind at 1, M_bind at 1, lift at 1.
  destruct found.
  - destruct (Hfound eq_refl) as [Hat Hle].
    pose proof (Hbelow pos c ltac:(lia) Hat). lia.
  - destruct (Hnot eq_refl) as [_ Habove].
    assert (pos = size).
    { destruct (Z.eq_dec pos size) as [E|E]; [exact E|].
      destruct (rd_in_range (ija st) pos) as [x Hx]; [lia|].
      pose proof (Habove pos x ltac:(lia) Hx).
      pose proof (Hbelow pos x ltac:(lia) Hx). lia. }
    subst pos. reflexivity.
Qed.

Section AppendResize.

Variable GROWTH : Z -> Z.
Variables (junk_ija junk_a : nat -> Z).
Variables (s : YALE_STORAGE) (size : Z).
Hypothesis L : layout s size.
Hypothesis Hfull : capacity s < size + 1.
Hypothesis Hmax : size + 1 <= NM_YALE_MAX_SIZE s.

Let cap' : Z :=
  Z.max (Z.min (GROWTH (capacity s)) (NM_YALE_MAX_SIZE s)) (size + 1).

Hypothesis Hcap' : cap' <= 2 ^ 64.

(** The first copy loop of the resize in full, for a position at the end of
    the in-use cells. *)
Lemma resize_copy_end (b : new_bufs) :
  length b.1 = Z.to_nat cap' -> length b.2 = Z.to_nat cap' ->
  exists b',
    resize_copy (ija s) (a s) size size 1 false b = Done tt b' /\
    length b'.1 = Z.to_nat cap' /\ length b'.2 = Z.to_nat cap' /\
    (forall i, 0 <= i < size ->
               rd b'.1 i = rd (ija s) i /\ rd b'.2 i = rd (a s) i).
Proof.
  intros Hl1 Hl2.
  pose proof (lay_bounds s size L) as Hb.
  pose proof (lay_rows s size L) as HR.
  pose proof (lay_len_ija s size L) as Hli.
  pose proof (lay_len_a s size L) as Hla.
  assert (Hc : size + 1 <= cap') by (unfold cap'; lia).
  pose (P := fun (k : Z) (st : new_bufs) =>
    length st.1 = Z.to_nat cap' /\ length st.2 = Z.to_nat cap' /\
    forall i, 0 <= i < k ->
              rd st.1 i = rd (ija s) i /\ rd st.2 i = rd (a s) i).
  destruct (for_count_total P
              (fun i => x ← lift (rd (ija s) i); wr_new_ija i x;;
                        y ← lift (rd (a s) i); wr_new_a i y)
              (Z.to_nat (size - 0)) 0 b) as (b' & Hrun & HP).
  - unfold P. split; [exact Hl1|]. split; [exact Hl2|]. intros i Hi. lia.
  - intros j st Hj (H1 & H2 & Hsame).
    destruct (rd_in_range (ija s) j) as [x Hx]; [lia|].
    destruct (rd_in_range (a s) j) as [y Hy]; [lia|].
    destruct st as [l1 l2]. cbn [fst snd] in *.
    assert (E1 : wr l1 j x = Ok (<[Z.to_nat j := x]> l1))
      by (apply wr_Ok; split; [lia|reflexivity]).
    assert (E2 : wr l2 j y = Ok (<[Z.to_nat j := y]> l2))
      by (apply wr_Ok; split; [lia|reflexivity]).
    unfold mbind, M_bind, lift, wr_new_ija, wr_new_a. rewrite Hx.
    cbn [fst snd]. rewrite E1. cbn [fst snd]. rewrite Hy.
    cbn [fst snd]. rewrite E2.
    eexists. split; [reflexivity|]. unfold P. cbn [fst snd].
    rewrite !length_insert. split; [exact H1|]. split; [exact H2|].
    intros i Hi. rewrite !rd_insert by lia.
    destruct (Z.eqb_spec i j) as [->|Hne]; [split; congruence|].
    apply Hsame. lia.
  - exists b'. unfold resize_copy.
    unfold mbind at 1, M_bind at 1. unfold for_range at 1. rewrite Hrun.
    replace (size - size + 1 - 1) with 0 by lia.
    change (wrap64 0) with 0. rewrite for_range_nil by lia.
    split; [reflexivity|]. unfold P in HP.
    replace (0 + Z.of_nat (Z.to_nat (size - 0))) with size in HP by lia.
    exact HP.
Qed.

(** The resize for one more entry at a position at the end of the in-use
    cells. *)
Lemma resize_end (j : list Z) :
  exists big,
    vector_insert_resize GROWTH junk_ija junk_a size size j 1 false s
      = Done "i"%char big /\
    dim big = dim s /\ shape big = shape s /\ ndnz big = ndnz s /\
    capacity big = cap' /\ epoch big = S (epoch s) /\
    length (ija big) = Z.to_nat cap' /\ length (a big) = Z.to_nat cap' /\
    (forall i, 0 <= i < size ->
               rd (ija big) i = rd (ija s) i /\ rd (a big) i = rd (a s) i).
Proof.
  assert (Hnc :
    (if (if NM_YALE_MAX_SIZE s <? GROWTH (capacity s)
         then NM_YALE_MAX_SIZE s else GROWTH (capacity s)) <? size + 1
     then size + 1
     else (if NM_YALE_MAX_SIZE s <? GROWTH (capacity s)
           then NM_YALE_MAX_SIZE s else GROWTH (capacity s))) = cap').
  { unfold cap'.
    destruct (Z.ltb_spec (NM_YALE_MAX_SIZE s) (GROWTH (capacity s)));
      match goal with
      | |- context [?x <? ?y] => destruct (Z.ltb_spec x y)
      end; lia. }
  destruct (resize_copy_end (ALLOC_N junk_ija cap', ALLOC_N junk_a cap'))
    as ([nij na] & Hcopy & Hl1 & Hl2 & Hsame).
  { apply length_ALLOC_N. }
  { apply length_ALLOC_N. }
  cbn [fst snd] in *.
  exists (mkYale (dim s) (shape s) cap' (ndnz s) nij na (S (epoch s))).
  split; [|cbn; repeat split; auto; apply Hsame; assumption].
  unfold vector_insert_resize.
  unfold mbind at 1, M_bind at 1, get at 1.
  unfold mbind at 1, M_bind at 1.
  destruct (Z.ltb_spec (NM_YALE_MAX_SIZE s) (GROWTH (capacity s)))
    as [Hg|Hg].
  - replace (NM_YALE_MAX_SIZE s <? size + 1) with false by lia.
    unfold mret at 1, M_ret at 1.
    replace (NM_YALE_MAX_SIZE s <? GROWTH (capacity s)) with true in Hnc
      by lia.
    rewrite Hnc, Hcopy. reflexivity.
  - unfold mret at 1, M_ret at 1.
    replace (NM_YALE_MAX_SIZE s <? GROWTH (capacity s)) with false in Hnc
      by lia.
    rewrite Hnc, Hcopy. reflexivity.
Qed.

Section Big.

Variables (big : YALE_STORAGE) (c v : Z).
Hypothesis Hres :
  vector_insert_resize GROWTH junk_ija junk_a size size [c] 1 false s
  = Done "i"%char big.
Hypothesis Hshape : shape big = shape s.
Hypothesis Hndnz : ndnz big = ndnz s.
Hypothesis Hcapacity : capacity big = cap'.
Hypothesis Hlen_ija : length (ija big) = Z.to_nat cap'.
Hypothesis Hlen_a : length (a big) = Z.to_nat cap'.
Hypothesis Hsame :
  forall i, 0 <= i < size ->
            rd (ija big) i = rd (ija s) i /\ rd (a big) i = rd (a s) i.

Lemma big_room : size + 1 <= capacity big.
Proof. rewrite Hcapacity. unfold cap'. lia. Qed.

Lemma big_layout : layout big size.
Proof.
  pose proof big_room.
  apply (layout_transfer s big size L); auto.
  - rewrite Hcapacity. split; [rewrite <- Hcapacity; lia|exact Hcap'].
  - rewrite Hcapacity. exact Hlen_ija.
  - rewrite Hcapacity. exact Hlen_a.
  - intros k Hk. apply Hsame. exact Hk.
Qed.

(** At the end of the in-use cells [vector_insert] with the resize does
    what it does in place on the resized descriptor. *)
Lemma vector_insert_end_same :
  vector_insert GROWTH junk_ija junk_a size [c] [v] 1 false s
  = vector_insert GROWTH junk_ija junk_a size [c] [v] 1 false big.
Proof.
  pose proof (lay_bounds s size L) as Hb.
  pose proof (lay_rows s size L) as HR.
  pose proof big_room as Hroom.
  pose (W := (for_range 0 1 (fun i =>
                c0 ← lift (rd [c] i); wr_ija (size + i) c0;;
                v0 ← lift (rd [v] i); wr_a (size + i) v0);;
              mret "i"%char) : M YALE_STORAGE ascii).
  assert (H1 : vector_insert GROWTH junk_ija junk_a size [c] [v] 1 false s
               = W big).
  { unfold vector_insert.
    unfold mbind at 1, M_bind at 1, get at 1.
    replace (size <? (shape s).1) with false by lia.
    unfold mbind at 1, M_bind at 1, lift at 1.
    rewrite (lay_size s size L).
    replace (capacity s <? size + 1) with true by lia.
    unfold mbind at 1, M_bind at 1. unfold mbind at 1, M_bind at 1.
    rewrite Hres. reflexivity. }
  assert (H2 : vector_insert GROWTH junk_ija junk_a size [c] [v] 1 false big
               = W big).
  { unfold vector_insert.
    unfold mbind at 1, M_bind at 1, get at 1.
    rewrite Hshape.
    replace (size <? (shape s).1) with false by lia.
    unfold mbind at 1, M_bind at 1, lift at 1.
    rewrite (lay_size big size big_layout).
    replace (capacity big <? size + 1) with false by lia.
    unfold mbind at 1, M_bind at 1.
    replace (size - size) with 0 by lia. change (wrap64 0) with 0.
    rewrite for_range_nil by lia. reflexivity. }
  rewrite H1, H2. reflexivity.
Qed.

Variables (r lo : Z).
Hypothesis Hr : 0 <= r < (shape s).1.
Hypothesis Hrc : r <> c.
Hypothesis Hlo : rd (ija s) r = Ok lo.
Hypothesis Hhi : rd (ija s) (r + 1) = Ok size.
Hypothesis Hbelow :
  forall k x, lo <= k < size -> rd (ija s) k = Ok x -> x < c.

(** [set] with the resize does what it does in place on the resized
    descriptor. *)
Lemma set_end_same :
  set GROWTH junk_ija junk_a (r, c) v s
  = set GROWTH junk_ija junk_a (r, c) v big.
Proof.
  pose proof (lay_bounds s size L) as Hb.
  destruct (lay_ptr s size L r ltac:(lia)) as (lo' & Hlo' & Hlob).
  rewrite Hlo in Hlo'. injection Hlo' as <-.
  rewrite (set_at_end GROWTH junk_ija junk_a s size r c v lo) by auto.
  rewrite (set_at_end GROWTH junk_ija junk_a big size r c v lo).
  - unfold mbind at 1 5, M_bind at 1 5.
    rewrite vector_insert_end_same. reflexivity.
  - exact big_layout.
  - rewrite Hshape. exact Hr.
  - exact Hrc.
  - rewrite (proj1 (Hsame r ltac:(lia))). exact Hlo.
  - rewrite (proj1 (Hsame (r + 1) ltac:(lia))). exact Hhi.
  - intros k x Hk Hx. rewrite (proj1 (Hsame k ltac:(lia))) in Hx.
    exact (Hbelow k x Hk Hx).
Qed.

End Big.

End AppendResize.

(** Appending works across a resize.  On a well-formed descriptor whose
    buffers are full, [set] at a cell off the diagonal whose row ends at the
    end of the in-use cells and holds smaller columns only goes through the
    resize and returns ['i'].  The new descriptor is well formed, with the
    capacity that the resize chooses; [ref] yields the value written at the
    cell and, at every other cell of a row, the value it yielded before.
    The bounds are those of the maximum size, which the resize checks, and
    of the [int] in which [ref] receives the position. *)
Theorem set_appends_through_resize GROWTH junk_ija junk_a (s : YALE_STORAGE)
    (r c v : Z) :
  well_formed s = true ->
  0 <= r < (shape s).1 -> 0 <= c < (shape s).2 -> r <> c ->
  get_size s = Ok (capacity s) ->
  rd (ija s) (r + 1) = Ok (capacity s) ->
  (cols ← row_cols s r; Ok (forallb (fun x => x <? c) cols)) = Ok true ->
  capacity s + 1 <= NM_YALE_MAX_SIZE s ->
  Z.max (Z.min (GROWTH (capacity s)) (NM_YALE_MAX_SIZE s)) (capacity s + 1)
    <= 2 ^ 31 ->
  exists s',
    set GROWTH junk_ija junk_a (r, c) v s = Done "i"%char s' /\
    well_formed s' = true /\
    shape s' = shape s /\ ndnz s' = ndnz s + 1 /\
    capacity s'
    = Z.max (Z.min (GROWTH (capacity s)) (NM_YALE_MAX_SIZE s))
        (capacity s + 1) /\
    read_cell s' (r, c) = Ok v /\
    forall i j, 0 <= i < (shape s).1 -> i <> r \/ j <> c ->
                read_cell s' (i, j) = read_cell s (i, j).
Proof.
  intros Hwf Hr Hc Hrc Hsz Hend Hcols Hmax H31.
  pose proof (well_formed_cols s Hwf) as HC.
  destruct (well_formed_layout s Hwf) as (size & L).
  assert (size = capacity s).
  { pose proof (lay_size s size L) as E. rewrite Hsz in E. congruence. }
  subst size.
  pose proof (lay_bounds s _ L) as Hb.
  destruct (lay_ptr s _ L r ltac:(lia)) as (lo & Hlo & Hlob).
  assert (Hbelow : forall k x, lo <= k < capacity s ->
                               rd (ija s) k = Ok x -> x < c).
  { intros k x Hk Hx. unfold row_cols in Hcols. rewrite Hlo, Hend in Hcols.
    unfold mbind, res_bind in Hcols. injection Hcols as Hcols.
    rewrite forallb_forall in Hcols.
    apply Z.ltb_lt. apply Hcols. apply list_elem_of_In, list_elem_of_lookup.
    exists (Z.to_nat (k - lo)). apply slice_lookup; [lia|lia|exact Hx]. }
  set (cap' := Z.max (Z.min (GROWTH (capacity s)) (NM_YALE_MAX_SIZE s))
                 (capacity s + 1)) in *.
  destruct (resize_end GROWTH junk_ija junk_a s (capacity s) L ltac:(lia)
              Hmax [c])
    as (big & Hres & B1 & B2 & B3 & B4 & B5 & B6 & B7 & Hsame).
  fold cap' in B4, B6, B7.
  assert (Hcap64 : cap' <= 2 ^ 64) by lia.
  assert (Lb : layout big (capacity s)).
  { apply (big_layout GROWTH s (capacity s) L Hcap64 big); auto. }
  assert (Hroom : capacity s + 1 <= capacity big)
    by (rewrite B4; unfold cap'; lia).
  rewrite (set_end_same GROWTH junk_ija junk_a s (capacity s) L ltac:(lia)
             Hmax Hcap64 big c v Hres B2 B3 B4 B6 B7 Hsame r lo Hr Hrc Hlo Hend
             Hbelow).
  assert (Hrb : 0 <= r < (shape big).1) by (rewrite B2; exact Hr).
  assert (Hcb : 0 <= c < (shape big).2) by (rewrite B2; exact Hc).
  assert (H31b : capacity big <= 2 ^ 31) by (rewrite B4; exact H31).
  destruct (set_cases GROWTH junk_ija junk_a big (capacity s) r c v Lb
              Hrb Hcb)
    as [[E _]
       |[(_ & lo' & hi' & pos & Hlo' & Hhi' & Hpos & Hat & _)
        |(_ & lo' & hi' & pos & Hlo' & Hhi' & Hpos & Hlow & Habove & Hins)]].
  - contradiction.
  - exfalso.
    rewrite (proj1 (Hsame r ltac:(lia))), Hlo in Hlo'. injection Hlo' as <-.
    rewrite (proj1 (Hsame (r + 1) ltac:(lia))), Hend in Hhi'.
    injection Hhi' as <-.
    rewrite (proj1 (Hsame pos ltac:(lia))) in Hat.
    pose proof (Hbelow pos c ltac:(lia) Hat). lia.
  - destruct (Hins Hroom) as (s' & Hrun & Hin).
    pose proof Hin as (I1 & I2 & I3 & I4 & _).
    assert (L' : layout s' (capacity s + 1)).
    { apply (inserted_layout big s' (capacity s) r pos c v lo' hi');
        auto. }
    exists s'. split; [exact Hrun|]. split.
    { apply (layout_well_formed s' _ L'). rewrite I2, B2. exact HC. }
    split; [congruence|]. split; [congruence|]. split; [congruence|].
    split.
    { apply (inserted_read big s' (capacity s) r pos c v lo' hi'); auto. }
    intros i j Hi Hne.
    destruct (set_frame GROWTH junk_ija junk_a big (capacity s) r c v i j
                Lb H31b Hrb Hcb Hroom)
      as (ch2 & s2 & Hrun2 & Hread); [rewrite B2; exact Hi|exact Hne|].
    rewrite Hrun in Hrun2. injection Hrun2 as _ <-.
    rewrite Hread.
    apply (read_cell_transfer s big (capacity s) i j L Lb B2); auto.
    + lia.
    + intros k Hk. apply Hsame. exact Hk.
    + intros k Hk. apply Hsame. exact Hk.
Qed.

(** A full 2x4 descriptor with the entries (0,1) = 5 and (1,0) = 7: a write
    at (1,2) appends behind the last entry. *)
Lemma set_appends_through_resize_witness :
  let s := mkYale 2 (2, 4) 5 2 [3; 4; 5; 1; 0] [1; 2; 0; 5; 7] 0 in
  well_formed s = true /\
  exists s',
    set growth_1_5 (marked 100) (marked 200) (1, 2) 9 s
      = Done "i"%char s' /\
    well_formed s' = true /\
    shape s' = shape s /\ ndnz s' = ndnz s + 1 /\
    capacity s'
    = Z.max (Z.min (growth_1_5 (capacity s)) (NM_YALE_MAX_SIZE s))
        (capacity s + 1) /\
    read_cell s' (1, 2) = Ok 9 /\
    forall i j, 0 <= i < (shape s).1 -> i <> 1 \/ j <> 2 ->
                read_cell s' (i, j) = read_cell s (i, j).
Proof.
  intros s. split; [vm_compute; reflexivity|].
  apply set_appends_through_resize;
    [vm_compute; reflexivity | simpl; lia | simpl; lia | lia
    | reflexivity | reflexivity | vm_compute; reflexivity
    | vm_compute; discriminate | vm_compute; discriminate].
Defined.
